(** * excalidraw-mcp: scene documents, patch engine, normalizer,
      diagram-quality pass, scene store and scene service

    A shallow embedding of the TypeScript sources

      - [src/domain/validators.ts]      (normalizeScene, computeRevisionHash)
      - [src/engines/jsonEngine.ts]     (JsonEngine.applyPatch, mergeLibraryItems)
      - [src/domain/diagramQuality.ts]  (applyDiagramQuality, wrapText)
      - [src/domain/sceneStore.ts]      (SceneStore.load / save / listMetadata)
      - [src/domain/sceneService.ts]    (patchScene, attachFile)

    followed by the properties of the design document that concern them.

    Modelling conventions.

    - A scene is a value of the envelope schema ([sceneEnvelopeSchema] in
      [src/types/contracts.ts]): its elements and library items are lists of
      JSON records, its app state a record, its files a record of records.
      What is stored inside a record is an arbitrary JSON value.
    - A JavaScript object is an association list in insertion order
      ([obj]); keys that are canonical array indices, which an engine
      enumerates first, get no special treatment.
    - A JavaScript number is an exact rational or [NaN]: there is no rounding
      and no overflow to an infinity.  A string is a byte string, so [length]
      counts bytes; on ASCII text that is the UTF-16 length.
    - [Date.now()], [new Date().toISOString()], [randomUUID()], [uuidv4()],
      [Math.random()] and the modification time of a written file are read
      from a [Host], indexed by a cursor that every read advances.
    - [structuredClone] and the [{ ...x }] copies are the identity: values
      are immutable here, so no two of them alias.  Where the source mutates
      objects shared through an index (the quality pass), the model keeps the
      element array as the state and the index as positions in it. *)

From Stdlib Require Import List String Ascii ZArith QArith Qround Qminmax.
From Stdlib Require Import Lia Bool Arith DecimalString Permutation Sorted.
From Stdlib Require Import OrderedTypeEx.
Import ListNotations.

Set Warnings "-register-all".

Local Open Scope string_scope.
Local Open Scope list_scope.

(* ================================================================== *)
(** * JavaScript values and the built-ins the sources call *)
(* ================================================================== *)

Module JS.

(** A number: an exact rational, or NaN. *)
Inductive jsnum : Type :=
| Fin (q : Q)
| NaN.

(** JSON values; a property that is absent reads as [None] ([undefined]). *)
Inductive value : Type :=
| JNull
| JBool (b : bool)
| JNum (n : jsnum)
| JStr (s : string)
| JArr (items : list value)
| JObj (fields : list (string * value)).

Definition obj : Type := list (string * value).

Definition number (q : Q) : value := JNum (Fin q).
Definition int (z : Z) : value := JNum (Fin (inject_Z z)).

(** ** Objects *)

(** [o.k] *)
Fixpoint get {V : Type} (o : list (string * V)) (k : string) : option V :=
  match o with
  | [] => None
  | (k', v) :: rest => if String.eqb k' k then Some v else get rest k
  end.

(** [o[k] = v]: an existing key keeps its place, a new key goes last. *)
Fixpoint set {V : Type} (k : string) (v : V) (o : list (string * V))
  : list (string * V) :=
  match o with
  | [] => [(k, v)]
  | (k', v') :: rest =>
      if String.eqb k' k then (k, v) :: rest else (k', v') :: set k v rest
  end.

(** [delete o[k]] *)
Fixpoint remove {V : Type} (k : string) (o : list (string * V))
  : list (string * V) :=
  match o with
  | [] => []
  | (k', v') :: rest =>
      if String.eqb k' k then remove k rest else (k', v') :: remove k rest
  end.

(** [{ ...base, ...over }] *)
Definition spread {V : Type} (base over : list (string * V))
  : list (string * V) :=
  fold_left (fun acc kv => set (fst kv) (snd kv) acc) over base.

Definition keys {V : Type} (o : list (string * V)) : list string :=
  map fst o.

Definition has {V : Type} (o : list (string * V)) (k : string) : bool :=
  match get o k with Some _ => true | None => false end.

(** [a[i] = x] for an index within the array. *)
Fixpoint set_nth {A : Type} (i : nat) (x : A) (l : list A) : list A :=
  match l, i with
  | [], _ => []
  | _ :: rest, O => x :: rest
  | y :: rest, S i' => y :: set_nth i' x rest
  end.

(** ** Operators *)

(** [a ?? b] *)
Definition coalesce (a : option value) (b : value) : value :=
  match a with
  | None | Some JNull => b
  | Some v => v
  end.

(** [a ?? b] where [b] may itself be [undefined]. *)
Definition coalesce_opt (a b : option value) : option value :=
  match a with
  | None | Some JNull => b
  | Some v => Some v
  end.

Definition is_zero (n : jsnum) : bool :=
  match n with Fin q => Qeq_bool q 0 | NaN => true end.

(** [Boolean(v)], the truthiness of a value. *)
Definition truthy (v : option value) : bool :=
  match v with
  | None | Some JNull => false
  | Some (JBool b) => b
  | Some (JNum n) => negb (is_zero n)
  | Some (JStr s) => negb (String.eqb s "")
  | Some (JArr _) | Some (JObj _) => true
  end.

(** [typeof v === "string" ? v : null] *)
Definition as_string (v : option value) : option string :=
  match v with Some (JStr s) => Some s | _ => None end.

(** [v && typeof v === "object"]: arrays are objects too, with their indices
    as keys; no source below reads a numeric key. *)
Definition as_object (v : option value) : option obj :=
  match v with
  | Some (JObj o) => Some o
  | Some (JArr _) => Some []
  | _ => None
  end.

(** ** Numbers *)

Definition jsadd (a b : jsnum) : jsnum :=
  match a, b with
  | Fin x, Fin y => Fin (Qred (x + y))
  | _, _ => NaN
  end.

Definition is_digit (c : ascii) : bool :=
  let n := nat_of_ascii c in (48 <=? n)%nat && (n <=? 57)%nat.

(** White space of [\s] and of [trim], within ASCII. *)
Definition is_space (c : ascii) : bool :=
  let n := nat_of_ascii c in
  (n =? 32)%nat || ((9 <=? n)%nat && (n <=? 13)%nat).

Fixpoint ltrim (s : string) : string :=
  match s with
  | String c r => if is_space c then ltrim r else s
  | EmptyString => EmptyString
  end.

Fixpoint rev_string_onto (s acc : string) : string :=
  match s with
  | EmptyString => acc
  | String c r => rev_string_onto r (String c acc)
  end.

Definition trim (s : string) : string :=
  rev_string_onto (ltrim (rev_string_onto (ltrim s) "")) "".

(** The digits of [s] up to its first non-digit, as a number and a count. *)
Fixpoint take_digits (s : string) (acc : Z) (n : nat) : Z * nat * string :=
  match s with
  | String c r =>
      if is_digit c
      then take_digits r (10 * acc + Z.of_nat (nat_of_ascii c - 48))%Z (S n)
      else (acc, n, s)
  | EmptyString => (acc, n, s)
  end.

Definition unsigned_decimal (s : string) : jsnum :=
  let '(ip, ni, rest) := take_digits s 0 0 in
  match rest with
  | EmptyString => if (ni =? 0)%nat then NaN else Fin (inject_Z ip)
  | String "." frac =>
      let '(fp, nf, rest') := take_digits frac 0 0 in
      match rest' with
      | EmptyString =>
          if ((ni + nf) =? 0)%nat then NaN
          else Fin (Qred (inject_Z ip
                          + inject_Z fp / inject_Z (10 ^ Z.of_nat nf)))
      | _ => NaN
      end
  | _ => NaN
  end.

(** [Number(s)] for a string: the empty string is 0, a signed decimal
    literal is its value, everything else is NaN.  Exponents, hexadecimal
    literals and ["Infinity"] are outside the model. *)
Definition string_to_number (s : string) : jsnum :=
  match trim s with
  | EmptyString => Fin 0
  | String "-" r =>
      match unsigned_decimal r with
      | Fin q => Fin (Qred (- q))
      | NaN => NaN
      end
  | String "+" r => unsigned_decimal r
  | t => unsigned_decimal t
  end.

Definition string_of_Z (z : Z) : string :=
  NilZero.string_of_int (Z.to_int z).

(** Up to [fuel] decimal digits of [r / d], for [0 <= r < d]. *)
Fixpoint frac_digits (fuel : nat) (r d : Z) : string :=
  match fuel with
  | O => EmptyString
  | S fuel' =>
      if (r =? 0)%Z then EmptyString
      else String (ascii_of_nat (48 + Z.to_nat ((10 * r) / d)%Z))
                  (frac_digits fuel' ((10 * r) mod d)%Z d)
  end.

(** [String(n)] for a number.  A decimal fraction, which is what every JSON
    literal denotes, is printed exactly up to 20 places; a large magnitude,
    which JavaScript prints with an exponent, is printed in full. *)
Definition number_to_string (n : jsnum) : string :=
  match n with
  | NaN => "NaN"
  | Fin q =>
      let q' := Qred q in
      let a := Z.abs (Qnum q') in
      let d := Z.pos (Qden q') in
      let ip := string_of_Z (a / d)%Z in
      let fp := frac_digits 20 (a mod d)%Z d in
      let body := match fp with
                  | EmptyString => ip
                  | _ => (ip ++ "." ++ fp)%string
                  end in
      if (Qnum q' <? 0)%Z then ("-" ++ body)%string else body
  end.

(** The elements of an array joined with [sep]. *)
Fixpoint join (sep : string) (l : list string) : string :=
  match l with
  | [] => ""
  | [x] => x
  | x :: rest => (x ++ sep ++ join sep rest)%string
  end.

(** [String(v)] *)
Fixpoint to_string (v : value) : string :=
  match v with
  | JNull => "null"
  | JBool true => "true"
  | JBool false => "false"
  | JNum n => number_to_string n
  | JStr s => s
  | JArr items =>
      join "," (map (fun x => match x with
                              | JNull => ""
                              | _ => to_string x
                              end) items)
  | JObj _ => "[object Object]"
  end.

(** [Number(v)] *)
Definition to_number (v : option value) : jsnum :=
  match v with
  | None => NaN
  | Some JNull => Fin 0
  | Some (JBool true) => Fin 1
  | Some (JBool false) => Fin 0
  | Some (JNum n) => n
  | Some (JStr s) => string_to_number s
  | Some (JArr items) => string_to_number (to_string (JArr items))
  | Some (JObj _) => NaN
  end.

(** ** Keys of [Map] and members of [Set] *)

(** SameValueZero.  Two objects are the same key only when they are the same
    reference; the records of a scene are never aliased, so an object or an
    array equals no other key. *)
Definition same_value_zero (a b : option value) : bool :=
  match a, b with
  | None, None => true
  | Some JNull, Some JNull => true
  | Some (JBool x), Some (JBool y) => Bool.eqb x y
  | Some (JNum (Fin x)), Some (JNum (Fin y)) => Qeq_bool x y
  | Some (JNum NaN), Some (JNum NaN) => true
  | Some (JStr x), Some (JStr y) => String.eqb x y
  | _, _ => false
  end.

(** ** Strings *)

(** [s.split(sep)] for a one-character separator. *)
Fixpoint split_on (sep : ascii) (s : string) : list string :=
  match s with
  | EmptyString => [EmptyString]
  | String c r =>
      if Ascii.eqb c sep then EmptyString :: split_on sep r
      else match split_on sep r with
           | h :: t => String c h :: t
           | [] => [String c EmptyString]
           end
  end.

(** [s.split(/\s+/)]: [prev] tells that the character before [s] was white
    space, so that a run of white space separates once. *)
Fixpoint split_spaces (prev : bool) (s : string) : list string :=
  match s with
  | EmptyString => [EmptyString]
  | String c r =>
      if is_space c
      then (if prev then split_spaces true r
            else EmptyString :: split_spaces true r)
      else match split_spaces false r with
           | h :: t => String c h :: t
           | [] => [String c EmptyString]
           end
  end.

(** [s.replace(/\r\n/g, "\n")] *)
Fixpoint replace_crlf (s : string) : string :=
  match s with
  | String "013" (String "010" r) => String "010" (replace_crlf r)
  | String c r => String c (replace_crlf r)
  | EmptyString => EmptyString
  end.

(** [s.startsWith(p)] *)
Fixpoint starts_with (p s : string) : bool :=
  match p, s with
  | EmptyString, _ => true
  | String a p', String b s' => Ascii.eqb a b && starts_with p' s'
  | String _ _, EmptyString => false
  end.



Definition nonempty (s : string) : bool := negb (String.eqb s "").

Definition bytes_of (s : string) : list Z :=
  map (fun c => Z.of_nat (nat_of_ascii c)) (list_ascii_of_string s).

(** ** JSON.stringify *)

Definition hex_digit (n : Z) : ascii :=
  ascii_of_nat (Z.to_nat (if (n <? 10)%Z then 48 + n else 87 + n)%Z).

Definition dquote : ascii := "034"%char.

Definition escape_char (c : ascii) : string :=
  let n := Z.of_nat (nat_of_ascii c) in
  if (n =? 34)%Z then String "\" (String dquote "")
  else if (n =? 92)%Z then "\\"
  else if (n =? 8)%Z then "\b"
  else if (n =? 9)%Z then "\t"
  else if (n =? 10)%Z then "\n"
  else if (n =? 12)%Z then "\f"
  else if (n =? 13)%Z then "\r"
  else if (n <? 32)%Z
       then ("\u00" ++ String (hex_digit (n / 16)%Z)
                         (String (hex_digit (n mod 16)%Z) ""))%string
  else String c "".

Fixpoint escape (s : string) : string :=
  match s with
  | EmptyString => EmptyString
  | String c r => (escape_char c ++ escape r)%string
  end.

Definition quote (s : string) : string :=
  (String dquote (escape s) ++ String dquote "")%string.

(** [JSON.stringify(v)] without indentation.  A NaN is written [null]. *)
Fixpoint stringify (v : value) : string :=
  match v with
  | JNull => "null"
  | JBool true => "true"
  | JBool false => "false"
  | JNum NaN => "null"
  | JNum n => number_to_string n
  | JStr s => quote s
  | JArr items => ("[" ++ join "," (map stringify items) ++ "]")%string
  | JObj fields =>
      ("{" ++ join "," (map (fun kv => (quote (fst kv) ++ ":"
                                        ++ stringify (snd kv))%string) fields)
           ++ "}")%string
  end.

(** ** Array.prototype.sort *)

(** The sort is stable: of two elements the comparator does not order, the
    one that came first stays first.  For a comparator that is a consistent
    order this fixes the result, whatever algorithm the engine runs. *)
Fixpoint insert_with {A : Type} (cmp : A -> A -> comparison) (x : A)
    (l : list A) : list A :=
  match l with
  | [] => [x]
  | y :: rest =>
      match cmp x y with
      | Gt => y :: insert_with cmp x rest
      | _ => x :: y :: rest
      end
  end.

Definition sort_with {A : Type} (cmp : A -> A -> comparison) (l : list A)
  : list A :=
  fold_right (insert_with cmp) [] l.

(** The default comparator: by [String(x)], in code-unit order. *)
Definition default_compare (a b : value) : comparison :=
  String.compare (to_string a) (to_string b).


(** [Number(o.k ?? dflt)] *)
Definition number_or (o : obj) (k : string) (dflt : value) : value :=
  JNum (to_number (Some (coalesce (get o k) dflt))).

(** [Array.isArray(v)] *)
Definition is_array (v : option value) : bool :=
  match v with Some (JArr _) => true | _ => false end.

End JS.

(* ================================================================== *)
(** * SHA-256 (FIPS 180-4) over 32-bit words held in [Z] *)
(* ================================================================== *)

Module Sha256.

Local Open Scope Z_scope.

Definition w32 (x : Z) : Z := Z.land x 0xffffffff.

Definition add32 (x y : Z) : Z := w32 (x + y).

Definition rotr (n x : Z) : Z :=
  Z.lor (Z.shiftr x n) (w32 (Z.shiftl x (32 - n))).

Definition not32 (x : Z) : Z := Z.lxor x 0xffffffff.

Definition Ch (x y z : Z) : Z :=
  Z.lxor (Z.land x y) (Z.land (not32 x) z).

Definition Maj (x y z : Z) : Z :=
  Z.lxor (Z.lxor (Z.land x y) (Z.land x z)) (Z.land y z).

Definition Sigma0 (x : Z) : Z :=
  Z.lxor (Z.lxor (rotr 2 x) (rotr 13 x)) (rotr 22 x).

Definition Sigma1 (x : Z) : Z :=
  Z.lxor (Z.lxor (rotr 6 x) (rotr 11 x)) (rotr 25 x).

Definition sigma0 (x : Z) : Z :=
  Z.lxor (Z.lxor (rotr 7 x) (rotr 18 x)) (Z.shiftr x 3).

Definition sigma1 (x : Z) : Z :=
  Z.lxor (Z.lxor (rotr 17 x) (rotr 19 x)) (Z.shiftr x 10).

(** The round constants: the first 32 bits of the fractional parts of the
    cube roots of the first 64 primes. *)
Definition K : list Z :=
  [
    1116352408; 1899447441; 3049323471; 3921009573; 961987163; 1508970993;
    2453635748; 2870763221; 3624381080; 310598401; 607225278; 1426881987;
    1925078388; 2162078206; 2614888103; 3248222580; 3835390401; 4022224774;
    264347078; 604807628; 770255983; 1249150122; 1555081692; 1996064986;
    2554220882; 2821834349; 2952996808; 3210313671; 3336571891; 3584528711;
    113926993; 338241895; 666307205; 773529912; 1294757372; 1396182291;
    1695183700; 1986661051; 2177026350; 2456956037; 2730485921; 2820302411;
    3259730800; 3345764771; 3516065817; 3600352804; 4094571909; 275423344;
    430227734; 506948616; 659060556; 883997877; 958139571; 1322822218;
    1537002063; 1747873779; 1955562222; 2024104815; 2227730452; 2361852424;
    2428436474; 2756734187; 3204031479; 3329325298
  ].

(** The message followed by the bit 1, zeros, and its bit length on 64
    bits, a multiple of 64 bytes in all. *)
Definition pad (msg : list Z) : list Z :=
  let len := Z.of_nat (List.length msg) in
  let zeros := Z.to_nat ((55 - len) mod 64) in
  let bits := 8 * len in
  msg ++ [0x80] ++ repeat 0 zeros
      ++ map (fun i => Z.land (Z.shiftr bits (8 * (7 - Z.of_nat i))) 0xff)
             (seq 0 8).

(** Big-endian words of a byte list. *)
Fixpoint words (bytes : list Z) : list Z :=
  match bytes with
  | a :: b :: c :: d :: rest =>
      (Z.shiftl a 24 + Z.shiftl b 16 + Z.shiftl c 8 + d) :: words rest
  | _ => []
  end.

(** [n] further words of the message schedule; [win] holds the last sixteen,
    oldest first. *)
Fixpoint schedule (n : nat) (win : list Z) : list Z :=
  match n with
  | O => []
  | S n' =>
      let wt := add32 (add32 (sigma1 (nth 14 win 0)) (nth 9 win 0))
                      (add32 (sigma0 (nth 1 win 0)) (nth 0 win 0)) in
      wt :: schedule n' (tl win ++ [wt])
  end.

Record regs : Type := Regs { ra : Z; rb : Z; rc : Z; rd : Z;
                              re : Z; rf : Z; rg : Z; rh : Z }.

Definition round (r : regs) (kw : Z * Z) : regs :=
  let t1 := add32 (add32 (add32 (rh r) (Sigma1 (re r)))
                         (add32 (Ch (re r) (rf r) (rg r)) (fst kw)))
                  (snd kw) in
  let t2 := add32 (Sigma0 (ra r)) (Maj (ra r) (rb r) (rc r)) in
  Regs (add32 t1 t2) (ra r) (rb r) (rc r) (add32 (rd r) t1)
       (re r) (rf r) (rg r).

Definition compress (h : regs) (block : list Z) : regs :=
  let w := block ++ schedule 48 block in
  let r := fold_left round (combine K w) h in
  Regs (add32 (ra h) (ra r)) (add32 (rb h) (rb r)) (add32 (rc h) (rc r))
       (add32 (rd h) (rd r)) (add32 (re h) (re r)) (add32 (rf h) (rf r))
       (add32 (rg h) (rg r)) (add32 (rh h) (rh r)).

(** The blocks of sixteen words of a word list. *)
Fixpoint blocks (fuel : nat) (ws : list Z) : list (list Z) :=
  match fuel, ws with
  | S fuel', _ :: _ => firstn 16 ws :: blocks fuel' (skipn 16 ws)
  | _, _ => []
  end.

Definition digest (msg : list Z) : regs :=
  let ws := words (pad msg) in
  fold_left compress (blocks (List.length ws) ws)
            (Regs 1779033703 3144134277 1013904242 2773480762
                  1359893119 2600822924 528734635 1541459225).

Definition hex32 (x : Z) : string :=
  string_of_list_ascii
    (map (fun i => JS.hex_digit (Z.land (Z.shiftr x (4 * (7 - Z.of_nat i))) 0xf))
         (seq 0 8)).

(** [createHash("sha256").update(msg).digest("hex")] *)
Definition hex (msg : list Z) : string :=
  let r := digest msg in
  String.concat ""
    (map hex32 [ra r; rb r; rc r; rd r; re r; rf r; rg r; rh r]).

(** [update] of a string hashes its bytes. *)
Definition hex_of_string (s : string) : string := hex (JS.bytes_of s).

End Sha256.

(* ================================================================== *)
(** * [Buffer.from(s, "base64")] *)
(* ================================================================== *)

Module Base64.

Local Open Scope Z_scope.

(** The value of a character of the standard or of the URL-safe alphabet. *)
Definition sextet (c : ascii) : option Z :=
  let n := Z.of_nat (nat_of_ascii c) in
  if (65 <=? n) && (n <=? 90) then Some (n - 65)
  else if (97 <=? n) && (n <=? 122) then Some (n - 71)
  else if (48 <=? n) && (n <=? 57) then Some (n + 4)
  else if (n =? 43) || (n =? 45) then Some 62
  else if (n =? 47) || (n =? 95) then Some 63
  else None.

(** The sextets of the text up to its first [=]; other characters that
    are not of the alphabet are passed over. *)
Fixpoint sextets (s : string) : list Z :=
  match s with
  | EmptyString => []
  | String c r =>
      if Ascii.eqb c "=" then []
      else match sextet c with
           | Some v => v :: sextets r
           | None => sextets r
           end
  end.

Fixpoint bytes (l : list Z) : list Z :=
  match l with
  | a :: b :: c :: d :: rest =>
      let n := Z.shiftl a 18 + Z.shiftl b 12 + Z.shiftl c 6 + d in
      Z.shiftr n 16 :: Z.land (Z.shiftr n 8) 0xff :: Z.land n 0xff
        :: bytes rest
  | [a; b; c] =>
      let n := Z.shiftl a 18 + Z.shiftl b 12 + Z.shiftl c 6 in
      [Z.shiftr n 16; Z.land (Z.shiftr n 8) 0xff]
  | [a; b] => [Z.shiftr (Z.shiftl a 18 + Z.shiftl b 12) 16]
  | _ => []
  end.

Definition decode (s : string) : list Z := bytes (sextets s).

End Base64.


Import JS.

(* ================================================================== *)
(** * The host: clock, random sources, thrown errors *)
(* ================================================================== *)

(** What the run-time environment answers at each read.  A computation
    carries a cursor; the [n]-th read gets the answer at [n]. *)
Record Host : Type := {
  randomUUID : nat -> string;   (* [randomUUID()], [uuidv4()] *)
  mathRandom : nat -> Q;        (* [Math.random()], in [0, 1) *)
  dateNow : nat -> Z;           (* [Date.now()] *)
  isoNow : nat -> string;       (* [new Date().toISOString()] *)
  fileMtime : nat -> Z          (* [mtimeMs] of a file just written *)
}.

(** A computation that reads the host. *)
Definition Eff (A : Type) : Type := nat -> A * nat.

Definition ret {A : Type} (a : A) : Eff A := fun t => (a, t).

Definition bind {A B : Type} (m : Eff A) (k : A -> Eff B) : Eff B :=
  fun t => let (a, t') := m t in k a t'.

Declare Scope eff_scope.
Delimit Scope eff_scope with eff.
Notation "x <- m ;; k" := (bind m (fun x => k))
  (at level 61, m at next level, right associativity) : eff_scope.
Local Open Scope eff_scope.

Definition read {A : Type} (f : nat -> A) : Eff A := fun t => (f t, S t).

(** [l.map(f)] for an [f] that reads the host, left to right. *)
Fixpoint mapM {A B : Type} (f : A -> Eff B) (l : list A) : Eff (list B) :=
  match l with
  | [] => ret []
  | x :: rest => y <- f x ;; ys <- mapM f rest ;; ret (y :: ys)
  end.

(** [src/utils/errors.ts] *)
Inductive ErrorCode : Type :=
| BAD_REQUEST | NOT_FOUND | CONFLICT | LOCKED | DEGRADED_MODE | INTERNAL.

Record AppError : Type := {
  code : ErrorCode;
  message : string;
  status : Z
}.

(** The result of a call that may throw. *)
Inductive outcome (A : Type) : Type :=
| Ok (a : A)
| Throw (e : AppError).

Arguments Ok {A} a.
Arguments Throw {A} e.

(* ================================================================== *)
(** * Scene documents ([src/types/contracts.ts]) *)
(* ================================================================== *)

Record EngineHints : Type := {
  hasFrames : bool;
  hasEmbeddables : bool;
  hasImages : bool
}.

Record SceneMetadata : Type := {
  sceneId : string;
  name : string;
  createdAt : string;
  updatedAt : string;
  elementCount : nat;
  fileCount : nat;
  engineHints : EngineHints;
  revisionHash : string
}.

Record SceneEnvelope : Type := {
  metadata : SceneMetadata;
  elements : list obj;
  appState : obj;
  files : obj;
  libraryItems : list obj
}.

Inductive ScenePatchOperation : Type :=
| SetName (name : string)
| AddElements (elements : list obj)
| UpdateElements (elements : list (string * obj))
| DeleteElements (elementIds : list string) (hardDelete : option bool)
| SetAppState (appState : obj) (merge : option bool)
| SetLibrary (libraryItems : list obj) (merge : option bool)
| SetFiles (files : obj) (merge : option bool).

Definition with_name (m : SceneMetadata) (n : string) : SceneMetadata :=
  {| sceneId := sceneId m; name := n; createdAt := createdAt m;
     updatedAt := updatedAt m; elementCount := elementCount m;
     fileCount := fileCount m; engineHints := engineHints m;
     revisionHash := revisionHash m |}.

Definition with_updatedAt (m : SceneMetadata) (u : string) : SceneMetadata :=
  {| sceneId := sceneId m; name := name m; createdAt := createdAt m;
     updatedAt := u; elementCount := elementCount m;
     fileCount := fileCount m; engineHints := engineHints m;
     revisionHash := revisionHash m |}.

Definition with_revisionHash (m : SceneMetadata) (r : string)
  : SceneMetadata :=
  {| sceneId := sceneId m; name := name m; createdAt := createdAt m;
     updatedAt := updatedAt m; elementCount := elementCount m;
     fileCount := fileCount m; engineHints := engineHints m;
     revisionHash := r |}.

Definition with_metadata (s : SceneEnvelope) (m : SceneMetadata)
  : SceneEnvelope :=
  {| metadata := m; elements := elements s; appState := appState s;
     files := files s; libraryItems := libraryItems s |}.

Definition with_elements (s : SceneEnvelope) (els : list obj)
  : SceneEnvelope :=
  {| metadata := metadata s; elements := els; appState := appState s;
     files := files s; libraryItems := libraryItems s |}.

Definition with_appState (s : SceneEnvelope) (a : obj) : SceneEnvelope :=
  {| metadata := metadata s; elements := elements s; appState := a;
     files := files s; libraryItems := libraryItems s |}.

Definition with_files (s : SceneEnvelope) (f : obj) : SceneEnvelope :=
  {| metadata := metadata s; elements := elements s; appState := appState s;
     files := f; libraryItems := libraryItems s |}.

Definition with_libraryItems (s : SceneEnvelope) (l : list obj)
  : SceneEnvelope :=
  {| metadata := metadata s; elements := elements s; appState := appState s;
     files := files s; libraryItems := l |}.

(* ================================================================== *)
(** * The normalizer ([src/domain/validators.ts]) *)
(* ================================================================== *)

Module Validators.

Section WithHost.
Variable host : Host.

Definition ensureObject (v : value) : obj :=
  match v with
  | JObj o => o
  | _ => []
  end.

Definition ensureArray (v : value) : list value :=
  match v with
  | JArr l => l
  | _ => []
  end.

(** [Math.floor(Math.random() * scale)] *)
Definition randomBelow (scale : Z) : Eff value :=
  r <- read (mathRandom host) ;;
  ret (int (Qfloor (r * inject_Z scale))).

(** The defaults come first in the literal and [...next] last, so a key that
    [next] has keeps the value [next] gives it. *)
Definition normalizeElement (element : value) : Eff obj :=
  let next := ensureObject element in
  id <- match get next "id" with
        | Some (JStr s) =>
            if (0 <? String.length s)%nat then ret (JStr s)
            else (u <- read (randomUUID host) ;; ret (JStr u))
        | _ => u <- read (randomUUID host) ;; ret (JStr u)
        end ;;
  nonce <- match coalesce_opt (get next "versionNonce") None with
           | Some v => ret v
           | None => randomBelow 1000000000
           end ;;
  ret (spread
         [ ("id", id);
           ("type", match get next "type" with
                    | Some (JStr s) => JStr s
                    | _ => JStr "rectangle"
                    end);
           ("x", number_or next "x" (int 0));
           ("y", number_or next "y" (int 0));
           ("width", number_or next "width" (int 100));
           ("height", number_or next "height" (int 100));
           ("angle", number_or next "angle" (int 0));
           ("isDeleted", JBool (truthy (get next "isDeleted")));
           ("version", number_or next "version" (int 1));
           ("versionNonce", JNum (to_number (Some nonce))) ]
         next).

Definition type_is (element : obj) (t : string) : bool :=
  match get element "type" with
  | Some (JStr s) => String.eqb s t
  | _ => false
  end.

Definition detectEngineHints (els : list obj) : EngineHints :=
  {| hasFrames :=
       existsb (fun e => type_is e "frame" || type_is e "magicframe") els;
     hasEmbeddables := existsb (fun e => type_is e "embeddable") els;
     hasImages := existsb (fun e => type_is e "image") els |}.

(** [createHash("sha256").update(JSON.stringify({ elements, appState,
    files, libraryItems })).digest("hex")] *)
Definition computeRevisionHash (els : list obj) (appSt fls : obj)
    (lib : list obj) : string :=
  Sha256.hex_of_string
    (stringify (JObj [ ("elements", JArr (map JObj els));
                       ("appState", JObj appSt);
                       ("files", JObj fls);
                       ("libraryItems", JArr (map JObj lib)) ])).

Definition normalizeElements (els : list value) : Eff (list obj) :=
  mapM normalizeElement (ensureArray (JArr els)).

Definition normalizeScene (scene : SceneEnvelope) : Eff SceneEnvelope :=
  els <- mapM normalizeElement
              (ensureArray (JArr (map JObj (elements scene)))) ;;
  let appSt := ensureObject (JObj (appState scene)) in
  let fls := ensureObject (JObj (files scene)) in
  let lib := map (fun item => ensureObject item)
                 (ensureArray (JArr (map JObj (libraryItems scene)))) in
  now <- read (isoNow host) ;;
  ret {| metadata :=
           {| sceneId := sceneId (metadata scene);
              name := name (metadata scene);
              createdAt := createdAt (metadata scene);
              updatedAt := now;
              elementCount := List.length els;
              fileCount := List.length (keys fls);
              engineHints := detectEngineHints els;
              revisionHash := computeRevisionHash els appSt fls lib |};
         elements := els;
         appState := appSt;
         files := fls;
         libraryItems := lib |}.

End WithHost.

End Validators.

(* ================================================================== *)
(** * The patch engine ([src/engines/jsonEngine.ts]) *)
(* ================================================================== *)

Module JsonEngine.

(** A [Map] keyed by whatever [element.id] holds, [undefined] included. *)
Definition idmap : Type := list (option value * obj).

Fixpoint map_get (m : idmap) (k : option value) : option obj :=
  match m with
  | [] => None
  | (k', v) :: rest =>
      if same_value_zero k' k then Some v else map_get rest k
  end.

Fixpoint map_set (k : option value) (v : obj) (m : idmap) : idmap :=
  match m with
  | [] => [(k, v)]
  | (k', v') :: rest =>
      if same_value_zero k' k then (k', v) :: rest
      else (k', v') :: map_set k v rest
  end.

Definition map_values (m : idmap) : list obj := map snd m.

(** [Set.prototype.add] *)
Definition set_add (v : value) (s : list value) : list value :=
  if existsb (fun x => same_value_zero (Some x) (Some v)) s then s
  else s ++ [v].

(** [new Set(ids).has(v)] *)
Definition ids_has (ids : list string) (v : option value) : bool :=
  existsb (fun s => same_value_zero (Some (JStr s)) v) ids.

Definition mapById (els : list obj) : idmap :=
  fold_left (fun m element => map_set (get element "id") element m) els [].

Definition keyFor (item : obj) : string :=
  to_string (coalesce (coalesce_opt (get item "id") (get item "name"))
                      (JStr (stringify (JObj item)))).

Definition mergeLibraryItems (existing incoming : list obj) : list obj :=
  let merged :=
    fold_left (fun m item => set (keyFor item) item m) existing [] in
  let merged :=
    fold_left (fun m item => set (keyFor item) item m) incoming merged in
  map snd merged.

Record PatchResult : Type := {
  scene : SceneEnvelope;
  changedElementIds : list value
}.

(** The working copy and the ids touched so far. *)
Record PatchState : Type := {
  next : SceneEnvelope;
  changed : list value
}.

Section WithHost.
Variable host : Host.

Definition normalize (s : SceneEnvelope) : Eff SceneEnvelope :=
  Validators.normalizeScene host s.

Definition fromSkeleton (skeleton : obj) : Eff obj :=
  id <- match get skeleton "id" with
        | Some (JStr s) => ret (JStr s)
        | _ => u <- read (randomUUID host) ;; ret (JStr u)
        end ;;
  seed <- match coalesce_opt (get skeleton "seed") None with
          | Some v => ret v
          | None => Validators.randomBelow host 1000000
          end ;;
  nonce <- match coalesce_opt (get skeleton "versionNonce") None with
           | Some v => ret v
           | None => Validators.randomBelow host 1000000000
           end ;;
  updated <- match coalesce_opt (get skeleton "updated") None with
             | Some v => ret v
             | None => now <- read (dateNow host) ;; ret (int now)
             end ;;
  ret (spread
         [ ("id", id);
           ("type", match get skeleton "type" with
                    | Some (JStr s) => JStr s
                    | _ => JStr "rectangle"
                    end);
           ("x", number_or skeleton "x" (int 0));
           ("y", number_or skeleton "y" (int 0));
           ("width", number_or skeleton "width" (int 120));
           ("height", number_or skeleton "height" (int 80));
           ("angle", number_or skeleton "angle" (int 0));
           ("strokeColor",
             coalesce (get skeleton "strokeColor") (JStr "#1e1e1e"));
           ("backgroundColor",
             coalesce (get skeleton "backgroundColor") (JStr "transparent"));
           ("fillStyle", coalesce (get skeleton "fillStyle") (JStr "hachure"));
           ("strokeWidth", number_or skeleton "strokeWidth" (int 1));
           ("strokeStyle", coalesce (get skeleton "strokeStyle") (JStr "solid"));
           ("roughness", number_or skeleton "roughness" (int 1));
           ("opacity", number_or skeleton "opacity" (int 100));
           ("groupIds", match get skeleton "groupIds" with
                        | Some (JArr l) => JArr l
                        | _ => JArr []
                        end);
           ("frameId", coalesce (get skeleton "frameId") JNull);
           ("roundness", coalesce (get skeleton "roundness") JNull);
           ("seed", JNum (to_number (Some seed)));
           ("version", number_or skeleton "version" (int 1));
           ("versionNonce", JNum (to_number (Some nonce)));
           ("isDeleted", JBool (truthy (get skeleton "isDeleted")));
           ("boundElements", match get skeleton "boundElements" with
                             | Some (JArr l) => JArr l
                             | _ => JNull
                             end);
           ("updated", JNum (to_number (Some updated)));
           ("link", coalesce (get skeleton "link") JNull);
           ("locked", JBool (truthy (get skeleton "locked"))) ]
         skeleton).

Definition createElementsFromSkeleton (skeletons : list obj)
  : Eff (list obj) :=
  mapM fromSkeleton skeletons.

Definition notFound (id : string) : AppError :=
  {| code := NOT_FOUND;
     message := ("Element not found: " ++ id)%string;
     status := 404 |}.

(** [Number(element.version ?? 1) + 1] *)
Definition bumped (element : obj) : value :=
  JNum (jsadd (to_number (Some (coalesce (get element "version") (int 1))))
              (Fin 1)).

(** The loop of the [updateElements] case: the first update whose id the
    index lacks throws. *)
Fixpoint updateAll (updates : list (string * obj)) (currentById : idmap)
    (chg : list value) : Eff (outcome (idmap * list value)) :=
  match updates with
  | [] => ret (Ok (currentById, chg))
  | (id, patch) :: rest =>
      match map_get currentById (Some (JStr id)) with
      | None => ret (Throw (notFound id))
      | Some existing =>
          now <- read (dateNow host) ;;
          updateAll rest
            (map_set (Some (JStr id))
               (set "updated" (int now)
                  (set "version" (bumped existing) (spread existing patch)))
               currentById)
            (set_add (JStr id) chg)
      end
  end.

(** The [map] and [filter(Boolean)] of the [deleteElements] case. *)
Fixpoint deleteAll (ids : list string) (hard : bool) (els : list obj)
    (chg : list value) : Eff (list obj * list value) :=
  match els with
  | [] => ret ([], chg)
  | element :: rest =>
      if negb (ids_has ids (get element "id"))
      then r <- deleteAll ids hard rest chg ;; ret (element :: fst r, snd r)
      else
        let chg' := match get element "id" with
                    | Some v => set_add v chg
                    | None => chg
                    end in
        if hard then deleteAll ids hard rest chg'
        else
          now <- read (dateNow host) ;;
          r <- deleteAll ids hard rest chg' ;;
          ret (set "updated" (int now)
                 (set "version" (bumped element)
                    (set "isDeleted" (JBool true) element)) :: fst r,
               snd r)
  end.

Definition flag (b : option bool) : bool :=
  match b with Some true => true | _ => false end.

(** One turn of the loop over the operations. *)
Definition applyOperation (st : PatchState) (operation : ScenePatchOperation)
  : Eff (outcome PatchState) :=
  match operation with
  | SetName n =>
      ret (Ok {| next := with_metadata (next st)
                           (with_name (metadata (next st)) n);
                 changed := changed st |})
  | AddElements skeletons =>
      let current := elements (next st) in
      created <- createElementsFromSkeleton skeletons ;;
      normalized <- Validators.normalizeElements host
                      (map JObj (current ++ created)) ;;
      ret (Ok {| next := with_elements (next st) normalized;
                 changed :=
                   fold_left
                     (fun chg element =>
                        match get element "id" with
                        | Some v =>
                            if truthy (Some v) then set_add v chg else chg
                        | None => chg
                        end)
                     created (changed st) |})
  | UpdateElements updates =>
      r <- updateAll updates (mapById (elements (next st))) (changed st) ;;
      match r with
      | Throw e => ret (Throw e)
      | Ok (currentById, chg) =>
          normalized <- Validators.normalizeElements host
                          (map JObj (map_values currentById)) ;;
          ret (Ok {| next := with_elements (next st) normalized;
                     changed := chg |})
      end
  | DeleteElements ids hardDelete =>
      r <- deleteAll ids (flag hardDelete) (elements (next st))
             (changed st) ;;
      ret (Ok {| next := with_elements (next st) (fst r);
                 changed := snd r |})
  | SetAppState appSt merge =>
      ret (Ok {| next := with_appState (next st)
                           (if flag merge
                            then spread (appState (next st)) appSt
                            else appSt);
                 changed := changed st |})
  | SetLibrary items merge =>
      ret (Ok {| next := with_libraryItems (next st)
                           (if flag merge
                            then mergeLibraryItems
                                   (libraryItems (next st)) items
                            else items);
                 changed := changed st |})
  | SetFiles fls merge =>
      ret (Ok {| next := with_files (next st)
                           (if flag merge
                            then spread (files (next st)) fls
                            else fls);
                 changed := changed st |})
  end.

(** The loop over the operations: a throw ends it. *)
Fixpoint applyOperations (st : PatchState)
    (operations : list ScenePatchOperation) : Eff (outcome PatchState) :=
  match operations with
  | [] => ret (Ok st)
  | operation :: rest =>
      r <- applyOperation st operation ;;
      match r with
      | Throw e => ret (Throw e)
      | Ok st' => applyOperations st' rest
      end
  end.

Definition applyPatch (sc : SceneEnvelope)
    (operations : list ScenePatchOperation) : Eff (outcome PatchResult) :=
  r <- applyOperations {| next := sc; changed := [] |} operations ;;
  match r with
  | Throw e => ret (Throw e)
  | Ok st =>
      normalized <- normalize (next st) ;;
      let normalized :=
        with_metadata normalized
          (with_revisionHash (metadata normalized)
             (Validators.computeRevisionHash (elements normalized)
                (appState normalized) (files normalized)
                (libraryItems normalized))) in
      ret (Ok {| scene := normalized;
                 changedElementIds :=
                   sort_with default_compare (changed st) |})
  end.

End WithHost.

End JsonEngine.

(* ================================================================== *)
(** * The diagram-quality pass ([src/domain/diagramQuality.ts]) *)
(* ================================================================== *)

Module DiagramQuality.

Inductive QualitySeverity : Type := error | warning.

Inductive IssueCode : Type := CONNECTOR_UNBOUND | TEXT_OVERFLOW.

Record DiagramQualityIssue : Type := {
  code : IssueCode;
  severity : QualitySeverity;
  message : string;
  elementId : string;
  details : obj
}.

Record DiagramQualityResult : Type := {
  scene : SceneEnvelope;
  issues : list DiagramQualityIssue;
  fixesApplied : nat
}.

Record Point : Type := { px : Q; py : Q }.

Record Bounds : Type := {
  x1 : Q; y1 : Q; x2 : Q; y2 : Q; cx : Q; cy : Q
}.

Definition is_connector (type : string) : bool :=
  String.eqb type "arrow" || String.eqb type "line".

Definition OVERFLOW_CHAR_FACTOR : Q := 58 # 100.
Definition DEFAULT_FONT_SIZE : Q := 20.
Definition DEFAULT_LINE_HEIGHT : Q := 125 # 100.
Definition CONTAINER_PADDING : Q := 16.

Definition nl : string := String "010" "".

Definition num (v : option value) (fallback : Q) : Q :=
  match to_number v with
  | Fin n => n
  | NaN => fallback
  end.

Definition boundsFor (element : obj) : Bounds :=
  let x := num (get element "x") 0 in
  let y := num (get element "y") 0 in
  let width := Qmax 0 (num (get element "width") 0) in
  let height := Qmax 0 (num (get element "height") 0) in
  let x1 := Qmin x (x + width) in
  let y1 := Qmin y (y + height) in
  let x2 := Qmax x (x + width) in
  let y2 := Qmax y (y + height) in
  {| x1 := x1; y1 := y1; x2 := x2; y2 := y2;
     cx := (x1 + x2) / 2; cy := (y1 + y2) / 2 |}.

Definition pointInsideBounds (point : Point) (bounds : Bounds)
    (tolerance : Q) : bool :=
  Qle_bool (x1 bounds - tolerance) (px point)
  && Qle_bool (px point) (x2 bounds + tolerance)
  && Qle_bool (y1 bounds - tolerance) (py point)
  && Qle_bool (py point) (y2 bounds + tolerance).

(** The distance of the point to the centre of the box, squared: the source
    takes the square root and only ever compares two distances, which
    orders them as their squares. *)
Definition pointDistance (point : Point) (bounds : Bounds) : Q :=
  let dx := px point - cx bounds in
  let dy := py point - cy bounds in
  dx * dx + dy * dy.

(** [a[i]] of an array value *)
Definition item (v : value) (i : nat) : option value :=
  match v with
  | JArr l => nth_error l i
  | _ => None
  end.

Definition connectorEndpoints (connector : obj) : Point * Point :=
  let x := num (get connector "x") 0 in
  let y := num (get connector "y") 0 in
  match get connector "points" with
  | Some (JArr (p0 :: ps)) =>
      let points := p0 :: ps in
      let first := match p0 with
                   | JArr _ => p0
                   | _ => JArr [int 0; int 0]
                   end in
      let last := match List.last points JNull with
                  | JArr l => JArr l
                  | _ => first
                  end in
      ({| px := x + num (item first 0) 0; py := y + num (item first 1) 0 |},
       {| px := x + num (item last 0) 0; py := y + num (item last 1) 0 |})
  | _ =>
      ({| px := x; py := y |},
       {| px := x + num (get connector "width") 0;
          py := y + num (get connector "height") 0 |})
  end.

(** [String(element.id ?? "")] *)
Definition idOf (element : obj) : string :=
  to_string (coalesce (get element "id") (JStr "")).

(** [String(element.type ?? "")] *)
Definition typeOf (element : obj) : string :=
  to_string (coalesce (get element "type") (JStr "")).

(** One turn of the loop of [inferBindingTargetId]. *)
Definition inferStep (point : Point) (excludeId : string)
    (best : option (string * Q)) (element : obj) : option (string * Q) :=
  let id := idOf element in
  if negb (nonempty id) || String.eqb id excludeId then best
  else if is_connector (typeOf element) then best
  else if truthy (get element "isDeleted") then best
  else
    let bounds := boundsFor element in
    if negb (pointInsideBounds point bounds 12) then best
    else
      let distance := pointDistance point bounds in
      match best with
      | None => Some (id, distance)
      | Some (_, d) =>
          if negb (Qle_bool d distance) then Some (id, distance) else best
      end.

Definition inferBindingTargetId (point : Point) (candidates : list obj)
    (excludeId : string) : option string :=
  option_map fst (fold_left (inferStep point excludeId) candidates None).

(** [ensureBoundElementsRef], as the new value of [target]. *)
Definition ensureBoundElementsRef (target : obj) (connectorId : string)
    (connectorType : string) : obj :=
  let existing := match get target "boundElements" with
                  | Some (JArr l) => l
                  | _ => []
                  end in
  let found :=
    existsb (fun entry =>
               match as_object (Some entry) with
               | Some o =>
                   String.eqb (to_string (coalesce (get o "id") (JStr "")))
                              connectorId
               | None => false
               end) existing in
  if found then target
  else set "boundElements"
         (JArr (existing ++ [JObj [ ("id", JStr connectorId);
                                    ("type", JStr connectorType) ]]))
         target.

Definition binding (targetId : string) : value :=
  JObj [ ("elementId", JStr targetId); ("focus", int 0); ("gap", int 0) ].

(** [setBinding], as the new value of [connector]. *)
Definition setBinding (connector : obj) (side : string) (targetId : string)
  : obj :=
  set side (binding targetId) connector.

Definition extractBindingId (v : option value) : option string :=
  match as_object v with
  | Some o =>
      match get o "elementId" with
      | Some (JStr s) => if (0 <? String.length s)%nat then Some s else None
      | _ => None
      end
  | None => None
  end.

(** The loop of [wrapText] over the words after the first. *)
Fixpoint pack (maxCharsPerLine : Q) (current : string) (words : list string)
  : list string :=
  match words with
  | [] => [current]
  | nextWord :: rest =>
      let candidate := (current ++ " " ++ nextWord)%string in
      if Qle_bool (inject_Z (Z.of_nat (String.length candidate)))
                  maxCharsPerLine
      then pack maxCharsPerLine candidate rest
      else current :: pack maxCharsPerLine nextWord rest
  end.

Definition wrapParagraph (maxCharsPerLine : Q) (paragraph : string)
  : string :=
  match filter nonempty (split_spaces false paragraph) with
  | [] => ""
  | first :: rest => join nl (pack maxCharsPerLine first rest)
  end.

Definition wrapText (text : string) (maxCharsPerLine : Q) : string :=
  join nl (map (wrapParagraph maxCharsPerLine)
               (split_on "010" (replace_crlf text))).

Definition estimateTextWidth (text : string) (fontSize : Q) : Q :=
  let lines := split_on "010" text in
  let maxLine :=
    fold_left (fun m line => Nat.max m (String.length line)) lines O in
  inject_Z (Z.of_nat maxLine) * fontSize * OVERFLOW_CHAR_FACTOR.

(** The element array under repair, the issues and the count of fixes. *)
Record State : Type := {
  els : list obj;
  found : list DiagramQualityIssue;
  fixes : nat
}.

(** [idToElement]: the objects of the array are shared with the index, so
    the index holds positions.  A later element with the same id replaces
    an earlier one. *)
Fixpoint indexFrom (i : nat) (l : list obj) (m : list (string * nat))
  : list (string * nat) :=
  match l with
  | [] => m
  | element :: rest =>
      indexFrom (S i) rest
        (if nonempty (idOf element) then set (idOf element) i m else m)
  end.

(** [id && idToElement.has(id)] *)
Definition known (idToElement : list (string * nat)) (id : option string)
  : bool :=
  match id with
  | Some s => nonempty s && has idToElement s
  | None => false
  end.

Definition resolveTarget (idToElement : list (string * nat))
    (current : list obj) (elementId : string)
    (hintId currentId : option string) (endpoint : Point) : option string :=
  if known idToElement currentId then currentId
  else if known idToElement hintId then hintId
  else inferBindingTargetId endpoint current elementId.

Definition unbound (elementId side : string) : DiagramQualityIssue :=
  {| code := CONNECTOR_UNBOUND;
     severity := error;
     message := ("Connector " ++ side
                   ++ " is not bound to a valid element")%string;
     elementId := elementId;
     details := [ ("side", JStr side) ] |}.

(** What the pass does for one end of the connector at position [i]. *)
Definition repairSide (fixing : bool) (idToElement : list (string * nat))
    (i : nat) (elementId type side : string)
    (bindingId resolvedId : option string) (st : State) : State :=
  match resolvedId with
  | Some r =>
      if nonempty r then
        if match bindingId with
           | Some b => negb (String.eqb b r)
           | None => true
           end
        then
          if fixing then
            let bound :=
              set_nth i (setBinding (nth i (els st) []) (side ++ "Binding") r)
                      (els st) in
            let linked :=
              match get idToElement r with
              | Some j =>
                  set_nth j (ensureBoundElementsRef (nth j bound [])
                                                    elementId type) bound
              | None => bound   (* never: the index has a resolved id *)
              end in
            {| els := linked; found := found st; fixes := S (fixes st) |}
          else st
        else st
      else {| els := els st;
              found := found st ++ [unbound elementId side];
              fixes := fixes st |}
  | None => {| els := els st;
               found := found st ++ [unbound elementId side];
               fixes := fixes st |}
  end.

Definition repairConnector (fixing : bool) (idToElement : list (string * nat))
    (i : nat) (elementId type : string) (st : State) : State :=
  let element := nth i (els st) [] in
  let (start, finish) := connectorEndpoints element in
  let customData := match as_object (get element "customData") with
                    | Some o => o
                    | None => []
                    end in
  let fromHint := as_string (get customData "fromId") in
  let toHint := as_string (get customData "toId") in
  let startBindingId := extractBindingId (get element "startBinding") in
  let endBindingId := extractBindingId (get element "endBinding") in
  let resolvedStartId :=
    resolveTarget idToElement (els st) elementId fromHint startBindingId
                  start in
  let resolvedEndId :=
    resolveTarget idToElement (els st) elementId toHint endBindingId
                  finish in
  repairSide fixing idToElement i elementId type "end"
             endBindingId resolvedEndId
    (repairSide fixing idToElement i elementId type "start"
                startBindingId resolvedStartId st).

Definition overflow (elementId containerId : string)
    (estimatedWidth maxTextWidth : Q) : DiagramQualityIssue :=
  {| code := TEXT_OVERFLOW;
     severity := warning;
     message := "Text overflows its container width";
     elementId := elementId;
     details := [ ("containerId", JStr containerId);
                  ("estimatedWidth", number estimatedWidth);
                  ("maxTextWidth", number maxTextWidth) ] |}.

Definition textOf (element : obj) : string :=
  to_string (coalesce (coalesce_opt (get element "text")
                                    (get element "originalText"))
                      (JStr "")).

Definition fontSizeOf (element : obj) : Q :=
  Qmax 8 (num (get element "fontSize") DEFAULT_FONT_SIZE).

Definition lineHeightOf (element : obj) : Q :=
  Qmax 1 (num (get element "lineHeight") DEFAULT_LINE_HEIGHT).

Definition maxTextWidthIn (container : obj) : Q :=
  let containerWidth := Qmax 40 (num (get container "width") 40) in
  Qmax 32 (containerWidth - CONTAINER_PADDING).

Definition maxCharsFor (maxTextWidth fontSize : Q) : Q :=
  Qmax 8 (inject_Z (Qfloor (maxTextWidth
                              / (fontSize * OVERFLOW_CHAR_FACTOR)))).

(** The text element after the overflow fix. *)
Definition rewrap (element : obj) (maxTextWidth : Q) : obj :=
  let text := textOf element in
  let fontSize := fontSizeOf element in
  let lineHeight := lineHeightOf element in
  let wrapped := wrapText text (maxCharsFor maxTextWidth fontSize) in
  let lines := List.length (split_on "010" wrapped) in
  set "height"
    (number (Qmax (num (get element "height") 0)
                  (inject_Z (Qceiling (inject_Z (Z.of_nat lines)
                                       * fontSize * lineHeight)))))
    (set "width" (number maxTextWidth)
       (set "originalText" (JStr wrapped)
          (set "text" (JStr wrapped) element))).

Definition repairText (fixing : bool) (idToElement : list (string * nat))
    (i : nat) (elementId : string) (st : State) : State :=
  let element := nth i (els st) [] in
  match as_string (get element "containerId") with
  | Some containerId =>
      if nonempty containerId then
        match get idToElement containerId with
        | Some j =>
            let container := nth j (els st) [] in
            if truthy (get container "isDeleted") then st
            else
              let maxTextWidth := maxTextWidthIn container in
              let estimatedWidth :=
                estimateTextWidth (textOf element) (fontSizeOf element) in
              if negb (Qle_bool estimatedWidth maxTextWidth) then
                let reported :=
                  found st ++ [overflow elementId containerId
                                        estimatedWidth maxTextWidth] in
                if fixing then
                  {| els := set_nth i (rewrap element maxTextWidth) (els st);
                     found := reported;
                     fixes := S (fixes st) |}
                else {| els := els st; found := reported;
                        fixes := fixes st |}
              else st
        | None => st
        end
      else st
  | None => st
  end.

(** One turn of the main loop, for the element at position [i]. *)
Definition visit (fixing : bool) (idToElement : list (string * nat))
    (st : State) (i : nat) : State :=
  let element := nth i (els st) [] in
  let elementId := idOf element in
  if negb (nonempty elementId) then st
  else
    let type := typeOf element in
    let st1 := if is_connector type
               then repairConnector fixing idToElement i elementId type st
               else st in
    if String.eqb type "text"
    then repairText fixing idToElement i elementId st1
    else st1.

Definition applyDiagramQuality (sc : SceneEnvelope) (fixing : bool)
  : DiagramQualityResult :=
  (* [{ ...element }]: a copy of a record is the record *)
  let copies := map (fun element => element) (elements sc) in
  let idToElement := indexFrom 0 copies [] in
  let st := fold_left (visit fixing idToElement)
                      (seq 0 (List.length copies))
                      {| els := copies; found := []; fixes := 0 |} in
  {| scene := with_elements sc (els st);
     issues := found st;
     fixesApplied := fixes st |}.

End DiagramQuality.

(* ================================================================== *)
(** * The scene store ([src/domain/sceneStore.ts]) *)
(* ================================================================== *)

Module SceneStore.

(** An entry of the scenes directory, as [readdir] and [stat] show it, with
    the scene its text parses to. *)
Record DirEntry : Type := {
  fileName : string;
  isFile : bool;
  mtimeMs : Z;
  content : SceneEnvelope
}.

Record CachedScene : Type := {
  cachedMtimeMs : Z;
  cachedScene : SceneEnvelope
}.

(** The directory in the order [readdir] lists it, and the cache. *)
Record Store : Type := {
  dir : list DirEntry;
  cache : list (string * CachedScene)
}.

Definition suffix : string := ".excalidraw.json".

(** What [JSON.parse] reads back from what [JSON.stringify] wrote: a NaN
    was written [null]. *)
Fixpoint reparse (v : value) : value :=
  match v with
  | JNum NaN => JNull
  | JArr items => JArr (map reparse items)
  | JObj fields => JObj (map (fun kv => (fst kv, reparse (snd kv))) fields)
  | _ => v
  end.

Definition reparseObj (o : obj) : obj :=
  map (fun kv => (fst kv, reparse (snd kv))) o.

Definition reparseScene (s : SceneEnvelope) : SceneEnvelope :=
  {| metadata := metadata s;
     elements := map reparseObj (elements s);
     appState := reparseObj (appState s);
     files := reparseObj (files s);
     libraryItems := map reparseObj (libraryItems s) |}.

(** [/^[a-zA-Z0-9_-]+$/] *)
Definition idChar (c : ascii) : bool :=
  let n := nat_of_ascii c in
  ((97 <=? n) && (n <=? 122) || (65 <=? n) && (n <=? 90)
   || (48 <=? n) && (n <=? 57) || (n =? 95) || (n =? 45))%nat.

Definition sanitizeSceneId (id : string) : outcome string :=
  if nonempty id && forallb idChar (list_ascii_of_string id) then Ok id
  else Throw {| code := BAD_REQUEST; message := "Invalid sceneId format";
                status := 400 |}.

(** The file of a scene, within the root: a sanitized id has no separator
    and no dot, so [ensureInsideRoot] accepts the joined path. *)
Definition scenePath (id : string) : outcome string :=
  match sanitizeSceneId id with
  | Ok safeId => Ok (safeId ++ suffix)%string
  | Throw e => Throw e
  end.

Fixpoint stat (d : list DirEntry) (path : string) : option DirEntry :=
  match d with
  | [] => None
  | e :: rest => if String.eqb (fileName e) path then Some e else stat rest path
  end.

(** [rename] of a freshly written file onto [path]: an entry of that name
    is replaced where it stands, a new name is listed last. *)
Fixpoint write (path : string) (mtime : Z) (s : SceneEnvelope)
    (d : list DirEntry) : list DirEntry :=
  match d with
  | [] => [ {| fileName := path; isFile := true; mtimeMs := mtime;
               content := s |} ]
  | e :: rest =>
      if String.eqb (fileName e) path
      then {| fileName := path; isFile := true; mtimeMs := mtime;
              content := s |} :: rest
      else e :: write path mtime s rest
  end.

Definition sceneNotFound (id : string) : AppError :=
  {| code := NOT_FOUND; message := ("Scene not found: " ++ id)%string;
     status := 404 |}.

(** What [readFile] throws on an entry that is not a regular file, as
    [asAppError] reports it. *)
Definition notReadable (path : string) : AppError :=
  {| code := INTERNAL;
     message := ("EISDIR: illegal operation on a directory, read " ++ path)%string;
     status := 500 |}.

Definition load (id : string) (st : Store) : outcome SceneEnvelope * Store :=
  match scenePath id with
  | Throw e => (Throw e, st)
  | Ok fullPath =>
      match stat (dir st) fullPath with
      | None => (Throw (sceneNotFound id), st)
      | Some fileStats =>
          let reread :=
            if isFile fileStats
            then (Ok (content fileStats),
                  {| dir := dir st;
                     cache := set id {| cachedMtimeMs := mtimeMs fileStats;
                                        cachedScene := content fileStats |}
                                  (cache st) |})
            else (Throw (notReadable fullPath), st) in
          match get (cache st) id with
          | Some cached =>
              if (cachedMtimeMs cached =? mtimeMs fileStats)%Z
              then (Ok (cachedScene cached), st)
              else reread
          | None => reread
          end
      end
  end.

Definition save (host : Host) (s : SceneEnvelope) (st : Store)
  : Eff (outcome unit * Store) :=
  match scenePath (sceneId (metadata s)) with
  | Throw e => ret (Throw e, st)
  | Ok fullPath =>
      (mtime <- read (fileMtime host) ;;
       ret (Ok tt,
            {| dir := write fullPath mtime (reparseScene s) (dir st);
               cache := set (sceneId (metadata s))
                            {| cachedMtimeMs := mtime; cachedScene := s |}
                            (cache st) |}))%eff
  end.

Definition exists_ (id : string) (st : Store) : outcome bool :=
  match scenePath id with
  | Throw e => Throw e
  | Ok fullPath =>
      Ok (match stat (dir st) fullPath with Some _ => true | None => false end)
  end.





End SceneStore.

(* ================================================================== *)
(** * The scene service ([src/domain/sceneService.ts]) *)
(* ================================================================== *)

Module SceneService.

Import SceneStore.

Definition MAX_FILE_BYTES : Z := 10 * 1024 * 1024.

Record AttachInput : Type := {
  inputFileId : option string;
  mimeType : string;
  base64 : string
}.

Record AttachResult : Type := {
  fileId : string;
  deduplicated : bool;
  sizeBytes : Z
}.

(** [v.k] for a value that is not [null]; the entries of [files] are
    records by the schema. *)
Definition prop (v : value) (k : string) : option value :=
  match v with
  | JObj o => get o k
  | _ => None
  end.

(** The loop over [Object.entries(scene.files)]: the id of the first entry
    whose data URL hashes to [hash]. *)
Fixpoint findByHash (hash : string) (entries : obj) : option string :=
  match entries with
  | [] => None
  | (existingId, existing) :: rest =>
      if String.eqb
           (Sha256.hex_of_string
              (to_string (coalesce (prop existing "dataURL") (JStr ""))))
           hash
      then Some existingId
      else findByHash hash rest
  end.

Section WithHost.
Variable host : Host.

(** A call under [withSceneLock] runs from its load to its save with no
    other call on the scene in between; calls are taken one at a time
    here, so the lock is not written out. *)
Definition patchScene (id : string) (operations : list ScenePatchOperation)
    (st : Store) : Eff (outcome JsonEngine.PatchResult * Store) :=
  match load id st with
  | (Throw e, st1) => ret (Throw e, st1)
  | (Ok sc, st1) =>
      (patched <- JsonEngine.applyPatch host sc operations ;;
       match patched with
       | Throw e => ret (Throw e, st1)
       | Ok p =>
           saved <- save host (JsonEngine.scene p) st1 ;;
           match saved with
           | (Throw e, st2) => ret (Throw e, st2)
           | (Ok _, st2) => ret (Ok p, st2)
           end
       end)%eff
  end.

Definition attachFile (id : string) (input : AttachInput) (st : Store)
  : Eff (outcome AttachResult * Store) :=
  let buffer := Base64.decode (base64 input) in
  let byteLength := Z.of_nat (List.length buffer) in
  if (MAX_FILE_BYTES <? byteLength)%Z
  then ret (Throw {| code := BAD_REQUEST; message := "File exceeds max size";
                     status := 400 |}, st)
  else
    let hash := Sha256.hex buffer in
    match load id st with
    | (Throw e, st1) => ret (Throw e, st1)
    | (Ok sc, st1) =>
        match findByHash hash (files sc) with
        | Some existingId =>
            ret (Ok {| fileId := existingId; deduplicated := true;
                       sizeBytes := byteLength |}, st1)
        | None =>
            (fid <- match inputFileId input with
                    | Some f => ret f
                    | None => read (randomUUID host)
                    end ;;
             let dataURL := ("data:" ++ mimeType input ++ ";base64,"
                               ++ base64 input)%string in
             created <- read (dateNow host) ;;
             lastRetrieved <- read (dateNow host) ;;
             let nextFile := JObj [ ("id", JStr fid);
                                    ("mimeType", JStr (mimeType input));
                                    ("dataURL", JStr dataURL);
                                    ("created", int created);
                                    ("lastRetrieved", int lastRetrieved);
                                    ("version", int 1) ] in
             nextScene <- JsonEngine.normalize host
                            (with_files sc (set fid nextFile (files sc))) ;;
             saved <- save host nextScene st1 ;;
             match saved with
             | (Throw e, st2) => ret (Throw e, st2)
             | (Ok _, st2) =>
                 ret (Ok {| fileId := fid; deduplicated := false;
                            sizeBytes := byteLength |}, st2)
             end)%eff
        end
    end.

End WithHost.

Record ValidationResult : Type := {
  valid : bool;
  structural : list string;              (* [issues] *)
  qualityIssues : list DiagramQuality.DiagramQualityIssue;
  validatedHash : string                 (* [revisionHash] *)
}.

(** The loop of [validateScene] over the elements; [seen] is the set of
    ids met so far. *)
Fixpoint elementIssues (els : list obj) (seen : list value) : list string :=
  match els with
  | [] => []
  | element :: rest =>
      match get element "id" with
      | Some id =>
          if truthy (Some id) then
            (if existsb (fun x => same_value_zero (Some x) (Some id)) seen
             then [("Duplicate element id: " ++ to_string id)%string]
             else [])
            ++ elementIssues rest (JsonEngine.set_add id seen)
          else "Element missing id" :: elementIssues rest seen
      | None => "Element missing id" :: elementIssues rest seen
      end
  end.

Definition fileIssues (fls : obj) : list string :=
  flat_map (fun entry =>
              let dataURL := prop (snd entry) "dataURL" in
              if negb (truthy dataURL)
                 || negb (starts_with "data:"
                            (to_string (coalesce dataURL (JStr ""))))
              then [("Invalid file data URL: " ++ fst entry)%string]
              else [])
           fls.

Definition isError (issue : DiagramQuality.DiagramQualityIssue) : bool :=
  match DiagramQuality.severity issue with
  | DiagramQuality.error => true
  | DiagramQuality.warning => false
  end.

Definition validateScene (id : string) (st : Store)
  : outcome ValidationResult * Store :=
  match load id st with
  | (Throw e, st1) => (Throw e, st1)
  | (Ok sc, st1) =>
      let found := elementIssues (elements sc) []
                   ++ fileIssues (files sc) in
      let quality := DiagramQuality.applyDiagramQuality sc false in
      (Ok {| valid :=
               (List.length found =? 0)%nat
               && (List.length (filter isError
                                  (DiagramQuality.issues quality)) =? 0)%nat;
             structural := found;
             qualityIssues := DiagramQuality.issues quality;
             validatedHash := revisionHash (metadata sc) |},
       st1)
  end.

End SceneService.

(* ================================================================== *)
(** * Sample hosts and scenes *)
(* ================================================================== *)

Module Fixtures.

(** A host whose clock advances by a millisecond at every read. *)
Definition tickingHost : Host :=
  {| randomUUID := fun n => ("uuid-" ++ string_of_Z (Z.of_nat n))%string;
     mathRandom := fun _ => 1 # 2;
     dateNow := fun n => (1767225600000 + Z.of_nat n)%Z;
     isoNow := fun n =>
       ("2026-01-01T00:00:00." ++ string_of_Z (100 + Z.of_nat n) ++ "Z")%string;
     fileMtime := fun n => (1767225600000 + Z.of_nat n)%Z |}.

(** A host whose clock stands still, with other random numbers. *)
Definition stillHost : Host :=
  {| randomUUID := fun n => ("id-" ++ string_of_Z (Z.of_nat n))%string;
     mathRandom := fun _ => 1 # 4;
     dateNow := fun _ => 1800000000000%Z;
     isoNow := fun _ => "2027-01-15T12:00:00.000Z";
     fileMtime := fun n => (1800000000000 + Z.of_nat n)%Z |}.

Definition blankMetadata (id : string) : SceneMetadata :=
  {| sceneId := id; name := "Scene"; createdAt := "2026-01-01T00:00:00.000Z";
     updatedAt := "2026-01-01T00:00:00.000Z"; elementCount := 0;
     fileCount := 0;
     engineHints := {| hasFrames := false; hasEmbeddables := false;
                       hasImages := false |};
     revisionHash := "" |}.

Definition emptyScene (id : string) : SceneEnvelope :=
  {| metadata := blankMetadata id; elements := []; appState := [];
     files := []; libraryItems := [] |}.

Definition box (id : string) (x y w h : Z) : obj :=
  [ ("id", JStr id); ("type", JStr "rectangle"); ("x", int x); ("y", int y);
    ("width", int w); ("height", int h) ].

(** The skeletons of the quality test of the repository's [SceneService]
    suite: two boxes, a label bound to the first, and an arrow that names
    both boxes in its [customData]. *)
Definition n1 : obj := box "n1" 0 0 180 80.
Definition n2 : obj := box "n2" 340 0 180 80.

Definition t1 : obj :=
  [ ("id", JStr "t1"); ("type", JStr "text"); ("containerId", JStr "n1");
    ("x", int 10); ("y", int 20); ("width", int 500); ("height", int 24);
    ("fontSize", int 20); ("lineHeight", number (12 # 10));
    ("text",
      JStr "This is a very long label that should wrap inside the container")
  ].

Definition c1 : obj :=
  [ ("id", JStr "c1"); ("type", JStr "arrow"); ("x", int 80); ("y", int 40);
    ("points", JArr [ JArr [int 0; int 0]; JArr [int 320; int 0] ]);
    ("customData", JObj [ ("fromId", JStr "n1"); ("toId", JStr "n2") ]) ].

Definition qualityBatch : list ScenePatchOperation :=
  [ AddElements [n1; n2; t1; c1] ].

End Fixtures.

(* ================================================================== *)
(** * Properties *)
(* ================================================================== *)

(** ** Test vectors of the hash and of the decoder *)

Module Vectors.

(** FIPS 180-4, appendix B.1, and the digest of the empty message. *)
Lemma sha256_abc :
  Sha256.hex_of_string "abc"
  = "ba7816bf8f01cfea414140de5dae2223b00361a396177a9cb410ff61f20015ad".
Proof. vm_compute. reflexivity. Qed.

Lemma sha256_empty :
  Sha256.hex []
  = "e3b0c44298fc1c149afbf4c8996fb92427ae41e4649b934ca495991b7852b855".
Proof. vm_compute. reflexivity. Qed.

(** A message of two blocks (appendix B.2). *)
Lemma sha256_two_blocks :
  Sha256.hex_of_string
    "abcdbcdecdefdefgefghfghighijhijkijkljklmklmnlmnomnopnopq"
  = "248d6a61d20638b8e5c026930c3e6039a33ce45964ff2167f6ecedd419db06c1".
Proof. vm_compute. reflexivity. Qed.

Lemma base64_file_content :
  Base64.decode "ZmlsZS1jb250ZW50" = bytes_of "file-content".
Proof. reflexivity. Qed.

End Vectors.

(** ** Analysis-only mode of the quality pass *)

Module QualityAnalysis.

Import DiagramQuality.

(** A state keeps its array and its count of fixes. *)
Definition untouched (st st' : State) : Prop :=
  els st' = els st /\ fixes st' = fixes st.

Lemma untouched_refl st : untouched st st.
Proof. split; reflexivity. Qed.

Lemma untouched_trans a b c : untouched a b -> untouched b c -> untouched a c.
Proof. intros [H1 H2] [H3 H4]. split; congruence. Qed.

Lemma repairSide_analysis idx i id type side b r st :
  untouched st (repairSide false idx i id type side b r st).
Proof.
  unfold repairSide.
  destruct r as [r|]; [destruct (nonempty r)|]; try (split; reflexivity).
  destruct (match b with Some b0 => negb (String.eqb b0 r) | None => true end);
    apply untouched_refl.
Qed.

Lemma repairConnector_analysis idx i id type st :
  untouched st (repairConnector false idx i id type st).
Proof.
  unfold repairConnector.
  destruct (connectorEndpoints (nth i (els st) [])) as [start finish].
  eapply untouched_trans; apply repairSide_analysis.
Qed.

Lemma repairText_analysis idx i id st :
  untouched st (repairText false idx i id st).
Proof.
  unfold repairText.
  destruct (as_string (get (nth i (els st) []) "containerId")) as [c|];
    [|apply untouched_refl].
  destruct (nonempty c); [|apply untouched_refl].
  destruct (get idx c) as [j|]; [|apply untouched_refl].
  destruct (truthy (get (nth j (els st) []) "isDeleted"));
    [apply untouched_refl|].
  destruct (negb _); [split; reflexivity | apply untouched_refl].
Qed.

Lemma visit_analysis idx st i : untouched st (visit false idx st i).
Proof.
  unfold visit.
  destruct (negb (nonempty (idOf (nth i (els st) []))));
    [apply untouched_refl|].
  set (type := typeOf (nth i (els st) [])).
  destruct (is_connector type); destruct (String.eqb type "text");
    try apply untouched_refl;
    try apply repairConnector_analysis;
    try apply repairText_analysis.
  eapply untouched_trans;
    [apply repairConnector_analysis | apply repairText_analysis].
Qed.

Lemma loop_analysis idx positions st :
  untouched st (fold_left (visit false idx) positions st).
Proof.
  revert st. induction positions as [|i rest IH]; intro st; simpl.
  - apply untouched_refl.
  - eapply untouched_trans; [apply visit_analysis | apply IH].
Qed.

(** C10.  In analysis-only mode ([fix = false]) the quality pass returns the
    scene it was given, element for element and field for field, and counts
    no fix, whatever issues it reports. *)
Theorem applyDiagramQuality_analysis_only (sc : SceneEnvelope) :
  scene (applyDiagramQuality sc false) = sc
  /\ fixesApplied (applyDiagramQuality sc false) = 0%nat.
Proof.
  unfold applyDiagramQuality; simpl.
  rewrite map_id.
  destruct (loop_analysis (indexFrom 0 (elements sc) [])
              (seq 0 (List.length (elements sc)))
              {| els := elements sc; found := []; fixes := 0 |})
    as [Hels Hfix].
  simpl in Hels, Hfix. rewrite Hels, Hfix.
  split; [destruct sc; reflexivity | reflexivity].
Qed.

(** On the scene of the quality test the analysis reports the overflowing
    label, and the label is left as it was. *)
Lemma analysis_reports_and_leaves :
  let sc := with_elements (Fixtures.emptyScene "s0")
              [Fixtures.n1; Fixtures.n2; Fixtures.t1; Fixtures.c1] in
  map code (issues (applyDiagramQuality sc false)) = [TEXT_OVERFLOW]
  /\ elements (scene (applyDiagramQuality sc false)) = elements sc.
Proof. split; reflexivity. Qed.

End QualityAnalysis.

(** ** Atomicity of a patch batch *)

Module PatchAtomicity.

Import SceneStore SceneService.

Lemma load_keeps_dir id st : dir (snd (load id st)) = dir st.
Proof.
  unfold load.
  destruct (scenePath id) as [path|e]; [|reflexivity].
  destruct (stat (dir st) path) as [f|]; [|reflexivity].
  destruct (get (cache st) id) as [c|];
    [destruct (cachedMtimeMs c =? mtimeMs f)%Z|];
    try reflexivity; destruct (isFile f); reflexivity.
Qed.

(** Validation runs the quality pass in analysis-only mode on a copy it
    loaded and writes nothing. *)
Lemma validateScene_reads_only id st :
  dir (snd (validateScene id st)) = dir st.
Proof.
  unfold validateScene. pose proof (load_keeps_dir id st) as H.
  destruct (load id st) as [[sc|e] st1]; exact H.
Qed.


End PatchAtomicity.

(** ** Facts about objects *)

Module ObjectFacts.

Lemma get_set_same {V : Type} (k : string) (v : V) (o : list (string * V)) :
  get (set k v o) k = Some v.
Proof.
  induction o as [|[k' v'] rest IH]; simpl.
  - rewrite String.eqb_refl. reflexivity.
  - destruct (String.eqb k' k) eqn:E; simpl.
    + rewrite String.eqb_refl. reflexivity.
    + rewrite E. exact IH.
Qed.

Lemma get_set_other {V : Type} (k k2 : string) (v : V)
    (o : list (string * V)) :
  k <> k2 -> get (set k v o) k2 = get o k2.
Proof.
  intro Hne.
  induction o as [|[k' v'] rest IH]; simpl.
  - destruct (String.eqb k k2) eqn:E; [|reflexivity].
    apply String.eqb_eq in E. contradiction.
  - destruct (String.eqb k' k) eqn:E; simpl.
    + apply String.eqb_eq in E. subst k'.
      destruct (String.eqb k k2) eqn:E2; [|reflexivity].
      apply String.eqb_eq in E2. contradiction.
    + rewrite IH. reflexivity.
Qed.

Lemma keys_set_in {V : Type} (k : string) (v : V) (o : list (string * V)) :
  In k (keys o) -> keys (set k v o) = keys o.
Proof.
  induction o as [|[k' v'] rest IH]; simpl; [tauto|].
  intros [->|Hin].
  - rewrite String.eqb_refl. reflexivity.
  - destruct (String.eqb k' k) eqn:E; simpl.
    + apply String.eqb_eq in E. subst. reflexivity.
    + f_equal. apply IH. exact Hin.
Qed.

Lemma keys_set_new {V : Type} (k : string) (v : V) (o : list (string * V)) :
  ~ In k (keys o) -> set k v o = o ++ [(k, v)].
Proof.
  induction o as [|[k' v'] rest IH]; simpl; [reflexivity|].
  intro Hnin.
  destruct (String.eqb k' k) eqn:E.
  - apply String.eqb_eq in E. tauto.
  - rewrite IH by tauto. reflexivity.
Qed.

Lemma get_none_keys {V : Type} (k : string) (o : list (string * V)) :
  get o k = None <-> ~ In k (keys o).
Proof.
  induction o as [|[k' v'] rest IH]; simpl; [tauto|].
  destruct (String.eqb k' k) eqn:E.
  - apply String.eqb_eq in E. split; [discriminate | tauto].
  - apply String.eqb_neq in E. rewrite IH. tauto.
Qed.

Lemma has_true_keys {V : Type} (k : string) (o : list (string * V)) :
  has o k = true <-> In k (keys o).
Proof.
  unfold has. pose proof (get_none_keys k o) as H.
  destruct (get o k).
  - split; [intros _|reflexivity].
    destruct (in_dec string_dec k (keys o)) as [Hin|Hnin]; [exact Hin|].
    apply H in Hnin. discriminate.
  - split; [discriminate|]. intro Hin. apply H in Hin; tauto.
Qed.

Lemma length_set_nth {A : Type} (i : nat) (x : A) (l : list A) :
  List.length (set_nth i x l) = List.length l.
Proof.
  revert i. induction l as [|y rest IH]; intros [|i]; simpl; auto.
Qed.

Lemma nth_set_nth_same {A : Type} (i : nat) (x d : A) (l : list A) :
  (i < List.length l)%nat -> nth i (set_nth i x l) d = x.
Proof.
  revert i. induction l as [|y rest IH]; intros [|i] H; simpl in *;
    try lia; auto.
  apply IH. lia.
Qed.

Lemma nth_set_nth_other {A : Type} (i j : nat) (x d : A) (l : list A) :
  i <> j -> nth j (set_nth i x l) d = nth j l d.
Proof.
  revert i j. induction l as [|y rest IH]; intros [|i] [|j] H; simpl;
    try reflexivity; try congruence.
  apply IH. congruence.
Qed.

End ObjectFacts.

(** ** Unknown element ids in a batch *)

Module UnknownIds.

Import JsonEngine ObjectFacts.

(** Some element of [els] has the string [id] for its [id]. *)
Definition hasId (id : string) (els : list obj) : bool :=
  existsb (fun element => same_value_zero (get element "id") (Some (JStr id)))
          els.

Lemma same_value_zero_string (k : option value) (s : string) :
  same_value_zero k (Some (JStr s)) = true <-> k = Some (JStr s).
Proof.
  split.
  - destruct k as [[| |[q|]| | |]|]; simpl; try discriminate.
    intro H. apply String.eqb_eq in H. subst. reflexivity.
  - intros ->. simpl. apply String.eqb_refl.
Qed.

Lemma same_value_zero_string_l (k : option value) (s : string) :
  same_value_zero (Some (JStr s)) k = true -> k = Some (JStr s).
Proof.
  destruct k as [[| |[q|]| | |]|]; simpl; try discriminate.
  intro H. apply String.eqb_eq in H. subst. reflexivity.
Qed.

Lemma map_get_set_absent (k k2 : option value) (v : obj) (m : idmap) :
  map_get m k2 = None -> same_value_zero k k2 = false ->
  map_get (map_set k v m) k2 = None.
Proof.
  intros Hm Hk.
  induction m as [|[k' v'] rest IH]; simpl in *.
  - rewrite Hk. reflexivity.
  - destruct (same_value_zero k' k2) eqn:E2; [discriminate|].
    destruct (same_value_zero k' k); simpl; rewrite E2; auto.
Qed.

Lemma mapById_absent (id : string) (els : list obj) (m : idmap) :
  map_get m (Some (JStr id)) = None -> hasId id els = false ->
  map_get (fold_left (fun m element => map_set (get element "id") element m)
                     els m)
          (Some (JStr id)) = None.
Proof.
  revert m. induction els as [|e rest IH]; intros m Hm Hels; simpl in *;
    [exact Hm|].
  apply orb_false_iff in Hels. destruct Hels as [He Hrest].
  apply IH; [|exact Hrest].
  apply map_get_set_absent; assumption.
Qed.

Section WithHost.
Variable host : Host.

Lemma updateAll_unknown (updates : list (string * obj)) :
  forall (m : idmap) (chg : list value) (t : nat) (u : string) (patch : obj),
    In (u, patch) updates -> map_get m (Some (JStr u)) = None ->
    exists e t', updateAll host updates m chg t = (Throw e, t')
                 /\ code e = NOT_FOUND.
Proof.
  induction updates as [|[id p] rest IH]; intros m chg t u patch Hin Hm;
    simpl in *; [tauto|].
  destruct (map_get m (Some (JStr id))) as [existing|] eqn:Eid.
  - destruct Hin as [Heq|Hin]; [inversion Heq; subst; congruence|].
    unfold bind, read. eapply IH; [exact Hin|].
    apply map_get_set_absent; [exact Hm|].
    destruct (same_value_zero (Some (JStr id)) (Some (JStr u))) eqn:E;
      [|reflexivity].
    apply same_value_zero_string in E. inversion E; subst. congruence.
  - eexists. eexists. split; reflexivity.
Qed.

Lemma get_id_soft_deleted (now : Z) (element : obj) :
  get (set "updated" (int now)
         (set "version" (bumped element)
            (set "isDeleted" (JBool true) element))) "id"
  = get element "id".
Proof.
  rewrite !get_set_other by discriminate. reflexivity.
Qed.

Lemma ids_has_without (id : string) (ids : list string) (v : option value) :
  v <> Some (JStr id) ->
  ids_has (filter (fun x => negb (String.eqb x id)) ids) v = ids_has ids v.
Proof.
  intro Hv. unfold ids_has.
  induction ids as [|x rest IH]; cbn [filter existsb]; [reflexivity|].
  destruct (String.eqb x id) eqn:E; cbn [negb existsb].
  - apply String.eqb_eq in E. subst x.
    destruct (same_value_zero (Some (JStr id)) v) eqn:E2; [|exact IH].
    apply same_value_zero_string_l in E2. congruence.
  - rewrite IH. reflexivity.
Qed.

Lemma in_set_add (v x : value) (s : list value) :
  In x (set_add v s) -> x = v \/ In x s.
Proof.
  unfold set_add. destruct (existsb _ s); [tauto|].
  intro H. apply in_app_or in H. simpl in H.
  destruct H as [H|[H|[]]]; auto.
Qed.

Lemma deleteAll_unknown (ids : list string) (hard : bool) (id : string)
    (els : list obj) :
  hasId id els = false ->
  forall (chg : list value) (t : nat),
    deleteAll host (filter (fun x => negb (String.eqb x id)) ids) hard els
              chg t
    = deleteAll host ids hard els chg t
    /\ hasId id (fst (fst (deleteAll host ids hard els chg t))) = false
    /\ (In (JStr id) (snd (fst (deleteAll host ids hard els chg t))) ->
        In (JStr id) chg).
Proof.
  induction els as [|e rest IH]; intros Hels chg t; simpl in *.
  - repeat split; auto.
  - apply orb_false_iff in Hels. destruct Hels as [He Hrest].
    assert (Hne : get e "id" <> Some (JStr id)).
    { intro Heq. rewrite Heq in He. simpl in He.
      rewrite String.eqb_refl in He. discriminate. }
    rewrite (ids_has_without id ids _ Hne).
    destruct (ids_has ids (get e "id")) eqn:Ehas; simpl.
    + set (chg' := match get e "id" with
                   | Some v => set_add v chg
                   | None => chg
                   end).
      assert (Hchg : In (JStr id) chg' -> In (JStr id) chg).
      { subst chg'. destruct (get e "id") as [v|]; [|tauto].
        intro H. apply in_set_add in H. destruct H as [H|H]; [|exact H].
        subst v. contradiction. }
      destruct hard.
      * destruct (IH Hrest chg' t) as (H1 & H2 & H3).
        repeat split; auto.
      * unfold bind, read.
        destruct (IH Hrest chg' (S t)) as (H1 & H2 & H3).
        rewrite H1.
        destruct (deleteAll host ids false rest chg' (S t)) as [[l c] t'].
        simpl in *. rewrite get_id_soft_deleted, He.
        repeat split; auto.
    + unfold bind.
      destruct (IH Hrest chg t) as (H1 & H2 & H3).
      rewrite H1.
      destruct (deleteAll host ids hard rest chg t) as [[l c] t'].
      simpl in *. rewrite He. repeat split; auto.
Qed.

Lemma applyOperations_app (ops1 ops2 : list ScenePatchOperation) :
  forall (st st1 : PatchState) (t t1 : nat),
    applyOperations host st ops1 t = (Ok st1, t1) ->
    applyOperations host st (ops1 ++ ops2) t
    = applyOperations host st1 ops2 t1.
Proof.
  induction ops1 as [|op rest IH]; intros st st1 t t1 H; simpl in *.
  - inversion H; subst. reflexivity.
  - unfold bind in *.
    destruct (applyOperation host st op t) as [[st'|e] t'];
      [|discriminate].
    apply IH. exact H.
Qed.

(** C6.  Let a batch have run, without failure, up to a working copy in
    which no element has the id [id].  An [UpdateElements] operation that
    names [id] then makes the whole [applyPatch] call throw [NOT_FOUND],
    whatever follows it in the batch.  A [DeleteElements] operation that
    names [id] succeeds; it does exactly what it would do were [id] not in
    its list, the element set still has no element with that id, and [id] is
    among the changed ids afterwards only if it was before. *)
Theorem unknown_id_update_throws_delete_passes
    (sc : SceneEnvelope) (before : list ScenePatchOperation)
    (st1 : PatchState) (t t1 : nat) (id : string)
    (Hrun : applyOperations host {| next := sc; changed := [] |} before t
            = (Ok st1, t1))
    (Habsent : hasId id (elements (next st1)) = false) :
  (forall updates patch after,
      In (id, patch) updates ->
      exists e t',
        applyPatch host sc (before ++ UpdateElements updates :: after) t
        = (Throw e, t')
        /\ code e = NOT_FOUND)
  /\ (forall ids hardDelete,
         exists st2 t2,
           applyOperation host st1 (DeleteElements ids hardDelete) t1
           = (Ok st2, t2)
           /\ applyOperation host st1
                (DeleteElements
                   (filter (fun x => negb (String.eqb x id)) ids) hardDelete)
                t1
              = (Ok st2, t2)
           /\ hasId id (elements (next st2)) = false
           /\ (In (JStr id) (changed st2) -> In (JStr id) (changed st1))).
Proof.
  split.
  - intros updates patch after Hin.
    unfold applyPatch, bind.
    rewrite (applyOperations_app before _ _ _ _ _ Hrun). simpl.
    unfold bind.
    destruct (updateAll_unknown updates (mapById (elements (next st1)))
                (changed st1) t1 id patch Hin) as (e & t' & Hu & Hc).
    { apply mapById_absent; [reflexivity | exact Habsent]. }
    rewrite Hu. exists e, t'. split; [reflexivity | exact Hc].
  - intros ids hardDelete. simpl. unfold bind.
    destruct (deleteAll_unknown ids (flag hardDelete) id
                (elements (next st1)) Habsent (changed st1) t1)
      as (H1 & H2 & H3).
    rewrite H1.
    destruct (deleteAll host ids (flag hardDelete) (elements (next st1))
                (changed st1) t1) as [[l c] t2].
    simpl in *. eexists. eexists.
    split; [reflexivity|]. split; [reflexivity|]. simpl. auto.
Qed.

End WithHost.

End UnknownIds.

Module UnknownIdsWitness.

Import JsonEngine UnknownIds Fixtures.

Definition oneBox : SceneEnvelope :=
  with_elements (emptyScene "s1") [n1].

Lemma unknown_id_witness :
  hasId "ghost" (elements oneBox) = false
  /\ (forall updates patch after,
         In ("ghost", patch) updates ->
         exists e t',
           applyPatch tickingHost oneBox
             ([] ++ UpdateElements updates :: after) 0%nat
           = (Throw e, t')
           /\ code e = NOT_FOUND)
  /\ (forall ids hardDelete,
         exists st2 t2,
           applyOperation tickingHost {| next := oneBox; changed := [] |}
             (DeleteElements ids hardDelete) 0%nat
           = (Ok st2, t2)
           /\ applyOperation tickingHost {| next := oneBox; changed := [] |}
                (DeleteElements
                   (filter (fun x => negb (String.eqb x "ghost")) ids)
                   hardDelete) 0%nat
              = (Ok st2, t2)
           /\ hasId "ghost" (elements (next st2)) = false
           /\ (In (JStr "ghost") (changed st2) -> In (JStr "ghost") [])).
Proof.
  split; [reflexivity|].
  exact (unknown_id_update_throws_delete_passes tickingHost oneBox []
           {| next := oneBox; changed := [] |} 0%nat 0%nat "ghost"
           eq_refl eq_refl).
Defined.

End UnknownIdsWitness.

(** ** The order of [listMetadata] *)

Module SortFacts.

Section Sorting.
Context {A : Type}.
Variable cmp : A -> A -> comparison.

(** [x] may stand before [y]. *)
Definition before (x y : A) : Prop := cmp x y <> Gt.

Lemma insert_with_perm (x : A) (l : list A) :
  Permutation (insert_with cmp x l) (x :: l).
Proof.
  induction l as [|y rest IH]; simpl; [reflexivity|].
  destruct (cmp x y); try reflexivity.
  rewrite IH. apply perm_swap.
Qed.

Lemma sort_with_perm (l : list A) : Permutation (sort_with cmp l) l.
Proof.
  induction l as [|x rest IH]; simpl; [reflexivity|].
  rewrite insert_with_perm. constructor. exact IH.
Qed.

Hypothesis cmp_total : forall x y, cmp x y = Gt -> cmp y x <> Gt.

Lemma insert_with_sorted (x : A) (l : list A) :
  Sorted before l -> Sorted before (insert_with cmp x l).
Proof.
  induction l as [|y rest IH]; intro Hs; simpl.
  - repeat constructor.
  - destruct (cmp x y) eqn:E.
    + constructor; [exact Hs|]. constructor. unfold before. congruence.
    + constructor; [exact Hs|]. constructor. unfold before. congruence.
    + inversion Hs as [|? ? Hrest Hhd]; subst.
      constructor; [apply IH; exact Hrest|].
      destruct rest as [|z rest']; simpl.
      * constructor. apply cmp_total. exact E.
      * destruct (cmp x z); constructor;
          try (apply cmp_total; exact E);
          inversion Hhd; assumption.
Qed.

Lemma sort_with_sorted (l : list A) : Sorted before (sort_with cmp l).
Proof.
  induction l as [|x rest IH]; simpl; [constructor|].
  apply insert_with_sorted. exact IH.
Qed.



End Sorting.

Lemma Sorted_weaken {A : Type} (R R' : A -> A -> Prop) (l : list A) :
  (forall a b, R a b -> R' a b) -> Sorted R l -> Sorted R' l.
Proof.
  intros Himp Hs.
  induction Hs as [|x l Hl IH Hhd]; constructor; [exact IH|].
  destruct Hhd; constructor. apply Himp. assumption.
Qed.

Lemma compare_refl (a : string) : String.compare a a = Eq.
Proof.
  pose proof (String.compare_antisym a a) as H.
  destruct (String.compare a a); simpl in H; congruence.
Qed.

Lemma leb_trans (a b c : string) :
  String.leb a b = true -> String.leb b c = true -> String.leb a c = true.
Proof.
  unfold String.leb.
  destruct (String.compare a b) eqn:Eab; try discriminate;
    destruct (String.compare b c) eqn:Ebc; try discriminate; intros _ _.
  - apply String.compare_eq_iff in Eab, Ebc. subst.
    rewrite compare_refl. reflexivity.
  - apply String.compare_eq_iff in Eab. subst. rewrite Ebc. reflexivity.
  - apply String.compare_eq_iff in Ebc. subst. rewrite Eab. reflexivity.
  - apply String_as_OT.cmp_lt in Eab, Ebc.
    pose proof (String_as_OT.lt_trans _ _ _ Eab Ebc) as H.
    apply String_as_OT.cmp_lt in H.
    unfold String_as_OT.cmp in H. rewrite H. reflexivity.
Qed.

End SortFacts.

Module ListingOrder.

Import SceneStore SortFacts Fixtures.











End ListingOrder.

(** ** The text-overflow fix *)

Module TextWrap.

Import DiagramQuality ObjectFacts Fixtures.

(** Every character of [s] passes [p]. *)
Fixpoint all (p : ascii -> bool) (s : string) : bool :=
  match s with
  | EmptyString => true
  | String c r => p c && all p r
  end.

(** A single word: no white space in it. *)
Definition noSpace (s : string) : bool := all (fun c => negb (is_space c)) s.

Definition noNewline (s : string) : bool :=
  all (fun c => negb (Ascii.eqb c "010")) s.

Lemma all_append (p : ascii -> bool) (a b : string) :
  all p (a ++ b)%string = all p a && all p b.
Proof.
  induction a as [|c r IH]; simpl; [reflexivity|].
  rewrite IH. apply andb_assoc.
Qed.

Lemma noSpace_noNewline (s : string) : noSpace s = true -> noNewline s = true.
Proof.
  unfold noSpace, noNewline.
  induction s as [|c r IH]; simpl; [reflexivity|].
  intro H. apply andb_true_iff in H. destruct H as [Hc Hr].
  rewrite (IH Hr), andb_true_r.
  destruct (Ascii.eqb c "010") eqn:E; [|reflexivity].
  apply Ascii.eqb_eq in E. subst c. discriminate.
Qed.

Lemma noSpace_cons (c : ascii) (r : string) :
  is_space c = false -> noSpace r = true -> noSpace (String c r) = true.
Proof.
  unfold noSpace. intros Hc Hr. cbn [all]. rewrite Hc, Hr. reflexivity.
Qed.

Lemma split_spaces_words (s : string) :
  forall prev, Forall (fun w => noSpace w = true) (split_spaces prev s).
Proof.
  induction s as [|c r IH]; intro prev; simpl.
  - repeat constructor.
  - destruct (is_space c) eqn:Ec.
    + destruct prev; [apply IH|]. constructor; [reflexivity | apply IH].
    + specialize (IH false).
      destruct (split_spaces false r) as [|h t].
      * repeat constructor. apply noSpace_cons; [exact Ec | reflexivity].
      * inversion IH; subst. constructor; [|assumption].
        apply noSpace_cons; assumption.
Qed.

Lemma split_on_free (s : string) :
  noNewline s = true -> split_on "010" s = [s].
Proof.
  unfold noNewline.
  induction s as [|c r IH]; simpl; [reflexivity|].
  intro H. apply andb_true_iff in H. destruct H as [Hc Hr].
  apply negb_true_iff in Hc. rewrite Hc, (IH Hr). reflexivity.
Qed.

Lemma split_on_line (x rest : string) :
  noNewline x = true ->
  split_on "010" (x ++ nl ++ rest)%string = x :: split_on "010" rest.
Proof.
  unfold noNewline.
  induction x as [|c r IH]; [reflexivity|].
  cbn [append all split_on].
  intro H. apply andb_true_iff in H. destruct H as [Hc Hr].
  apply negb_true_iff in Hc. rewrite Hc, (IH Hr). reflexivity.
Qed.

Lemma split_on_join (lines : list string) :
  lines <> [] -> Forall (fun l => noNewline l = true) lines ->
  split_on "010" (join nl lines) = lines.
Proof.
  induction lines as [|x rest IH]; intros Hne Hall; [congruence|].
  inversion Hall as [|? ? Hx Hrest]; subst.
  destruct rest as [|y rest'].
  - simpl. apply split_on_free. exact Hx.
  - change (join nl (x :: y :: rest'))
      with (x ++ nl ++ join nl (y :: rest'))%string.
    rewrite split_on_line by exact Hx.
    rewrite IH; [reflexivity | discriminate | exact Hrest].
Qed.

(** The lines [wrapText] makes of one paragraph. *)
Definition paragraphLines (maxCharsPerLine : Q) (paragraph : string)
  : list string :=
  match filter nonempty (split_spaces false paragraph) with
  | [] => [EmptyString]
  | first :: rest => pack maxCharsPerLine first rest
  end.

Lemma pack_nonempty m current words : pack m current words <> [].
Proof.
  revert current. induction words as [|w rest IH]; intro current; simpl.
  - discriminate.
  - destruct (Qle_bool _ m); [apply IH | discriminate].
Qed.

Lemma wrapParagraph_lines m paragraph :
  wrapParagraph m paragraph = join nl (paragraphLines m paragraph).
Proof.
  unfold wrapParagraph, paragraphLines.
  destruct (filter nonempty (split_spaces false paragraph)); reflexivity.
Qed.


Lemma append_assoc (a b c : string) :
  ((a ++ b) ++ c)%string = (a ++ (b ++ c))%string.
Proof. induction a as [|x r IH]; simpl; [reflexivity | rewrite IH; reflexivity]. Qed.



(** A line the wrap may produce: within the limit, or a single word. *)
Definition fits (maxCharsPerLine : Q) (line : string) : Prop :=
  (inject_Z (Z.of_nat (String.length line)) <= maxCharsPerLine)%Q
  \/ noSpace line = true.

Lemma pack_fits m words :
  forall current,
    fits m current -> noNewline current = true ->
    Forall (fun w => noSpace w = true) words ->
    Forall (fun l => fits m l /\ noNewline l = true) (pack m current words).
Proof.
  induction words as [|w rest IH]; intros current Hc Hn Hw; simpl.
  - constructor; [split; assumption | constructor].
  - inversion Hw as [|? ? Hw1 Hrest]; subst.
    destruct (Qle_bool _ m) eqn:E.
    + apply IH; [| |exact Hrest].
      * left. apply Qle_bool_iff. exact E.
      * apply noSpace_noNewline in Hw1.
        unfold noNewline in *. rewrite all_append, Hn.
        cbn [all andb]. rewrite Hw1. reflexivity.
    + constructor; [split; assumption|].
      apply IH; [right; exact Hw1 | apply noSpace_noNewline; exact Hw1
                | exact Hrest].
Qed.

Lemma paragraphLines_fit m paragraph :
  Forall (fun l => fits m l /\ noNewline l = true)
         (paragraphLines m paragraph).
Proof.
  unfold paragraphLines.
  pose proof (split_spaces_words paragraph false) as Hw.
  assert (Hf : Forall (fun w => noSpace w = true)
                      (filter nonempty (split_spaces false paragraph))).
  { apply Forall_forall. intros w Hin. apply filter_In in Hin.
    rewrite Forall_forall in Hw. apply Hw. tauto. }
  destruct (filter nonempty (split_spaces false paragraph)) as [|w rest].
  - constructor; [split; [right|]; reflexivity | constructor].
  - inversion Hf; subst.
    apply pack_fits; [right; assumption
                     | apply noSpace_noNewline; assumption | assumption].
Qed.



End TextWrap.

Module TextOverflowFix.

Import DiagramQuality ObjectFacts TextWrap Fixtures.









End TextOverflowFix.

(** ** Idempotence of the normalizer *)

Module NormalizeTwice.

Import Validators ObjectFacts Fixtures.

Definition setf {V : Type} (acc : list (string * V)) (kv : string * V) :=
  set (fst kv) (snd kv) acc.

Lemma NoDup_keys_set {V : Type} (k : string) (v : V) (o : list (string * V)) :
  NoDup (keys o) -> NoDup (keys (set k v o)).
Proof.
  intro H.
  destruct (in_dec string_dec k (keys o)) as [Hin|Hnin].
  - rewrite keys_set_in by exact Hin. exact H.
  - rewrite keys_set_new by exact Hnin.
    unfold keys. rewrite map_app. simpl.
    apply NoDup_app_remove_l with (l := []). simpl.
    apply Permutation_NoDup with (l := k :: map fst o).
    + apply Permutation_cons_append.
    + constructor; assumption.
Qed.

Lemma keys_set_extends {V : Type} (k : string) (v : V)
    (o : list (string * V)) :
  exists extra, keys (set k v o) = keys o ++ extra.
Proof.
  destruct (in_dec string_dec k (keys o)) as [Hin|Hnin].
  - exists []. rewrite keys_set_in by exact Hin. now rewrite app_nil_r.
  - exists [k]. rewrite keys_set_new by exact Hnin.
    unfold keys. now rewrite map_app.
Qed.

Lemma spread_keys {V : Type} (over base : list (string * V)) :
  NoDup (keys base) ->
  NoDup (keys (spread base over))
  /\ exists extra, keys (spread base over) = keys base ++ extra.
Proof.
  unfold spread. revert base.
  induction over as [|[k v] rest IH]; intros base Hnd; simpl.
  - split; [exact Hnd|]. exists []. now rewrite app_nil_r.
  - destruct (IH (set k v base) (NoDup_keys_set k v base Hnd))
      as [H1 [extra H2]].
    split; [exact H1|].
    destruct (keys_set_extends k v base) as [e1 He1].
    exists (e1 ++ extra). rewrite H2, He1, app_assoc. reflexivity.
Qed.

Lemma set_middle {V : Type} (k : string) (v v0 : V)
    (done rest : list (string * V)) :
  ~ In k (keys done) ->
  set k v (done ++ (k, v0) :: rest) = done ++ (k, v) :: rest.
Proof.
  induction done as [|[k' v'] d IH]; simpl; intro Hnin.
  - rewrite String.eqb_refl. reflexivity.
  - destruct (String.eqb k' k) eqn:E.
    + apply String.eqb_eq in E. tauto.
    + rewrite IH by tauto. reflexivity.
Qed.

Lemma overwrite_in_place {V : Type} (pre : list (string * V)) :
  forall done old,
    keys old = keys pre -> NoDup (keys done ++ keys pre) ->
    fold_left setf pre (done ++ old) = done ++ pre.
Proof.
  induction pre as [|[k v] pre' IH]; intros done old Hk Hnd.
  - destruct old; [reflexivity | discriminate].
  - destruct old as [|[k0 v0] old']; [discriminate|].
    simpl in Hk. inversion Hk; subst k0.
    simpl fold_left. unfold setf at 2. simpl fst. simpl snd.
    rewrite set_middle.
    + change (done ++ (k, v) :: old') with (done ++ [(k, v)] ++ old').
      rewrite app_assoc. rewrite IH.
      * rewrite <- app_assoc. reflexivity.
      * assumption.
      * unfold keys in *. rewrite map_app. simpl. rewrite <- app_assoc.
        exact Hnd.
    + simpl in Hnd. apply NoDup_remove_2 in Hnd.
      intro Hin. apply Hnd. apply in_or_app. left. exact Hin.
Qed.

Lemma append_new_keys {V : Type} (post : list (string * V)) :
  forall acc,
    NoDup (keys acc ++ keys post) -> fold_left setf post acc = acc ++ post.
Proof.
  induction post as [|[k v] post' IH]; intros acc Hnd; simpl.
  - now rewrite app_nil_r.
  - unfold setf at 2. simpl fst. simpl snd.
    rewrite keys_set_new.
    + rewrite IH.
      * rewrite <- app_assoc. reflexivity.
      * unfold keys in *. rewrite map_app. simpl. rewrite <- app_assoc.
        exact Hnd.
    + simpl in Hnd. apply NoDup_remove_2 in Hnd.
      intro Hin. apply Hnd. apply in_or_app. left. exact Hin.
Qed.

(** Spreading a record over defaults whose keys are its first keys gives
    the record back. *)
Lemma spread_over_prefix {V : Type} (base r : list (string * V)) :
  NoDup (keys r) -> (exists extra, keys r = keys base ++ extra) ->
  spread base r = r.
Proof.
  intros Hnd [extra Hk].
  set (n := List.length base).
  assert (Hpre : keys (firstn n r) = keys base).
  { unfold keys in *. rewrite <- firstn_map, Hk.
    rewrite firstn_app, firstn_all2 by (rewrite length_map; lia).
    replace (n - List.length (map fst base))%nat with 0%nat
      by (rewrite length_map; lia).
    simpl. now rewrite app_nil_r. }
  unfold spread. rewrite <- (firstn_skipn n r) at 1.
  rewrite fold_left_app.
  assert (Hsplit : keys r = keys (firstn n r) ++ keys (skipn n r)).
  { unfold keys. rewrite <- map_app, firstn_skipn. reflexivity. }
  change (fold_left (fun acc kv => set (fst kv) (snd kv) acc) (firstn n r) base)
    with (fold_left setf (firstn n r) ([] ++ base)).
  rewrite overwrite_in_place.
  - simpl. change (fold_left _ (skipn n r) (firstn n r))
      with (fold_left setf (skipn n r) (firstn n r)).
    rewrite append_new_keys; [apply firstn_skipn|].
    rewrite <- Hsplit. exact Hnd.
  - symmetry. exact Hpre.
  - simpl. rewrite Hsplit in Hnd. apply NoDup_app_remove_r in Hnd. exact Hnd.
Qed.

Definition defaultKeys : list string :=
  [ "id"; "type"; "x"; "y"; "width"; "height"; "angle"; "isDeleted";
    "version"; "versionNonce" ].

Lemma NoDup_defaultKeys : NoDup defaultKeys.
Proof.
  unfold defaultKeys.
  repeat (constructor; [simpl; intuition discriminate|]). constructor.
Qed.

Section WithHost.
Variable host : Host.

Lemma normalizeElement_shape (element : value) (t : nat) :
  exists base,
    keys base = defaultKeys
    /\ fst (normalizeElement host element t)
       = spread base (ensureObject element).
Proof.
  unfold normalizeElement, randomBelow, bind, ret, read.
  destruct (get (ensureObject element) "id") as [[| | |s| |]|];
    try destruct (0 <? String.length s)%nat;
    destruct (coalesce_opt (get (ensureObject element) "versionNonce") None);
    cbn [fst]; eexists; (split; [|reflexivity]); reflexivity.
Qed.

(** Normalizing leaves an element alone: one the normalizer made. *)
Definition settled (e : obj) : Prop :=
  forall t, fst (normalizeElement host (JObj e) t) = e.

Lemma normalizeElement_settled (element : value) (t : nat) :
  settled (fst (normalizeElement host element t)).
Proof.
  intro t2.
  destruct (normalizeElement_shape element t) as (b1 & Hb1 & ->).
  destruct (normalizeElement_shape (JObj (spread b1 (ensureObject element)))
              t2) as (b2 & Hb2 & ->).
  simpl ensureObject.
  destruct (spread_keys (ensureObject element) b1) as [Hnd [extra Hk]].
  { rewrite Hb1. apply NoDup_defaultKeys. }
  apply spread_over_prefix; [exact Hnd|].
  exists extra. rewrite Hb2, <- Hb1. exact Hk.
Qed.

Lemma mapM_settled (l : list value) :
  forall t, Forall settled (fst (mapM (normalizeElement host) l t)).
Proof.
  induction l as [|x rest IH]; intro t; simpl.
  - constructor.
  - unfold bind, ret.
    pose proof (normalizeElement_settled x t) as Hx.
    destruct (normalizeElement host x t) as [y t1]. simpl in Hx.
    specialize (IH t1).
    destruct (mapM (normalizeElement host) rest t1) as [ys t2].
    simpl in *. constructor; assumption.
Qed.

Lemma mapM_of_settled (els : list obj) :
  Forall settled els ->
  forall t, fst (mapM (normalizeElement host) (map JObj els) t) = els.
Proof.
  induction 1 as [|e rest He Hrest IH]; intro t; simpl; [reflexivity|].
  unfold bind, ret.
  specialize (He t).
  destruct (normalizeElement host (JObj e) t) as [y t1]. simpl in He.
  specialize (IH t1).
  destruct (mapM (normalizeElement host) (map JObj rest) t1) as [ys t2].
  simpl in *. congruence.
Qed.

Lemma ensureObject_records (l : list obj) :
  map (fun item => ensureObject item) (map JObj l) = l.
Proof.
  rewrite map_map. simpl. apply map_id.
Qed.

(** What [normalizeScene] returns, given the elements it normalized and
    the time it read. *)
Definition stamped (s : SceneEnvelope) (els : list obj) (now : string)
  : SceneEnvelope :=
  {| metadata :=
       {| sceneId := sceneId (metadata s);
          name := name (metadata s);
          createdAt := createdAt (metadata s);
          updatedAt := now;
          elementCount := List.length els;
          fileCount := List.length (keys (files s));
          engineHints := detectEngineHints els;
          revisionHash :=
            computeRevisionHash els (appState s) (files s) (libraryItems s) |};
     elements := els;
     appState := appState s;
     files := files s;
     libraryItems := libraryItems s |}.

Lemma normalizeScene_stamped (s : SceneEnvelope) (t : nat) :
  let r := mapM (normalizeElement host) (map JObj (elements s)) t in
  fst (normalizeScene host s t) = stamped s (fst r) (isoNow host (snd r)).
Proof.
  cbv zeta. unfold normalizeScene, bind, ret, read. simpl ensureArray.
  destruct (mapM (normalizeElement host) (map JObj (elements s)) t)
    as [els t'].
  simpl. rewrite ensureObject_records. reflexivity.
Qed.

(** C4, as the code has it.  Normalizing a normalized scene gives it back
    in every field but one: elements, app state, files, library items,
    the two counts, the hints and the revision hash are the same, and
    [updatedAt] is stamped anew from the clock.  The two scenes are equal
    when the two stamps are. *)
Theorem normalize_twice (sc : SceneEnvelope) (t1 t2 : nat) :
  let once := fst (normalizeScene host sc t1) in
  let twice := fst (normalizeScene host once t2) in
  twice = with_metadata once
            (with_updatedAt (metadata once) (updatedAt (metadata twice)))
  /\ (updatedAt (metadata twice) = updatedAt (metadata once) -> twice = once).
Proof.
  cbv zeta.
  rewrite (normalizeScene_stamped sc t1). cbv zeta.
  set (els1 := fst (mapM (normalizeElement host) (map JObj (elements sc)) t1)).
  set (now1 := isoNow host _).
  assert (Hels : Forall settled els1) by apply mapM_settled.
  rewrite (normalizeScene_stamped (stamped sc els1 now1) t2). cbv zeta.
  simpl elements.
  rewrite (mapM_of_settled els1 Hels t2).
  set (now2 := isoNow host _).
  split; [reflexivity|].
  simpl. intros ->. reflexivity.
Qed.

End WithHost.

Lemma normalize_twice_witness :
  let once := fst (normalizeScene stillHost (emptyScene "s3") 0%nat) in
  let twice := fst (normalizeScene stillHost once 3%nat) in
  updatedAt (metadata twice) = updatedAt (metadata once) /\ twice = once.
Proof.
  cbv zeta. split; [reflexivity|].
  apply (proj2 (normalize_twice stillHost (emptyScene "s3") 0%nat 3%nat)).
  reflexivity.
Defined.

(** Two normalizations a millisecond apart differ, in [updatedAt]. *)
Lemma normalize_twice_restamps :
  let first := normalizeScene tickingHost (emptyScene "s3") 0%nat in
  fst (normalizeScene tickingHost (fst first) (snd first)) <> fst first.
Proof.
  cbv zeta. intro H.
  apply (f_equal (fun s => updatedAt (metadata s))) in H.
  vm_compute in H. discriminate.
Qed.

End NormalizeTwice.

(** ** Connector bindings written by the quality pass *)

Module BindingRepair.

Import DiagramQuality ObjectFacts Fixtures.

Lemma set_nth_overflow {A : Type} (i : nat) (x : A) (l : list A) :
  (List.length l <= i)%nat -> set_nth i x l = l.
Proof.
  revert i. induction l as [|y rest IH]; intros [|i] H; simpl in *;
    try reflexivity; try lia.
  rewrite IH by lia. reflexivity.
Qed.

(** After [a[j] = x], position [p] holds what it held, or it is [j] and
    holds [x]. *)
Lemma nth_set_nth_cases {A : Type} (j p : nat) (x d : A) (l : list A) :
  nth p (set_nth j x l) d = nth p l d
  \/ (p = j /\ nth p (set_nth j x l) d = x).
Proof.
  destruct (Nat.eq_dec j p) as [->|Hne].
  - destruct (Nat.lt_ge_cases p (List.length l)) as [Hlt|Hge].
    + right. split; [reflexivity | apply nth_set_nth_same; exact Hlt].
    + left. rewrite set_nth_overflow by exact Hge. reflexivity.
  - left. apply nth_set_nth_other. exact Hne.
Qed.

Lemma get_ensureBoundElementsRef (target : obj) (c ty key : string) :
  key <> "boundElements" ->
  get (ensureBoundElementsRef target c ty) key = get target key.
Proof.
  intro Hk. unfold ensureBoundElementsRef.
  destruct (existsb _ _); [reflexivity|].
  apply get_set_other. congruence.
Qed.

(** The two ends of a connector, with the keys the pass reads and writes
    for each. *)
Inductive End : Type := AtStart | AtEnd.

Definition sideName (e : End) : string :=
  match e with AtStart => "start" | AtEnd => "end" end.

Definition bindingKey (e : End) : string :=
  (sideName e ++ "Binding")%string.

Definition hintKey (e : End) : string :=
  match e with AtStart => "fromId" | AtEnd => "toId" end.

Lemma bindingKey_not_boundElements (e : End) :
  bindingKey e <> "boundElements".
Proof. destruct e; discriminate. Qed.

(** What [repairSide] does to the array: lengths and all keys but the
    binding of this end and [boundElements] stay; away from position [i]
    only [boundElements] may change; and the binding at [i] is as before or
    is a fresh binding to the resolved id. *)
Lemma repairSide_effect (fixing : bool) (idx : list (string * nat))
    (i : nat) (id type : string) (e : End) (b r : option string)
    (st : State) :
  let st' := repairSide fixing idx i id type (sideName e) b r st in
  List.length (els st') = List.length (els st)
  /\ (forall p key, key <> bindingKey e -> key <> "boundElements" ->
        get (nth p (els st') []) key = get (nth p (els st) []) key)
  /\ (forall p key, p <> i -> key <> "boundElements" ->
        get (nth p (els st') []) key = get (nth p (els st) []) key)
  /\ (get (nth i (els st') []) (bindingKey e)
      = get (nth i (els st) []) (bindingKey e)
      \/ exists target,
           r = Some target /\ b <> Some target
           /\ get (nth i (els st') []) (bindingKey e)
              = Some (binding target)).
Proof.
  cbv zeta. unfold repairSide.
  destruct r as [r|]; [|simpl; auto].
  destruct (nonempty r); [|simpl; auto].
  destruct (match b with
            | Some b0 => negb (String.eqb b0 r)
            | None => true
            end) eqn:Hb; [|auto].
  destruct fixing; [|auto].
  cbn [els].
  set (bound := set_nth i (setBinding (nth i (els st) []) _ r) (els st)).
  assert (Hbound_other :
            forall p key, key <> bindingKey e ->
              get (nth p bound []) key = get (nth p (els st) []) key).
  { intros p key Hk. subst bound.
    destruct (nth_set_nth_cases i p
                (setBinding (nth i (els st) []) (sideName e ++ "Binding") r)
                [] (els st)) as [->|[-> ->]]; [reflexivity|].
    unfold setBinding. apply get_set_other.
    unfold bindingKey in Hk. congruence. }
  assert (Hbound_away :
            forall p, p <> i -> nth p bound [] = nth p (els st) []).
  { intros p Hp. subst bound. apply nth_set_nth_other. congruence. }
  set (linked := match get idx r with
                 | Some j =>
                     set_nth j
                       (ensureBoundElementsRef (nth j bound []) id type) bound
                 | None => bound
                 end).
  assert (Hlinked :
            forall p key, key <> "boundElements" ->
              get (nth p linked []) key = get (nth p bound []) key).
  { intros p key Hk. subst linked.
    destruct (get idx r) as [j|]; [|reflexivity].
    destruct (nth_set_nth_cases j p
                (ensureBoundElementsRef (nth j bound []) id type) [] bound)
      as [->|[-> ->]]; [reflexivity|].
    apply get_ensureBoundElementsRef. exact Hk. }
  split.
  { subst linked bound. destruct (get idx r);
      rewrite ?length_set_nth; reflexivity. }
  split.
  { intros p key H1 H2. rewrite Hlinked by exact H2.
    apply Hbound_other. exact H1. }
  split.
  { intros p key Hp Hk. rewrite Hlinked by exact Hk.
    rewrite Hbound_away by exact Hp. reflexivity. }
  rewrite Hlinked by apply bindingKey_not_boundElements.
  subst bound.
  destruct (nth_set_nth_cases i i
              (setBinding (nth i (els st) []) (sideName e ++ "Binding") r)
              [] (els st)) as [->|[_ ->]]; [left; reflexivity|].
  right. exists r. split; [reflexivity|]. split.
  - destruct b as [b0|]; [|discriminate].
    apply negb_true_iff, String.eqb_neq in Hb. congruence.
  - unfold setBinding. apply get_set_same.
Qed.

(** What the pass reads of a connector for one of its ends. *)
Definition hintOf (element : obj) (e : End) : option string :=
  as_string (get (match as_object (get element "customData") with
                  | Some o => o
                  | None => []
                  end) (hintKey e)).

Definition currentOf (element : obj) (e : End) : option string :=
  extractBindingId (get element (bindingKey e)).

Definition endpointOf (element : obj) (e : End) : Point :=
  match e with
  | AtStart => fst (connectorEndpoints element)
  | AtEnd => snd (connectorEndpoints element)
  end.

Definition resolvedOf (idx : list (string * nat)) (current : list obj)
    (i : nat) (e : End) : option string :=
  let element := nth i current [] in
  resolveTarget idx current (idOf element) (hintOf element e)
                (currentOf element e) (endpointOf element e).

(** The keys of an element that the pass may write. *)
Definition mutableKeys : list string :=
  [ "boundElements"; "startBinding"; "endBinding"; "text"; "originalText";
    "width"; "height" ].

Lemma repairConnector_effect (fixing : bool) (idx : list (string * nat))
    (i : nat) (st : State) :
  let element := nth i (els st) [] in
  let st' := repairConnector fixing idx i (idOf element) (typeOf element) st in
  List.length (els st') = List.length (els st)
  /\ (forall p key, ~ In key mutableKeys ->
        get (nth p (els st') []) key = get (nth p (els st) []) key)
  /\ (forall p key, p <> i -> key <> "boundElements" ->
        get (nth p (els st') []) key = get (nth p (els st) []) key)
  /\ (forall e,
        get (nth i (els st') []) (bindingKey e)
        = get (nth i (els st) []) (bindingKey e)
        \/ exists target,
             resolvedOf idx (els st) i e = Some target
             /\ currentOf element e <> Some target
             /\ get (nth i (els st') []) (bindingKey e)
                = Some (binding target)).
Proof.
  cbv zeta. unfold repairConnector, resolvedOf, hintOf, currentOf, endpointOf.
  set (element := nth i (els st) []).
  destruct (connectorEndpoints element) as [start finish]. cbn [fst snd].
  set (custom := match as_object (get element "customData") with
                 | Some o => o
                 | None => []
                 end).
  set (rs := resolveTarget idx (els st) (idOf element)
               (as_string (get custom "fromId"))
               (extractBindingId (get element "startBinding")) start).
  set (re := resolveTarget idx (els st) (idOf element)
               (as_string (get custom "toId"))
               (extractBindingId (get element "endBinding")) finish).
  pose proof (repairSide_effect fixing idx i (idOf element) (typeOf element)
                AtStart (extractBindingId (get element "startBinding")) rs st)
    as Hs.
  cbv zeta in Hs. cbn [sideName] in Hs.
  set (st1 := repairSide fixing idx i (idOf element) (typeOf element) "start"
                (extractBindingId (get element "startBinding")) rs st) in *.
  pose proof (repairSide_effect fixing idx i (idOf element) (typeOf element)
                AtEnd (extractBindingId (get element "endBinding")) re st1)
    as He.
  cbv zeta in He. cbn [sideName] in He.
  set (st2 := repairSide fixing idx i (idOf element) (typeOf element) "end"
                (extractBindingId (get element "endBinding")) re st1) in *.
  destruct Hs as (Hs1 & Hs2 & Hs3 & Hs4).
  destruct He as (He1 & He2 & He3 & He4).
  split; [congruence|]. split.
  { intros p key Hk. rewrite He2, Hs2; try reflexivity;
      intro Heq; apply Hk; subst key; simpl; tauto. }
  split.
  { intros p key Hp Hk. rewrite He3, Hs3 by assumption. reflexivity. }
  intros [|].
  - rewrite (He2 i (bindingKey AtStart)) by discriminate.
    destruct Hs4 as [Hs4|(target & H1 & H2 & H3)]; [left; exact Hs4|].
    right. exists target. auto.
  - destruct He4 as [He4|(target & H1 & H2 & H3)].
    + left. etransitivity; [exact He4|]. apply Hs2; discriminate.
    + right. exists target. auto.
Qed.

Lemma repairText_effect (fixing : bool) (idx : list (string * nat))
    (i : nat) (id : string) (st : State) :
  let st' := repairText fixing idx i id st in
  List.length (els st') = List.length (els st)
  /\ (forall p key,
        ~ In key ["text"; "originalText"; "width"; "height"] ->
        get (nth p (els st') []) key = get (nth p (els st) []) key)
  /\ (forall p, p <> i -> nth p (els st') [] = nth p (els st) []).
Proof.
  cbv zeta. unfold repairText.
  destruct (as_string (get (nth i (els st) []) "containerId")) as [c|];
    [|auto].
  destruct (nonempty c); [|auto].
  destruct (get idx c) as [j|]; [|auto].
  destruct (truthy (get (nth j (els st) []) "isDeleted")); [auto|].
  destruct (negb _); [|auto].
  destruct fixing; [|auto].
  cbn [els].
  split; [apply length_set_nth|]. split.
  - intros p key Hk.
    destruct (nth_set_nth_cases i p
                (rewrap (nth i (els st) [])
                        (maxTextWidthIn (nth j (els st) []))) [] (els st))
      as [->|[-> ->]]; [reflexivity|].
    unfold rewrap. simpl in Hk.
    rewrite !get_set_other; [reflexivity | | | |];
      intro Heq; apply Hk; subst key; tauto.
  - intros p Hp. apply nth_set_nth_other. congruence.
Qed.

Lemma visit_effect (idx : list (string * nat)) (i : nat) (st : State) :
  let st' := visit true idx st i in
  List.length (els st') = List.length (els st)
  /\ (forall p key, ~ In key mutableKeys ->
        get (nth p (els st') []) key = get (nth p (els st) []) key)
  /\ (forall p key, p <> i -> key <> "boundElements" ->
        get (nth p (els st') []) key = get (nth p (els st) []) key)
  /\ (forall e,
        get (nth i (els st') []) (bindingKey e)
        = get (nth i (els st) []) (bindingKey e)
        \/ exists target,
             resolvedOf idx (els st) i e = Some target
             /\ currentOf (nth i (els st) []) e <> Some target
             /\ get (nth i (els st') []) (bindingKey e)
                = Some (binding target)).
Proof.
  cbv zeta. unfold visit.
  destruct (negb (nonempty (idOf (nth i (els st) [])))); [auto|].
  pose proof (repairConnector_effect true idx i st) as Hc. cbv zeta in Hc.
  set (st1 := if is_connector (typeOf (nth i (els st) []))
              then repairConnector true idx i (idOf (nth i (els st) []))
                     (typeOf (nth i (els st) [])) st
              else st).
  assert (H1 : List.length (els st1) = List.length (els st)
               /\ (forall p key, ~ In key mutableKeys ->
                     get (nth p (els st1) []) key
                     = get (nth p (els st) []) key)
               /\ (forall p key, p <> i -> key <> "boundElements" ->
                     get (nth p (els st1) []) key
                     = get (nth p (els st) []) key)
               /\ (forall e,
                     get (nth i (els st1) []) (bindingKey e)
                     = get (nth i (els st) []) (bindingKey e)
                     \/ exists target,
                          resolvedOf idx (els st) i e = Some target
                          /\ currentOf (nth i (els st) []) e <> Some target
                          /\ get (nth i (els st1) []) (bindingKey e)
                             = Some (binding target))).
  { subst st1. destruct (is_connector _); [exact Hc | auto]. }
  destruct (String.eqb (typeOf (nth i (els st) [])) "text"); [|exact H1].
  pose proof (repairText_effect true idx i (idOf (nth i (els st) [])) st1)
    as Ht. cbv zeta in Ht.
  destruct H1 as (A1 & A2 & A3 & A4). destruct Ht as (B1 & B2 & B3).
  split; [congruence|]. split.
  { intros p key Hk. rewrite B2, A2; [reflexivity | exact Hk |].
    intro Hin. apply Hk. simpl in *. tauto. }
  split.
  { intros p key Hp Hk. rewrite B3 by exact Hp. apply A3; assumption. }
  intro e. rewrite B2; [apply A4|].
  destruct e; simpl; intuition discriminate.
Qed.

(** An element that geometric inference may choose for a connector: it
    has an id, other than the connector's, is no connector and is not
    soft-deleted. *)
Definition live (self target : string) (element : obj) : Prop :=
  idOf element = target
  /\ nonempty target = true
  /\ target <> self
  /\ is_connector (typeOf element) = false
  /\ truthy (get element "isDeleted") = false.

Lemma inferStep_choice (point : Point) (self : string)
    (best : option (string * Q)) (element : obj) :
  inferStep point self best element = best
  \/ exists d, inferStep point self best element = Some (idOf element, d)
               /\ live self (idOf element) element.
Proof.
  unfold inferStep.
  destruct (nonempty (idOf element)) eqn:Hn; [|left; reflexivity].
  destruct (String.eqb (idOf element) self) eqn:Hs; [left; reflexivity|].
  destruct (is_connector (typeOf element)) eqn:Hc; [left; reflexivity|].
  destruct (truthy (get element "isDeleted")) eqn:Hd; [left; reflexivity|].
  cbn [negb orb].
  destruct (negb (pointInsideBounds point (boundsFor element) 12));
    [left; reflexivity|].
  assert (Hlive : live self (idOf element) element).
  { repeat split; try assumption. apply String.eqb_neq. exact Hs. }
  destruct best as [[b d]|].
  - destruct (negb (Qle_bool d _)); [|left; reflexivity].
    right. eexists. split; [reflexivity | exact Hlive].
  - right. eexists. split; [reflexivity | exact Hlive].
Qed.

Lemma infer_loop_live (point : Point) (self : string)
    (candidates : list obj) :
  forall best target d,
    fold_left (inferStep point self) candidates best = Some (target, d) ->
    best = Some (target, d)
    \/ exists element, In element candidates /\ live self target element.
Proof.
  induction candidates as [|c rest IH]; intros best target d H; simpl in *.
  - left. exact H.
  - destruct (IH _ _ _ H) as [Hb|(e & Hin & Hl)].
    + destruct (inferStep_choice point self best c) as [Heq|(d' & Heq & Hl)].
      * left. congruence.
      * right. exists c. split; [left; reflexivity|].
        rewrite Heq in Hb. inversion Hb; subst. exact Hl.
    + right. exists e. split; [right; exact Hin | exact Hl].
Qed.

Lemma inferBindingTargetId_live (point : Point) (self target : string)
    (candidates : list obj) :
  inferBindingTargetId point candidates self = Some target ->
  exists element, In element candidates /\ live self target element.
Proof.
  unfold inferBindingTargetId. intro H.
  destruct (fold_left (inferStep point self) candidates None)
    as [[t d]|] eqn:E; [|discriminate].
  simpl in H. inversion H; subst.
  destruct (infer_loop_live _ _ _ _ _ _ E) as [Hb|Hex];
    [discriminate | exact Hex].
Qed.

Lemma has_set {V : Type} (k id : string) (v : V) (m : list (string * V)) :
  has (set k v m) id = true <-> k = id \/ has m id = true.
Proof.
  rewrite !has_true_keys.
  destruct (in_dec string_dec k (keys m)) as [Hin|Hnin].
  - rewrite keys_set_in by exact Hin. split; [tauto|].
    intros [->|H]; assumption.
  - rewrite keys_set_new by exact Hnin. unfold keys. rewrite map_app.
    rewrite in_app_iff. simpl. tauto.
Qed.

Lemma indexFrom_has (id : string) (l : list obj) :
  forall i m,
    has (indexFrom i l m) id = true
    <-> has m id = true
        \/ exists element,
             In element l /\ idOf element = id /\ nonempty id = true.
Proof.
  induction l as [|e rest IH]; intros i m; simpl.
  - split; [tauto|]. intros [H|(x & [] & _)]. exact H.
  - rewrite IH. destruct (nonempty (idOf e)) eqn:Hn.
    + rewrite has_set. split.
      * intros [[Heq|Hm]|(x & Hin & Hx)].
        -- right. exists e. subst id. auto.
        -- left. exact Hm.
        -- right. exists x. tauto.
      * intros [Hm|(x & [Heq|Hin] & Hid & Hne)].
        -- left. right. exact Hm.
        -- subst x. left. left. exact Hid.
        -- right. exists x. auto.
    + split.
      * intros [Hm|(x & Hin & Hx)]; [left; exact Hm|].
        right. exists x. tauto.
      * intros [Hm|(x & [Heq|Hin] & Hid & Hne)].
        -- left. exact Hm.
        -- subst x. congruence.
        -- right. exists x. auto.
Qed.

Lemma known_has (idx : list (string * nat)) (id : option string)
    (target : string) :
  known idx id = true -> id = Some target -> has idx target = true.
Proof.
  intros H ->. simpl in H. apply andb_true_iff in H. tauto.
Qed.

(** Where a resolved target comes from. *)
Lemma resolveTarget_source (idx : list (string * nat)) (current : list obj)
    (self : string) (hintId currentId : option string) (endpoint : Point)
    (target : string) :
  resolveTarget idx current self hintId currentId endpoint = Some target ->
  (known idx currentId = true /\ currentId = Some target)
  \/ (known idx currentId = false /\ known idx hintId = true
      /\ hintId = Some target)
  \/ (known idx currentId = false /\ known idx hintId = false
      /\ inferBindingTargetId endpoint current self = Some target).
Proof.
  unfold resolveTarget.
  destruct (known idx currentId); [auto|].
  destruct (known idx hintId); auto.
Qed.

Section Pass.
Variable original : list obj.

Let idx : list (string * nat) := indexFrom 0 original [].

(** The element at position [p] of [current] reads as in the original
    array on every key the pass never writes. *)
Definition sameIdentity (current : list obj) : Prop :=
  forall p key, ~ In key mutableKeys ->
    get (nth p current []) key = get (nth p original []) key.

(** Some element of the document has the id [target]. *)
Definition inDocument (target : string) : Prop :=
  exists element, In element original /\ idOf element = target.

(** Some element of the document has the id [target], is no connector, is
    not soft-deleted, and is not the connector [self]. *)
Definition liveInDocument (self target : string) : Prop :=
  exists element, In element original /\ live self target element.

(** The binding [v] found at position [p] for the end [e] is the one the
    original element had, or one the pass wrote in keeping with the rules
    of [resolveTarget]. *)
Definition bindingOk (p : nat) (e : End) (v : option value) : Prop :=
  v = get (nth p original []) (bindingKey e)
  \/ exists target,
       v = Some (binding target)
       /\ has idx target = true
       /\ inDocument target
       /\ (known idx (currentOf (nth p original []) e) = false ->
           known idx (hintOf (nth p original []) e) = false ->
           liveInDocument (idOf (nth p original [])) target).

(** The state of the loop before it visits position [k]. *)
Definition inv (k : nat) (st : State) : Prop :=
  List.length (els st) = List.length original
  /\ sameIdentity (els st)
  /\ (forall p key, (k <= p)%nat -> key <> "boundElements" ->
        get (nth p (els st) []) key = get (nth p original []) key)
  /\ (forall p e, bindingOk p e (get (nth p (els st) []) (bindingKey e))).

Lemma idOf_same (a b : obj) : get a "id" = get b "id" -> idOf a = idOf b.
Proof. unfold idOf. intros ->. reflexivity. Qed.

Lemma typeOf_same (a b : obj) :
  get a "type" = get b "type" -> typeOf a = typeOf b.
Proof. unfold typeOf. intros ->. reflexivity. Qed.

Lemma live_transfer (current : list obj) (self target : string)
    (element : obj) :
  List.length current = List.length original -> sameIdentity current ->
  In element current -> live self target element ->
  liveInDocument self target.
Proof.
  intros Hlen Hsame Hin (H1 & H2 & H3 & H4 & H5).
  destruct (In_nth _ _ [] Hin) as (p & Hp & Hnth).
  exists (nth p original []). split.
  - apply nth_In. unfold obj in *. lia.
  - assert (Hid : get element "id" = get (nth p original []) "id").
    { rewrite <- Hnth. apply Hsame. simpl. intuition discriminate. }
    assert (Hty : get element "type" = get (nth p original []) "type").
    { rewrite <- Hnth. apply Hsame. simpl. intuition discriminate. }
    assert (Hdel : get element "isDeleted"
                   = get (nth p original []) "isDeleted").
    { rewrite <- Hnth. apply Hsame. simpl. intuition discriminate. }
    unfold live.
    rewrite <- (idOf_same _ _ Hid), <- (typeOf_same _ _ Hty), <- Hdel.
    auto.
Qed.

Lemma live_inDocument (self target : string) :
  liveInDocument self target -> inDocument target.
Proof. intros (e & Hin & Hid & _). exists e. auto. Qed.

Lemma live_indexed (self target : string) :
  liveInDocument self target -> has idx target = true.
Proof.
  intros (e & Hin & Hid & Hne & _). subst idx.
  apply indexFrom_has. right. exists e. auto.
Qed.

Lemma has_idx_inDocument (target : string) :
  has idx target = true -> inDocument target.
Proof.
  subst idx. intro H. apply indexFrom_has in H.
  destruct H as [H|(e & Hin & Hid & _)]; [discriminate|].
  exists e. auto.
Qed.

Lemma visit_inv (k : nat) (st : State) :
  inv k st -> inv (S k) (visit true idx st k).
Proof.
  intros (I1 & I2 & I3 & I4).
  destruct (visit_effect idx k st) as (V1 & V2 & V3 & V4).
  assert (Hel : forall key, key <> "boundElements" ->
                  get (nth k (els st) []) key = get (nth k original []) key).
  { intros key Hk. apply I3; [lia | exact Hk]. }
  split; [congruence|]. split.
  { intros p key Hk. rewrite V2 by exact Hk. apply I2. exact Hk. }
  split.
  { intros p key Hp Hk. rewrite V3 by (lia || exact Hk).
    apply I3; [lia | exact Hk]. }
  intros p e.
  destruct (Nat.eq_dec p k) as [->|Hne].
  2:{ rewrite V3; [apply I4 | exact Hne
                   | apply bindingKey_not_boundElements]. }
  destruct (V4 e) as [Hsame|(target & Hres & Hcur & Hget)].
  { rewrite Hsame. apply I4. }
  rewrite Hget. right. exists target.
  assert (Hid : idOf (nth k (els st) []) = idOf (nth k original [])).
  { apply idOf_same, Hel. discriminate. }
  assert (Hc : currentOf (nth k (els st) []) e
               = currentOf (nth k original []) e).
  { unfold currentOf. rewrite Hel by apply bindingKey_not_boundElements.
    reflexivity. }
  assert (Hh : hintOf (nth k (els st) []) e = hintOf (nth k original []) e).
  { unfold hintOf. rewrite Hel by discriminate. reflexivity. }
  unfold resolvedOf in Hres. cbv zeta in Hres.
  rewrite Hid, Hc, Hh in Hres. rewrite Hc in Hcur.
  apply resolveTarget_source in Hres.
  split; [reflexivity|].
  destruct Hres as [[_ Heq]|[(Hk1 & Hk2 & Heq)|(Hk1 & Hk2 & Hinf)]].
  - contradiction.
  - assert (Hhas : has idx target = true)
      by (eapply known_has; eassumption).
    split; [exact Hhas|]. split.
    + apply has_idx_inDocument. exact Hhas.
    + intros _ Hk. congruence.
  - apply inferBindingTargetId_live in Hinf.
    destruct Hinf as (el & Hin & Hlive).
    pose proof (live_transfer _ _ _ _ I1 I2 Hin Hlive) as Hdoc.
    split; [apply live_indexed with (self := idOf (nth k original []));
            exact Hdoc|].
    split; [eapply live_inDocument; exact Hdoc | intros _ _; exact Hdoc].
Qed.

Lemma loop_inv (n : nat) :
  forall k st,
    inv k st -> inv (k + n) (fold_left (visit true idx) (seq k n) st).
Proof.
  induction n as [|n IH]; intros k st H; simpl.
  - rewrite Nat.add_0_r. exact H.
  - rewrite <- Nat.add_succ_comm. apply IH. apply visit_inv. exact H.
Qed.

End Pass.

(** C7, as the code has it.  Run the pass in fix mode and take a position
    of the element array and one end of the connector there.  If the
    binding of that end is not what the same element had before, the pass
    wrote it: it is a binding, with focus and gap 0, to an id that the
    index [idToElement] has, the id of an element of the document.  If moreover neither the binding the connector
    had nor the hint of its [customData] named an element of the document,
    so that the target was inferred from the geometry, that element is no
    connector, is not soft-deleted and is not the connector itself.  A
    target taken from a hint is only known to exist. *)
Theorem written_binding_resolves (sc : SceneEnvelope) (i : nat) (e : End)
    (Hwritten :
       get (nth i (elements (scene (applyDiagramQuality sc true))) [])
           (bindingKey e)
       <> get (nth i (elements sc) []) (bindingKey e)) :
  let idToElement := indexFrom 0 (elements sc) [] in
  let connector := nth i (elements sc) [] in
  exists target,
    get (nth i (elements (scene (applyDiagramQuality sc true))) [])
        (bindingKey e)
    = Some (binding target)
    /\ has idToElement target = true
    /\ inDocument (elements sc) target
    /\ (known idToElement (currentOf connector e) = false ->
        known idToElement (hintOf connector e) = false ->
        liveInDocument (elements sc) (idOf connector) target).
Proof.
  cbv zeta. unfold applyDiagramQuality in *. cbn [scene elements] in *.
  rewrite map_id in *.
  pose proof (loop_inv (elements sc) (List.length (elements sc)) 0
                {| els := elements sc; found := []; fixes := 0 |}) as H.
  destruct H as (_ & _ & _ & H4).
  { split; [reflexivity|]. split; [intros p key _; reflexivity|].
    split; [intros p key _ _; reflexivity | intros p e'; left; reflexivity]. }
  unfold with_elements in *. cbn [elements] in *.
  destruct (H4 i e) as [Hsame|(target & Hget & Hhas & Hdoc & Hlive)].
  - contradiction.
  - exists target. auto.
Qed.

End BindingRepair.

Module BindingRepairExamples.

Import DiagramQuality BindingRepair Fixtures.

(** The two boxes of the quality test and its arrow, without hints. *)
Definition plainArrow : obj :=
  [ ("id", JStr "c1"); ("type", JStr "arrow"); ("x", int 80); ("y", int 40);
    ("points", JArr [ JArr [int 0; int 0]; JArr [int 320; int 0] ]) ].

Definition inferredScene : SceneEnvelope :=
  with_elements (emptyScene "s4") [n1; n2; plainArrow].

Lemma written_binding_witness :
  get (nth 2 (elements (scene (applyDiagramQuality inferredScene true))) [])
      (bindingKey AtStart)
  <> get (nth 2 (elements inferredScene) []) (bindingKey AtStart)
  /\ exists target,
       get (nth 2 (elements (scene (applyDiagramQuality inferredScene true)))
                [])
           (bindingKey AtStart)
       = Some (binding target)
       /\ has (indexFrom 0 (elements inferredScene) []) target = true
       /\ inDocument (elements inferredScene) target
       /\ (known (indexFrom 0 (elements inferredScene) [])
                 (currentOf (nth 2 (elements inferredScene) []) AtStart)
           = false ->
           known (indexFrom 0 (elements inferredScene) [])
                 (hintOf (nth 2 (elements inferredScene) []) AtStart)
           = false ->
           liveInDocument (elements inferredScene)
                          (idOf (nth 2 (elements inferredScene) [])) target).
Proof.
  assert (H : get (nth 2 (elements (scene (applyDiagramQuality inferredScene
                                                               true))) [])
                  (bindingKey AtStart)
              <> get (nth 2 (elements inferredScene) []) (bindingKey AtStart))
    by (vm_compute; discriminate).
  split; [exact H|].
  exact (written_binding_resolves inferredScene 2 AtStart H).
Defined.

(** A soft-deleted box, and an arrow whose hints name that box and the
    arrow itself. *)
Definition deletedBox : obj :=
  [ ("id", JStr "d"); ("type", JStr "rectangle"); ("x", int 0); ("y", int 0);
    ("width", int 100); ("height", int 100); ("isDeleted", JBool true) ].

Definition hintedArrow : obj :=
  [ ("id", JStr "a"); ("type", JStr "arrow"); ("x", int 500); ("y", int 500);
    ("points", JArr [ JArr [int 0; int 0]; JArr [int 50; int 0] ]);
    ("customData", JObj [ ("fromId", JStr "d"); ("toId", JStr "a") ]) ].

Definition hintedScene : SceneEnvelope :=
  with_elements (emptyScene "s5") [deletedBox; hintedArrow].

(** The pass binds the start of the arrow to the soft-deleted box and its
    end to the arrow itself: a hint is followed as soon as the id exists. *)
Lemma hinted_binding_to_deleted_and_connector :
  let r := applyDiagramQuality hintedScene true in
  let arrow := nth 1 (elements (scene r)) [] in
  fixesApplied r = 2%nat
  /\ get (nth 1 (elements hintedScene) []) "startBinding" = None
  /\ get (nth 1 (elements hintedScene) []) "endBinding" = None
  /\ get arrow "startBinding" = Some (binding "d")
  /\ get arrow "endBinding" = Some (binding "a")
  /\ (forall element,
        In element (elements hintedScene) -> idOf element = "d" ->
        truthy (get element "isDeleted") = true)
  /\ (forall element,
        In element (elements hintedScene) -> idOf element = "a" ->
        is_connector (typeOf element) = true).
Proof.
  cbv zeta.
  repeat (split; [reflexivity|]).
  split; intros element [<-|[<-|[]]] H; try reflexivity;
    vm_compute in H; discriminate.
Qed.

End BindingRepairExamples.

(** ** What [applyPatch] runs after the operations *)

Module PatchPipeline.

Import JsonEngine NormalizeTwice Fixtures.

(** After the operations [applyPatch] runs the normalizer and recomputes
    the revision hash, which the normalizer had already set to the same
    value; it runs nothing else. *)
Lemma applyPatch_normalizes (host : Host) (sc : SceneEnvelope)
    (operations : list ScenePatchOperation) (t t' : nat) (p : PatchResult) :
  applyPatch host sc operations t = (Ok p, t') ->
  exists st t1,
    applyOperations host {| next := sc; changed := [] |} operations t
    = (Ok st, t1)
    /\ scene p = fst (Validators.normalizeScene host (next st) t1)
    /\ changedElementIds p = sort_with default_compare (changed st).
Proof.
  unfold applyPatch, bind, ret, normalize. intro H.
  destruct (applyOperations host {| next := sc; changed := [] |} operations t)
    as [[st|e] t1]; [|discriminate].
  exists st, t1. split; [reflexivity|].
  pose proof (normalizeScene_stamped host (next st) t1) as Hs.
  cbv zeta in Hs.
  destruct (Validators.normalizeScene host (next st) t1) as [n t2].
  simpl in Hs. inversion H; subst. simpl. split; reflexivity.
Qed.

(** C1, on the quality test of the repository.  [applyPatch] adds the two
    boxes, the label and the hinted arrow and returns the arrow unbound and
    the label unwrapped; the quality pass in fix mode, run on the scene
    returned, binds the arrow to the two boxes and rewraps the label, three
    fixes that [applyPatch] did not make. *)
Lemma applyPatch_skips_quality_pass :
  match fst (applyPatch tickingHost (emptyScene "quality-scene")
                        qualityBatch 0%nat) with
  | Throw _ => False
  | Ok p =>
      let arrow := nth 3 (elements (scene p)) [] in
      let repaired := DiagramQuality.applyDiagramQuality (scene p) true in
      let arrow' := nth 3 (elements (DiagramQuality.scene repaired)) [] in
      DiagramQuality.idOf arrow = "c1"
      /\ get arrow "startBinding" = None
      /\ get arrow "endBinding" = None
      /\ get arrow' "startBinding" = Some (DiagramQuality.binding "n1")
      /\ get arrow' "endBinding" = Some (DiagramQuality.binding "n2")
      /\ DiagramQuality.fixesApplied repaired = 3%nat
      /\ DiagramQuality.scene repaired <> scene p
  end.
Proof.
  vm_compute. repeat (split; [reflexivity|]). discriminate.
Qed.

End PatchPipeline.

(** ** Attaching the same bytes twice *)

Module Attachments.

Import SceneStore SceneService Fixtures.

Definition fileScene : Store :=
  {| dir := [ {| fileName := ("file-scene" ++ suffix)%string; isFile := true;
                 mtimeMs := 1767225600000; content := emptyScene "file-scene" |} ];
     cache := [] |}.

(** The payload of the file test of the repository: the base64 text of
    [file-content]. *)
Definition payload : AttachInput :=
  {| inputFileId := None; mimeType := "image/png";
     base64 := "ZmlsZS1jb250ZW50" |}.

Lemma sextets_length (s : string) :
  (List.length (Base64.sextets s) <= String.length s)%nat.
Proof.
  induction s as [|c r IH]; simpl; [lia|].
  destruct (Ascii.eqb c "="); [simpl; lia|].
  destruct (Base64.sextet c); simpl; lia.
Qed.

Lemma bytes_length (n : nat) :
  forall l, (List.length l <= n)%nat ->
            (List.length (Base64.bytes l) <= List.length l)%nat.
Proof.
  induction n as [|n IH]; intros l Hl.
  - destruct l; simpl in *; lia.
  - destruct l as [|a [|b [|c [|d rest]]]]; simpl in *; try lia.
    specialize (IH rest). lia.
Qed.

Lemma length_append (a b : string) :
  String.length (a ++ b) = (String.length a + String.length b)%nat.
Proof. induction a as [|c r IH]; simpl; [reflexivity | now rewrite IH]. Qed.

Lemma bytes_of_length (s : string) :
  List.length (bytes_of s) = String.length s.
Proof.
  unfold bytes_of. rewrite length_map.
  induction s as [|c r IH]; simpl; [reflexivity | now rewrite IH].
Qed.

(** The stored entry is compared by the hash of its data URL, the text
    [data:<mime>;base64,<text>], against the hash of the decoded bytes of
    [<text>].  The two byte strings hashed are never the same: the first is
    the longer.  A second attachment of the same payload is recognized only
    if SHA-256 collides on them. *)
Lemma dataURL_is_not_the_payload (mime text : string) :
  bytes_of ("data:" ++ mime ++ ";base64," ++ text) <> Base64.decode text.
Proof.
  intro H. apply (f_equal (@List.length Z)) in H.
  rewrite bytes_of_length in H. rewrite !length_append in H.
  pose proof (sextets_length text) as H1.
  pose proof (bytes_length _ (Base64.sextets text) (le_n _)) as H2.
  unfold Base64.decode in H. simpl in H. lia.
Qed.

(** C2, on the file test of the repository, repeated.  The second call
    with the same bytes is not deduplicated: it stores a second entry under
    a fresh id, and the scene has two files. *)
Lemma attachFile_twice_stores_twice :
  let '(r1, st1, t1) := attachFile tickingHost "file-scene" payload
                                   fileScene 0%nat in
  let '(r2, st2, _) := attachFile tickingHost "file-scene" payload st1 t1 in
  match r1, r2, fst (load "file-scene" st2) with
  | Ok a1, Ok a2, Ok sc =>
      deduplicated a1 = false
      /\ deduplicated a2 = false
      /\ fileId a2 <> fileId a1
      /\ List.length (keys (files sc)) = 2%nat
      /\ fileCount (metadata sc) = 2%nat
  | _, _, _ => False
  end.
Proof.
  vm_compute. repeat (split; [reflexivity|]).
  split; [discriminate|]. split; reflexivity.
Qed.

End Attachments.

(** ** The revision hash *)

Module RevisionHash.

Import Validators JsonEngine NormalizeTwice Fixtures.








(** A field that holds NaN and the same field holding [null] are written
    alike by [JSON.stringify], so this change of a single field leaves the
    hash as it was. *)
Lemma revision_hash_blind_to_nan :
  JNum NaN <> JNull
  /\ computeRevisionHash [ [ ("id", JStr "e"); ("version", JNum NaN) ] ]
                         [] [] []
     = computeRevisionHash [ [ ("id", JStr "e"); ("version", JNull) ] ]
                           [] [] [].
Proof. split; [discriminate | reflexivity]. Qed.

End RevisionHash.

(* ================================================================== *)
(** * Further properties of the store *)
(* ================================================================== *)

Module StoreFacts.

Import SceneStore ObjectFacts Fixtures.

(** A directory with the files of two scenes, and an empty cache. *)
Definition twoScenes : Store :=
  {| dir := [ {| fileName := ("a" ++ suffix)%string; isFile := true;
                 mtimeMs := 1; content := emptyScene "a" |};
              {| fileName := ("other" ++ suffix)%string; isFile := true;
                 mtimeMs := 2; content := emptyScene "other" |} ];
     cache := [] |}.

(** An id that [sanitizeSceneId] lets through. *)
Definition validId (id : string) : bool :=
  nonempty id && forallb idChar (list_ascii_of_string id).

Lemma scenePath_valid (id : string) :
  validId id = true -> scenePath id = Ok (id ++ suffix)%string.
Proof.
  unfold scenePath, sanitizeSceneId, validId. intros ->. reflexivity.
Qed.

Lemma scenePath_invalid (id : string) :
  validId id = false ->
  scenePath id = Throw {| code := BAD_REQUEST;
                          message := "Invalid sceneId format";
                          status := 400 |}.
Proof.
  unfold scenePath, sanitizeSceneId, validId. intros ->. reflexivity.
Qed.

Lemma stat_write_same (path : string) (m : Z) (s : SceneEnvelope)
    (d : list DirEntry) :
  stat (write path m s d) path
  = Some {| fileName := path; isFile := true; mtimeMs := m; content := s |}.
Proof.
  induction d as [|e rest IH]; simpl.
  - rewrite String.eqb_refl. reflexivity.
  - destruct (String.eqb (fileName e) path) eqn:E; simpl.
    + rewrite String.eqb_refl. reflexivity.
    + rewrite E. exact IH.
Qed.

Lemma stat_write_other (path other : string) (m : Z) (s : SceneEnvelope)
    (d : list DirEntry) :
  other <> path -> stat (write path m s d) other = stat d other.
Proof.
  intro Hne. induction d as [|e rest IH]; simpl.
  - destruct (String.eqb path other) eqn:E; [|reflexivity].
    apply String.eqb_eq in E. congruence.
  - destruct (String.eqb (fileName e) path) eqn:E; simpl.
    + apply String.eqb_eq in E.
      destruct (String.eqb path other) eqn:E1;
        [apply String.eqb_eq in E1; congruence|].
      destruct (String.eqb (fileName e) other) eqn:E2;
        [apply String.eqb_eq in E2; congruence | reflexivity].
    + destruct (String.eqb (fileName e) other); [reflexivity | exact IH].
Qed.

Lemma list_ascii_append (a b : string) :
  list_ascii_of_string (a ++ b)
  = list_ascii_of_string a ++ list_ascii_of_string b.
Proof. induction a as [|c r IH]; simpl; [reflexivity | now rewrite IH]. Qed.

Lemma append_cancel_r (a b s : string) :
  (a ++ s)%string = (b ++ s)%string -> a = b.
Proof.
  intro H. apply (f_equal list_ascii_of_string) in H.
  rewrite !list_ascii_append in H. apply app_inv_tail in H.
  rewrite <- (string_of_list_ascii_of_string a).
  rewrite <- (string_of_list_ascii_of_string b). now rewrite H.
Qed.

(** X1.  Within a process, a scene saved under a valid id is read back as
    it was saved: [save] succeeds, [exists] answers true, and [load] returns
    the very scene, which it takes from the cache that [save] refreshed,
    and changes nothing.  The file itself holds what [JSON.parse] would
    read from the written text. *)
Theorem save_then_load (host : Host) (s : SceneEnvelope) (st : Store)
    (t : nat) (Hid : validId (sceneId (metadata s)) = true) :
  let saved := save host s st t in
  let st1 := snd (fst saved) in
  fst (fst saved) = Ok tt
  /\ exists_ (sceneId (metadata s)) st1 = Ok true
  /\ load (sceneId (metadata s)) st1 = (Ok s, st1)
  /\ option_map content
       (stat (dir st1) (sceneId (metadata s) ++ suffix)%string)
     = Some (reparseScene s).
Proof.
  cbv zeta. unfold save, exists_, load.
  rewrite (scenePath_valid _ Hid). unfold bind, read, ret. cbn [fst snd dir cache].
  rewrite stat_write_same. rewrite get_set_same. cbn.
  rewrite Z.eqb_refl. repeat split; reflexivity.
Qed.

Lemma save_then_load_witness :
  validId (sceneId (metadata (emptyScene "demo"))) = true
  /\ load "demo"
       (snd (fst (save tickingHost (emptyScene "demo")
                       {| dir := []; cache := [] |} 0%nat)))
     = (Ok (emptyScene "demo"),
        snd (fst (save tickingHost (emptyScene "demo")
                       {| dir := []; cache := [] |} 0%nat))).
Proof.
  split; [reflexivity|].
  exact (proj1 (proj2 (proj2 (save_then_load tickingHost (emptyScene "demo")
                                {| dir := []; cache := [] |} 0%nat
                                eq_refl)))).
Defined.

(** X2.  [save] touches the file and the cache entry of its own scene
    only: every other valid id loads afterwards exactly what it loaded
    before. *)
Theorem save_leaves_other_scenes (host : Host) (s : SceneEnvelope)
    (st : Store) (t : nat) (other : string)
    (Hid : validId (sceneId (metadata s)) = true)
    (Hother : validId other = true)
    (Hne : other <> sceneId (metadata s)) :
  let st1 := snd (fst (save host s st t)) in
  fst (load other st1) = fst (load other st)
  /\ stat (dir st1) (other ++ suffix)%string
     = stat (dir st) (other ++ suffix)%string.
Proof.
  cbv zeta. unfold save, load.
  rewrite (scenePath_valid _ Hid), (scenePath_valid _ Hother).
  unfold bind, read, ret. cbn [fst snd dir cache].
  assert (Hp : (other ++ suffix)%string
               <> (sceneId (metadata s) ++ suffix)%string).
  { intro H. apply append_cancel_r in H. contradiction. }
  rewrite stat_write_other by exact Hp.
  rewrite get_set_other by congruence.
  split; [|reflexivity].
  destruct (stat (dir st) (other ++ suffix)) as [f|]; [|reflexivity].
  destruct (get (cache st) other) as [c|];
    [destruct (cachedMtimeMs c =? mtimeMs f)%Z|];
    try reflexivity; destruct (isFile f); reflexivity.
Qed.

Lemma save_leaves_other_scenes_witness :
  validId "demo" = true /\ validId "other" = true /\ "other" <> "demo"
  /\ fst (load "other"
            (snd (fst (save tickingHost (emptyScene "demo")
                            twoScenes 0%nat))))
     = fst (load "other" twoScenes).
Proof.
  split; [reflexivity|]. split; [reflexivity|].
  split; [discriminate|].
  exact (proj1 (save_leaves_other_scenes tickingHost (emptyScene "demo")
                  twoScenes 0%nat "other" eq_refl eq_refl
                  ltac:(discriminate))).
Defined.

(** X3.  An id with a character outside [a-zA-Z0-9_-], a dot or a slash
    for one, or the empty id, is refused with [BAD_REQUEST] by [load],
    [exists] and [save] alike, before the directory is looked at; the store
    is left as it was. *)
Theorem invalid_id_refused (host : Host) (id : string) (st : Store)
    (s : SceneEnvelope) (t : nat)
    (Hbad : id = EmptyString
            \/ exists c, In c (list_ascii_of_string id) /\ idChar c = false) :
  (exists e, load id st = (Throw e, st) /\ code e = BAD_REQUEST)
  /\ (exists e, exists_ id st = Throw e /\ code e = BAD_REQUEST)
  /\ (sceneId (metadata s) = id ->
      exists e, save host s st t = (Throw e, st, t)
                /\ code e = BAD_REQUEST).
Proof.
  assert (Hinv : validId id = false).
  { unfold validId. destruct Hbad as [->|(c & Hin & Hc)]; [reflexivity|].
    apply andb_false_iff. right.
    destruct (forallb idChar (list_ascii_of_string id)) eqn:E;
      [|reflexivity].
    rewrite forallb_forall in E. rewrite (E c Hin) in Hc. discriminate. }
  unfold load, exists_, save.
  split; [|split].
  - rewrite (scenePath_invalid _ Hinv). eexists. split; reflexivity.
  - rewrite (scenePath_invalid _ Hinv). eexists. split; reflexivity.
  - intros ->. rewrite (scenePath_invalid _ Hinv).
    eexists. split; reflexivity.
Qed.

Lemma invalid_id_refused_witness :
  (exists c, In c (list_ascii_of_string "../etc/passwd")
             /\ idChar c = false)
  /\ exists e, load "../etc/passwd" twoScenes
               = (Throw e, twoScenes)
               /\ code e = BAD_REQUEST.
Proof.
  assert (H : exists c, In c (list_ascii_of_string "../etc/passwd")
                        /\ idChar c = false).
  { exists "."%char. split; [left; reflexivity | reflexivity]. }
  split; [exact H|].
  exact (proj1 (invalid_id_refused tickingHost "../etc/passwd"
                  twoScenes (emptyScene "x") 0%nat
                  (or_intror H))).
Defined.

(** X4.  A load that fails leaves the store, cache included, as it was, and
    fails with [NOT_FOUND] exactly when the id is valid and the directory
    has no entry of its file name. *)
Theorem load_failure (id : string) (st st' : Store) (e : AppError)
    (Hload : load id st = (Throw e, st')) :
  st' = st
  /\ (code e = NOT_FOUND <->
      validId id = true /\ stat (dir st) (id ++ suffix)%string = None).
Proof.
  unfold load in Hload.
  destruct (validId id) eqn:Hv.
  - rewrite (scenePath_valid _ Hv) in Hload.
    destruct (stat (dir st) (id ++ suffix)) as [f|] eqn:Hs.
    + assert (Hr : st' = st /\ code e = INTERNAL).
      { destruct (get (cache st) id) as [c|];
          [destruct (cachedMtimeMs c =? mtimeMs f)%Z|];
          try discriminate; destruct (isFile f); try discriminate;
          inversion Hload; subst; split; reflexivity. }
      destruct Hr as [-> Hc]. split; [reflexivity|].
      rewrite Hc. split; [discriminate | intros [_ H]; discriminate].
    + inversion Hload; subst. split; [reflexivity|].
      split; [auto | reflexivity].
  - rewrite (scenePath_invalid _ Hv) in Hload. inversion Hload; subst.
    split; [reflexivity|]. simpl.
    split; [discriminate | intros [H _]; discriminate].
Qed.

Lemma load_failure_witness :
  load "missing" twoScenes
  = (Throw (sceneNotFound "missing"), twoScenes)
  /\ (code (sceneNotFound "missing") = NOT_FOUND <->
      validId "missing" = true
      /\ stat (dir twoScenes) ("missing" ++ suffix)%string
         = None).
Proof.
  split; [reflexivity|].
  exact (proj2 (load_failure "missing" twoScenes
                  twoScenes (sceneNotFound "missing")
                  eq_refl)).
Defined.

(** A load that succeeded leaves the directory as it was, and the cache in
    step with the file: the same load again finds the scene there. *)
Lemma load_settled (id : string) (st st1 : Store) (s : SceneEnvelope) :
  load id st = (Ok s, st1) ->
  validId id = true /\ dir st1 = dir st /\ load id st1 = (Ok s, st1).
Proof.
  intro Hload.
  assert (Hv : validId id = true).
  { destruct (validId id) eqn:Hv; [reflexivity|].
    unfold load in Hload. rewrite (scenePath_invalid _ Hv) in Hload.
    discriminate. }
  split; [exact Hv|].
  unfold load in *.
  destruct (scenePath id) as [path|e]; [|discriminate].
  destruct (stat (dir st) path) as [f|] eqn:Hs; [|discriminate].
  assert (Hcases :
            (exists c, get (cache st) id = Some c
                       /\ cachedMtimeMs c = mtimeMs f
                       /\ s = cachedScene c /\ st1 = st)
            \/ (isFile f = true /\ s = content f
                /\ st1 = {| dir := dir st;
                            cache := set id {| cachedMtimeMs := mtimeMs f;
                                               cachedScene := content f |}
                                         (cache st) |})).
  { destruct (get (cache st) id) as [c|] eqn:Hc.
    - destruct (cachedMtimeMs c =? mtimeMs f)%Z eqn:Hm.
      + left. exists c. apply Z.eqb_eq in Hm.
        inversion Hload; subst. auto.
      + right. destruct (isFile f); [|discriminate].
        inversion Hload; subst. auto.
    - right. destruct (isFile f); [|discriminate].
      inversion Hload; subst. auto. }
  destruct Hcases as [(c & Hc & Hm & -> & ->)|(Hf & -> & ->)].
  - split; [reflexivity|]. rewrite Hs, Hc, Hm, Z.eqb_refl. reflexivity.
  - split; [reflexivity|]. cbn [dir cache]. rewrite Hs, get_set_same. cbn.
    rewrite Z.eqb_refl. reflexivity.
Qed.

(** X5.  Loading is idempotent: after a load that succeeded, a second load
    of the same id returns the same scene and changes nothing, the first
    having brought the cache in step with the file. *)
Theorem load_twice (id : string) (st st1 : Store) (s : SceneEnvelope)
    (Hload : load id st = (Ok s, st1)) :
  load id st1 = (Ok s, st1).
Proof. apply (load_settled id st st1 s Hload). Qed.

Lemma load_twice_witness :
  load "a" twoScenes
  = (Ok (emptyScene "a"), snd (load "a" twoScenes))
  /\ load "a" (snd (load "a" twoScenes))
     = (Ok (emptyScene "a"), snd (load "a" twoScenes)).
Proof.
  split; [reflexivity|].
  exact (load_twice "a" twoScenes
           (snd (load "a" twoScenes)) (emptyScene "a") eq_refl).
Defined.

End StoreFacts.

(* ================================================================== *)
(** * Further properties of the normalizer and of the patch engine *)
(* ================================================================== *)

Module SpreadFacts.

Import ObjectFacts.

Lemma get_app {V : Type} (a b : list (string * V)) (k : string) :
  get (a ++ b) k = match get a k with Some v => Some v | None => get b k end.
Proof.
  induction a as [|[k' v'] rest IH]; simpl; [reflexivity|].
  destruct (String.eqb k' k); [reflexivity | exact IH].
Qed.

Lemma get_set {V : Type} (k k2 : string) (v : V) (o : list (string * V)) :
  get (set k v o) k2 = if String.eqb k k2 then Some v else get o k2.
Proof.
  destruct (String.eqb k k2) eqn:E.
  - apply String.eqb_eq in E. subst. apply get_set_same.
  - apply String.eqb_neq in E. apply get_set_other. exact E.
Qed.

(** In [{ ...base, ...over }] a key has the value of its last binding in
    [over], and that of [base] when [over] does not bind it. *)
Lemma get_spread {V : Type} (over base : list (string * V)) (k : string) :
  get (spread base over) k
  = match get (rev over) k with Some v => Some v | None => get base k end.
Proof.
  unfold spread. revert base.
  induction over as [|[k' v'] rest IH]; intro base; simpl; [reflexivity|].
  rewrite IH, get_app, get_set. simpl.
  destruct (get (rev rest) k); [reflexivity|].
  destruct (String.eqb k' k); reflexivity.
Qed.

Lemma get_rev_unique {V : Type} (o : list (string * V)) (k : string) :
  NoDup (keys o) -> get (rev o) k = get o k.
Proof.
  induction o as [|[k' v'] rest IH]; intro Hnd; simpl; [reflexivity|].
  inversion Hnd as [|? ? Hnin Hrest]; subst.
  rewrite get_app, (IH Hrest). simpl.
  destruct (String.eqb k' k) eqn:E.
  - apply String.eqb_eq in E. subst k'.
    apply get_none_keys in Hnin. rewrite Hnin. reflexivity.
  - destruct (get rest k); reflexivity.
Qed.

(** For a record [over], with one binding a key: the value [over] gives,
    else the value [base] gives. *)
Lemma get_spread_record {V : Type} (over base : list (string * V))
    (k : string) :
  NoDup (keys over) ->
  get (spread base over) k
  = match get over k with Some v => Some v | None => get base k end.
Proof. intro H. rewrite get_spread, get_rev_unique by exact H. reflexivity. Qed.

End SpreadFacts.

Module NormalizerFacts.

Import Validators ObjectFacts SpreadFacts NormalizeTwice Fixtures.

Section WithHost.
Variable host : Host.

(** X6.  Normalizing an element fills in what is missing and overrides
    nothing: every field the element has keeps its value, an id that is
    present but empty or not a string included; the ten required keys are
    all there afterwards, and no other key is added; a missing [type] is
    ["rectangle"], a missing [width] 100, a missing [version] 1, a missing
    [isDeleted] false, and a missing [id] is the UUID the host gives. *)
Theorem normalizeElement_fills_defaults (element : obj) (t : nat)
    (Hrecord : NoDup (keys element)) :
  let r := fst (normalizeElement host (JObj element) t) in
  (forall k v, get element k = Some v -> get r k = Some v)
  /\ (forall k, In k defaultKeys -> has r k = true)
  /\ (forall k, has r k = true -> In k defaultKeys \/ has element k = true)
  /\ (get element "id" = None ->
      get r "id" = Some (JStr (randomUUID host t)))
  /\ (get element "type" = None -> get r "type" = Some (JStr "rectangle"))
  /\ (get element "width" = None -> get r "width" = Some (int 100))
  /\ (get element "version" = None -> get r "version" = Some (int 1))
  /\ (get element "isDeleted" = None ->
      get r "isDeleted" = Some (JBool false)).
Proof.
  cbv zeta.
  destruct (normalizeElement_shape host (JObj element) t)
    as (base & Hkeys & Heq).
  simpl ensureObject in Heq.
  assert (Hget : forall k,
             get (fst (normalizeElement host (JObj element) t)) k
             = match get element k with
               | Some v => Some v
               | None => get base k
               end).
  { intro k. rewrite Heq. apply get_spread_record. exact Hrecord. }
  assert (Hbase : forall k, has base k = true <-> In k defaultKeys).
  { intro k. rewrite has_true_keys, Hkeys. reflexivity. }
  split; [intros k v Hk; rewrite Hget, Hk; reflexivity|].
  split.
  { intros k Hk. unfold has. rewrite Hget.
    destruct (get element k); [reflexivity|]. apply Hbase. exact Hk. }
  split.
  { intros k. unfold has. rewrite Hget.
    destruct (get element k); [auto|].
    intro H. left. apply Hbase. unfold has. exact H. }
  clear Hget Heq Hbase Hkeys base.
  repeat split; intro Hk;
    unfold normalizeElement, randomBelow, bind, ret, read;
    change (ensureObject (JObj element)) with element;
    unfold number_or;
    destruct (get element "id") as [[| | |s| |]|] eqn:Eid;
    try destruct (0 <? String.length s)%nat;
    destruct (coalesce_opt (get element "versionNonce") None);
    try discriminate; cbn [fst];
    rewrite get_spread_record by exact Hrecord;
    rewrite ?Eid, ?Hk; reflexivity.
Qed.

End WithHost.

Lemma normalizeElement_fills_defaults_witness :
  NoDup (keys [("id", int 5); ("label", JStr "kept")])
  /\ get (fst (normalizeElement tickingHost
                 (JObj [("id", int 5); ("label", JStr "kept")]) 0%nat)) "id"
     = Some (int 5).
Proof.
  assert (H : NoDup (keys [("id", int 5); ("label", JStr "kept")])).
  { repeat (constructor; [simpl; intuition discriminate|]). constructor. }
  split; [exact H|].
  exact (proj1 (normalizeElement_fills_defaults tickingHost
                  [("id", int 5); ("label", JStr "kept")] 0%nat H)
               "id" (int 5) eq_refl).
Defined.

End NormalizerFacts.

Module PatchFacts.

Import Validators JsonEngine ObjectFacts SpreadFacts NormalizeTwice SortFacts.
Import UnknownIds Fixtures.

Section WithHost.
Variable host : Host.

(** What a batch never changes of the metadata. *)
Definition sameIdentity (a b : SceneEnvelope) : Prop :=
  sceneId (metadata a) = sceneId (metadata b)
  /\ createdAt (metadata a) = createdAt (metadata b).

Lemma applyOperation_identity (st st' : PatchState)
    (op : ScenePatchOperation) (t t' : nat) :
  applyOperation host st op t = (Ok st', t') ->
  sameIdentity (next st') (next st).
Proof.
  destruct op as [n|sk|ups|ids hard|a m|l m|f m];
    cbn [applyOperation]; unfold bind, ret; intro H.
  - inversion H; subst. split; reflexivity.
  - destruct (createElementsFromSkeleton host sk t) as [created t1].
    destruct (normalizeElements host _ t1) as [n t2].
    inversion H; subst. split; reflexivity.
  - destruct (updateAll host ups _ _ t) as [[[m chg]|e] t1];
      [|discriminate].
    destruct (normalizeElements host _ t1) as [n t2].
    inversion H; subst. split; reflexivity.
  - destruct (deleteAll host ids _ _ _ t) as [[l c] t1].
    inversion H; subst. split; reflexivity.
  - inversion H; subst. split; reflexivity.
  - inversion H; subst. split; reflexivity.
  - inversion H; subst. split; reflexivity.
Qed.

Lemma applyOperations_identity (ops : list ScenePatchOperation) :
  forall st st' t t',
    applyOperations host st ops t = (Ok st', t') ->
    sameIdentity (next st') (next st).
Proof.
  induction ops as [|op rest IH]; intros st st' t t' H; simpl in H.
  - inversion H; subst. split; reflexivity.
  - unfold bind in H.
    destruct (applyOperation host st op t) as [[st1|e] t1] eqn:E;
      [|discriminate].
    destruct (IH _ _ _ _ H) as [H1 H2].
    destruct (applyOperation_identity _ _ _ _ _ E) as [H3 H4].
    split; congruence.
Qed.

(** X7.  Whatever the batch, the scene [applyPatch] returns has the id and
    the creation time of the scene it was given, its [elementCount] and
    [fileCount] are the numbers of its elements and of its files, and its
    [revisionHash] is the hash of its own elements, app state, files and
    library items. *)
Theorem applyPatch_metadata (sc : SceneEnvelope)
    (operations : list ScenePatchOperation) (t t' : nat) (p : PatchResult)
    (Hok : applyPatch host sc operations t = (Ok p, t')) :
  sceneId (metadata (scene p)) = sceneId (metadata sc)
  /\ createdAt (metadata (scene p)) = createdAt (metadata sc)
  /\ elementCount (metadata (scene p)) = List.length (elements (scene p))
  /\ fileCount (metadata (scene p)) = List.length (keys (files (scene p)))
  /\ revisionHash (metadata (scene p))
     = computeRevisionHash (elements (scene p)) (appState (scene p))
                           (files (scene p)) (libraryItems (scene p)).
Proof.
  destruct (PatchPipeline.applyPatch_normalizes host sc operations t t' p Hok)
    as (st & t1 & Hops & Hscene & _).
  destruct (applyOperations_identity _ _ _ _ _ Hops) as [Hid Hcr].
  simpl in Hid, Hcr.
  rewrite Hscene, normalizeScene_stamped. cbv zeta. simpl.
  repeat split; assumption || reflexivity.
Qed.

(** X8.  A batch of no operation is a normalization and nothing more: the
    scene returned is the normalized scene and no id is reported
    changed. *)
Theorem applyPatch_no_operation (sc : SceneEnvelope) (t : nat) :
  applyPatch host sc [] t
  = (Ok {| scene := fst (normalizeScene host sc t);
           changedElementIds := [] |},
     snd (normalizeScene host sc t)).
Proof.
  unfold applyPatch, bind, ret, normalize. simpl.
  pose proof (normalizeScene_stamped host sc t) as Hs. cbv zeta in Hs.
  destruct (normalizeScene host sc t) as [n t1]. simpl in *.
  subst n. reflexivity.
Qed.

Lemma applyOperations_throw (ops1 ops2 : list ScenePatchOperation) :
  forall st e t t1,
    applyOperations host st ops1 t = (Throw e, t1) ->
    applyOperations host st (ops1 ++ ops2) t = (Throw e, t1).
Proof.
  induction ops1 as [|op rest IH]; intros st e t t1 H; simpl in *.
  - discriminate.
  - unfold bind in *.
    destruct (applyOperation host st op t) as [[st'|e'] t'];
      [apply IH; exact H | exact H].
Qed.

(** X9.  The first operation that throws ends the batch: whatever is put
    after a batch that fails, [applyPatch] fails with the same error, having
    read the host no further, so no later operation runs. *)
Theorem applyPatch_stops_at_throw (sc : SceneEnvelope)
    (failing later : list ScenePatchOperation) (t t1 : nat) (e : AppError)
    (Hfail : applyPatch host sc failing t = (Throw e, t1)) :
  applyPatch host sc (failing ++ later) t = (Throw e, t1).
Proof.
  unfold applyPatch, bind in *.
  destruct (applyOperations host {| next := sc; changed := [] |} failing t)
    as [[st|e0] t0] eqn:E.
  - destruct (normalize host (next st) t0); discriminate.
  - inversion Hfail; subst.
    rewrite (applyOperations_throw failing later _ _ _ _ E). reflexivity.
Qed.

End WithHost.

Lemma applyPatch_metadata_witness :
  exists p t',
    applyPatch tickingHost (emptyScene "quality-scene") qualityBatch 0%nat
    = (Ok p, t')
    /\ elementCount (metadata (scene p)) = 4%nat.
Proof.
  destruct (applyPatch tickingHost (emptyScene "quality-scene") qualityBatch
              0%nat) as [[p|e] t'] eqn:E; [|vm_compute in E; discriminate].
  exists p, t'. split; [reflexivity|].
  destruct (applyPatch_metadata tickingHost (emptyScene "quality-scene")
              qualityBatch 0%nat t' p E) as (_ & _ & Hc & _).
  rewrite Hc. vm_compute in E. inversion E; subst. reflexivity.
Defined.

Lemma applyPatch_stops_at_throw_witness :
  exists e t1,
    applyPatch tickingHost (emptyScene "s")
      [ UpdateElements [("ghost", [])] ] 0%nat = (Throw e, t1)
    /\ applyPatch tickingHost (emptyScene "s")
         ([ UpdateElements [("ghost", [])] ] ++ qualityBatch) 0%nat
       = (Throw e, t1).
Proof.
  exists (notFound "ghost"), 0%nat.
  assert (H : applyPatch tickingHost (emptyScene "s")
                [ UpdateElements [("ghost", [])] ] 0%nat
              = (Throw (notFound "ghost"), 0%nat)) by reflexivity.
  split; [exact H|].
  exact (applyPatch_stops_at_throw tickingHost (emptyScene "s")
           [ UpdateElements [("ghost", [])] ] qualityBatch 0%nat 0%nat
           (notFound "ghost") H).
Defined.

End PatchFacts.

Module ChangedIds.

Import Validators JsonEngine ObjectFacts SortFacts Fixtures.

(** The string ids among the members of a set of changed ids. *)
Definition strings (l : list value) : list string :=
  flat_map (fun v => match v with JStr s => [s] | _ => [] end) l.

Lemma in_strings (s : string) (l : list value) :
  In s (strings l) <-> In (JStr s) l.
Proof.
  unfold strings. rewrite in_flat_map. split.
  - intros (v & Hin & Hs). destruct v; simpl in Hs; try contradiction.
    destruct Hs as [<-|[]]. exact Hin.
  - intro H. exists (JStr s). split; [exact H | left; reflexivity].
Qed.

Lemma strings_app (a b : list value) :
  strings (a ++ b) = strings a ++ strings b.
Proof. unfold strings. apply flat_map_app. Qed.

Lemma set_add_unique (v : value) (chg : list value) :
  NoDup (strings chg) -> NoDup (strings (set_add v chg)).
Proof.
  intro H. unfold set_add.
  destruct (existsb _ chg) eqn:E; [exact H|].
  rewrite strings_app.
  destruct v; simpl; rewrite ?app_nil_r; try exact H.
  apply NoDup_app_remove_l with (l := []). simpl.
  apply Permutation_NoDup with (l := s :: strings chg);
    [apply Permutation_cons_append|].
  constructor; [|exact H].
  intro Hin. apply in_strings in Hin.
  assert (Hex : existsb (fun x => same_value_zero (Some x) (Some (JStr s)))
                        chg = true).
  { apply existsb_exists. exists (JStr s). split; [exact Hin|].
    simpl. apply String.eqb_refl. }
  congruence.
Qed.

Section WithHost.
Variable host : Host.

Lemma updateAll_unique (updates : list (string * obj)) :
  forall m chg t m' chg' t',
    updateAll host updates m chg t = (Ok (m', chg'), t') ->
    NoDup (strings chg) -> NoDup (strings chg').
Proof.
  induction updates as [|[id patch] rest IH];
    intros m chg t m' chg' t' H Hnd; simpl in H.
  - inversion H; subst. exact Hnd.
  - destruct (map_get m (Some (JStr id))); [|discriminate].
    unfold bind, read in H. eapply IH; [exact H|].
    apply set_add_unique. exact Hnd.
Qed.

Lemma deleteAll_unique (ids : list string) (hard : bool) (els : list obj) :
  forall chg t,
    NoDup (strings chg) ->
    NoDup (strings (snd (fst (deleteAll host ids hard els chg t)))).
Proof.
  induction els as [|e rest IH]; intros chg t Hnd; simpl; [exact Hnd|].
  destruct (negb (ids_has ids (get e "id"))).
  - unfold bind. specialize (IH chg t Hnd).
    destruct (deleteAll host ids hard rest chg t) as [[l c] t1]. exact IH.
  - set (chg' := match get e "id" with
                 | Some v => set_add v chg
                 | None => chg
                 end).
    assert (Hnd' : NoDup (strings chg')).
    { subst chg'. destruct (get e "id"); [apply set_add_unique|]; exact Hnd. }
    destruct hard; [apply IH; exact Hnd'|].
    unfold bind, read. specialize (IH chg' (S t) Hnd').
    destruct (deleteAll host ids false rest chg' (S t)) as [[l c] t1].
    exact IH.
Qed.

Lemma created_unique (created : list obj) :
  forall chg,
    NoDup (strings chg) ->
    NoDup (strings
             (fold_left
                (fun chg element =>
                   match get element "id" with
                   | Some v => if truthy (Some v) then set_add v chg else chg
                   | None => chg
                   end) created chg)).
Proof.
  induction created as [|e rest IH]; intros chg Hnd; cbn [fold_left];
    [exact Hnd|].
  apply IH. destruct (get e "id") as [v|]; [|exact Hnd].
  destruct (truthy (Some v)); [apply set_add_unique|]; exact Hnd.
Qed.

Lemma applyOperation_unique (st st' : PatchState)
    (op : ScenePatchOperation) (t t' : nat) :
  applyOperation host st op t = (Ok st', t') ->
  NoDup (strings (changed st)) -> NoDup (strings (changed st')).
Proof.
  destruct op as [n|sk|ups|ids hard|a m|l m|f m];
    cbn [applyOperation]; unfold bind, ret; intros H Hnd.
  - inversion H; subst. exact Hnd.
  - destruct (createElementsFromSkeleton host sk t) as [created t1].
    destruct (normalizeElements host _ t1) as [n t2].
    inversion H; subst. cbn [changed]. apply created_unique. exact Hnd.
  - destruct (updateAll host ups _ _ t) as [[[m chg]|e] t1] eqn:E;
      [|discriminate].
    destruct (normalizeElements host _ t1) as [n t2].
    inversion H; subst. cbn [changed].
    eapply updateAll_unique; eassumption.
  - pose proof (deleteAll_unique ids (flag hard) (elements (next st))
                  (changed st) t Hnd) as Hd.
    destruct (deleteAll host ids _ _ _ t) as [[l c] t1].
    inversion H; subst. exact Hd.
  - inversion H; subst. exact Hnd.
  - inversion H; subst. exact Hnd.
  - inversion H; subst. exact Hnd.
Qed.

Lemma applyOperations_unique (ops : list ScenePatchOperation) :
  forall st st' t t',
    applyOperations host st ops t = (Ok st', t') ->
    NoDup (strings (changed st)) -> NoDup (strings (changed st')).
Proof.
  induction ops as [|op rest IH]; intros st st' t t' H Hnd; simpl in H.
  - inversion H; subst. exact Hnd.
  - unfold bind in H.
    destruct (applyOperation host st op t) as [[st1|e] t1] eqn:E;
      [|discriminate].
    eapply IH; [exact H|]. eapply applyOperation_unique; eassumption.
Qed.

Lemma default_compare_total (x y : value) :
  default_compare x y = Gt -> default_compare y x <> Gt.
Proof.
  unfold default_compare. intro H.
  rewrite String.compare_antisym, H. discriminate.
Qed.

(** X10.  The changed ids [applyPatch] returns are in ascending order of
    their text and no string id comes twice, however often the batch
    touched an element. *)
Theorem changedElementIds_sorted_unique (sc : SceneEnvelope)
    (operations : list ScenePatchOperation) (t t' : nat) (p : PatchResult)
    (Hok : applyPatch host sc operations t = (Ok p, t')) :
  StronglySorted
    (fun a b => String.leb (to_string a) (to_string b) = true)
    (changedElementIds p)
  /\ NoDup (strings (changedElementIds p)).
Proof.
  destruct (PatchPipeline.applyPatch_normalizes host sc operations t t' p Hok)
    as (st & t1 & Hops & _ & Hchg).
  rewrite Hchg. split.
  - apply Sorted_StronglySorted.
    + intros a b c. apply leb_trans.
    + apply (Sorted_weaken (before default_compare)).
      * intros a b. unfold before, default_compare, String.leb.
        destruct (String.compare (to_string a) (to_string b)); congruence.
      * apply sort_with_sorted. exact default_compare_total.
  - apply Permutation_NoDup with (l := strings (changed st)).
    + unfold strings. apply Permutation_flat_map.
      symmetry. apply sort_with_perm.
    + eapply applyOperations_unique; [exact Hops | constructor].
Qed.

End WithHost.

Lemma changedElementIds_witness :
  exists p t',
    applyPatch tickingHost (emptyScene "s")
      [ AddElements [n2; n1]; DeleteElements ["n1"; "n2"] None;
        UpdateElements [("n1", [])] ] 0%nat
    = (Ok p, t')
    /\ changedElementIds p = [JStr "n1"; JStr "n2"]
    /\ NoDup (strings (changedElementIds p)).
Proof.
  destruct (applyPatch tickingHost (emptyScene "s")
              [ AddElements [n2; n1]; DeleteElements ["n1"; "n2"] None;
                UpdateElements [("n1", [])] ] 0%nat)
    as [[p|e] t'] eqn:E; [|vm_compute in E; discriminate].
  exists p, t'. split; [reflexivity|]. split.
  - vm_compute in E. inversion E; subst. reflexivity.
  - exact (proj2 (changedElementIds_sorted_unique tickingHost _ _ _ _ _ E)).
Defined.

End ChangedIds.

Module DeleteFacts.

Import Validators JsonEngine ObjectFacts SpreadFacts UnknownIds Fixtures.

(** The elements a delete leaves alone. *)
Definition spared (ids : list string) (element : obj) : bool :=
  negb (ids_has ids (get element "id")).


Section WithHost.
Variable host : Host.

Lemma deleteAll_hard (ids : list string) (els : list obj) :
  forall chg t,
    fst (fst (deleteAll host ids true els chg t)) = filter (spared ids) els
    /\ snd (deleteAll host ids true els chg t) = t.
Proof.
  induction els as [|e rest IH]; intros chg t; simpl;
    [split; reflexivity|].
  unfold spared at 1. destruct (negb (ids_has ids (get e "id"))).
  - unfold bind, ret. destruct (IH chg t) as [Hl Ht].
    destruct (deleteAll host ids true rest chg t) as [[l c] t1].
    simpl in *. subst. split; reflexivity.
  - apply IH.
Qed.

Lemma hasId_spared (id : string) (ids : list string) (els : list obj) :
  In id ids -> hasId id (filter (spared ids) els) = false.
Proof.
  intro Hin. unfold hasId.
  induction els as [|e rest IH]; simpl; [reflexivity|].
  destruct (spared ids e) eqn:E; [|exact IH].
  simpl. rewrite IH, orb_false_r.
  destruct (same_value_zero (get e "id") (Some (JStr id))) eqn:Es;
    [|reflexivity].
  apply same_value_zero_string in Es.
  unfold spared, ids_has in E. rewrite Es in E.
  assert (Hex : existsb
                  (fun s => same_value_zero (Some (JStr s)) (Some (JStr id)))
                  ids = true).
  { apply existsb_exists. exists id. split; [exact Hin|].
    simpl. apply String.eqb_refl. }
  rewrite Hex in E. discriminate.
Qed.


(** X11.  A hard delete keeps exactly the elements whose id the list
    lacks, in their order, and reads nothing from the host; an update of a
    deleted id later in the same batch fails with NOT_FOUND. *)
Theorem hard_delete_forgets (sc : SceneEnvelope)
    (before : list ScenePatchOperation) (st1 : PatchState) (t t1 : nat)
    (ids : list string) (id : string)
    (Hrun : applyOperations host {| next := sc; changed := [] |} before t
            = (Ok st1, t1))
    (Hin : In id ids) :
  (exists chg,
      applyOperation host st1 (DeleteElements ids (Some true)) t1
      = (Ok {| next := with_elements (next st1)
                         (filter (spared ids) (elements (next st1)));
               changed := chg |}, t1))
  /\ forall updates patch after,
       In (id, patch) updates ->
       exists e t',
         applyPatch host sc
           (before ++ DeleteElements ids (Some true)
                   :: UpdateElements updates :: after) t
         = (Throw e, t')
         /\ code e = NOT_FOUND.
Proof.
  pose proof (deleteAll_hard ids (elements (next st1)) (changed st1) t1)
    as [Hl Ht].
  assert (Hdel : applyOperation host st1 (DeleteElements ids (Some true)) t1
                 = (Ok {| next := with_elements (next st1)
                                    (filter (spared ids) (elements (next st1)));
                          changed :=
                            snd (fst (deleteAll host ids true
                                        (elements (next st1)) (changed st1)
                                        t1)) |}, t1)).
  { cbn [applyOperation flag]. unfold bind, ret.
    destruct (deleteAll host ids true (elements (next st1)) (changed st1) t1)
      as [[l c] t2].
    simpl in *. subst. reflexivity. }
  split; [eexists; exact Hdel|].
  intros updates patch after Hup.
  unfold applyPatch, bind.
  rewrite (applyOperations_app host _ _ _ _ _ _ Hrun).
  cbn [applyOperations]. unfold bind at 1. rewrite Hdel.
  cbn [applyOperations applyOperation]. unfold bind.
  destruct (updateAll_unknown host updates
              (mapById (filter (spared ids) (elements (next st1))))
              (snd (fst (deleteAll host ids true (elements (next st1))
                           (changed st1) t1)))
              t1 id patch Hup) as (e & t' & Hthrow & Hcode).
  { apply mapById_absent; [reflexivity|].
    apply hasId_spared. exact Hin. }
  cbn [next with_elements elements changed].
  rewrite Hthrow. exists e, t'. split; [reflexivity | exact Hcode].
Qed.


End WithHost.

Lemma hard_delete_forgets_witness :
  exists e t',
    applyPatch tickingHost (emptyScene "s")
      ([AddElements [n1; n2]]
         ++ DeleteElements ["n1"] (Some true)
         :: UpdateElements [("n1", [])] :: []) 0%nat
    = (Throw e, t')
    /\ code e = NOT_FOUND.
Proof.
  destruct (applyOperations tickingHost
              {| next := emptyScene "s"; changed := [] |}
              [AddElements [n1; n2]] 0%nat) as [[st1|e1] t1] eqn:E;
    [|vm_compute in E; discriminate].
  apply (proj2 (hard_delete_forgets tickingHost (emptyScene "s")
                  [AddElements [n1; n2]] st1 0%nat t1 ["n1"] "n1" E
                  (or_introl eq_refl))
           [("n1", [])] [] []).
  left. reflexivity.
Defined.


End DeleteFacts.

Module UpdateFacts.

Import Validators JsonEngine ObjectFacts SpreadFacts UnknownIds Fixtures.


Definition entry (element : obj) : option value * obj :=
  (get element "id", element).








Section WithHost.
Variable host : Host.

(** What the [updateElements] case stores for an element and a patch. *)
Definition merged (existing patch : obj) (now : Z) : obj :=
  set "updated" (int now)
      (set "version" (bumped existing) (spread existing patch)).


End WithHost.


End UpdateFacts.

Module AddFacts.

Import Validators JsonEngine ObjectFacts SpreadFacts NormalizeTwice
       UnknownIds Fixtures.

Lemma mapM_length {A B : Type} (f : A -> Eff B) (l : list A) :
  forall t, List.length (fst (mapM f l t)) = List.length l.
Proof.
  induction l as [|x rest IH]; intro t; simpl; [reflexivity|].
  unfold bind, ret. destruct (f x t) as [y t1].
  specialize (IH t1). destruct (mapM f rest t1) as [ys t2].
  simpl in *. congruence.
Qed.

Lemma mapM_app {A B : Type} (f : A -> Eff B) (a b : list A) :
  forall t,
    fst (mapM f (a ++ b) t)
    = fst (mapM f a t) ++ fst (mapM f b (snd (mapM f a t))).
Proof.
  induction a as [|x rest IH]; intro t; simpl; [reflexivity|].
  unfold bind, ret. destruct (f x t) as [y t1].
  specialize (IH t1).
  destruct (mapM f (rest ++ b) t1) as [ys t2].
  destruct (mapM f rest t1) as [ys1 t3].
  simpl in *. congruence.
Qed.

Lemma mapM_in {A B : Type} (f : A -> Eff B) (l : list A) (x : A) :
  In x l -> forall t, exists t', In (fst (f x t')) (fst (mapM f l t)).
Proof.
  induction l as [|a rest IH]; intros Hin t; [contradiction|].
  simpl. unfold bind, ret.
  destruct Hin as [->|Hin].
  - exists t. destruct (f x t) as [y t1].
    destruct (mapM f rest t1) as [ys t2]. left. reflexivity.
  - destruct (f a t) as [y t1].
    destruct (IH Hin t1) as [t' Ht'].
    destruct (mapM f rest t1) as [ys t2]. exists t'. right. exact Ht'.
Qed.

Lemma in_set_add_old (v x : value) (s : list value) :
  In x s -> In x (set_add v s).
Proof.
  unfold set_add. destruct (existsb _ s); [tauto|].
  intro H. apply in_or_app. left. exact H.
Qed.

Lemma in_set_add_string (s : string) (chg : list value) :
  In (JStr s) (set_add (JStr s) chg).
Proof.
  unfold set_add.
  destruct (existsb _ chg) eqn:E.
  - apply existsb_exists in E. destruct E as (x & Hin & Hx).
    destruct x as [| |[q|]| | |]; simpl in Hx; try discriminate.
    apply String.eqb_eq in Hx. subst. exact Hin.
  - apply in_or_app. right. left. reflexivity.
Qed.

(** The loop that reports the created ids. *)
Definition report (created : list obj) (chg : list value) : list value :=
  fold_left
    (fun chg element =>
       match get element "id" with
       | Some v => if truthy (Some v) then set_add v chg else chg
       | None => chg
       end) created chg.

Lemma report_keeps (created : list obj) :
  forall chg v, In v chg -> In v (report created chg).
Proof.
  unfold report.
  induction created as [|e rest IH]; intros chg v H; cbn [fold_left];
    [exact H|].
  apply IH. destruct (get e "id") as [w|]; [|exact H].
  destruct (truthy (Some w)); [apply in_set_add_old|]; exact H.
Qed.

Lemma report_adds (created : list obj) (c : obj) (s : string) :
  In c created -> get c "id" = Some (JStr s) -> s <> "" ->
  forall chg, In (JStr s) (report created chg).
Proof.
  intros Hin Hid Hs.
  induction created as [|e rest IH]; intro chg; [contradiction|].
  unfold report. cbn [fold_left]. fold (report rest).
  destruct Hin as [->|Hin]; [|apply IH; exact Hin].
  apply report_keeps. rewrite Hid. cbn [truthy].
  apply String.eqb_neq in Hs. rewrite Hs. cbn [negb].
  apply in_set_add_string.
Qed.

Definition skeletonKeys : list string :=
  [ "id"; "type"; "x"; "y"; "width"; "height"; "angle"; "strokeColor";
    "backgroundColor"; "fillStyle"; "strokeWidth"; "strokeStyle";
    "roughness"; "opacity"; "groupIds"; "frameId"; "roundness"; "seed";
    "version"; "versionNonce"; "isDeleted"; "boundElements"; "updated";
    "link"; "locked" ].

Lemma NoDup_skeletonKeys : NoDup skeletonKeys.
Proof.
  apply (NoDup_count_occ' string_dec). intros x Hin.
  unfold skeletonKeys in *. simpl in Hin.
  repeat (destruct Hin as [<-|Hin]; [vm_compute; reflexivity|]).
  contradiction.
Qed.

Section WithHost.
Variable host : Host.

Lemma fromSkeleton_shape (skeleton : obj) (t : nat) :
  exists base,
    keys base = skeletonKeys
    /\ fst (fromSkeleton host skeleton t) = spread base skeleton.
Proof.
  unfold fromSkeleton, randomBelow, bind, ret, read.
  destruct (get skeleton "id") as [[| | |s| |]|];
    destruct (coalesce_opt (get skeleton "seed") None);
    destruct (coalesce_opt (get skeleton "versionNonce") None);
    destruct (coalesce_opt (get skeleton "updated") None);
    cbn [fst]; eexists; (split; [|reflexivity]); reflexivity.
Qed.

(** A skeleton's string id is the id of the element made from it, and of
    that element normalized. *)
Lemma skeleton_id_kept (skeleton : obj) (s : string) (t t2 : nat) :
  NoDup (keys skeleton) -> get skeleton "id" = Some (JStr s) ->
  let created := fst (fromSkeleton host skeleton t) in
  get created "id" = Some (JStr s)
  /\ get (fst (normalizeElement host (JObj created) t2)) "id"
     = Some (JStr s).
Proof.
  intros Hnd Hid. cbv zeta.
  destruct (fromSkeleton_shape skeleton t) as (base & Hkeys & ->).
  assert (Hc : get (spread base skeleton) "id" = Some (JStr s)).
  { rewrite get_spread_record by exact Hnd. rewrite Hid. reflexivity. }
  split; [exact Hc|].
  destruct (normalizeElement_shape host (JObj (spread base skeleton)) t2)
    as (b2 & Hb2 & ->).
  simpl ensureObject.
  rewrite get_spread_record, Hc; [reflexivity|].
  apply spread_keys. rewrite Hkeys. apply NoDup_skeletonKeys.
Qed.

(** X14.  Adding elements appends: the scene has as many more elements as
    there were skeletons, elements the normalizer made before stay as
    they are at the front, a skeleton's non-empty string id is the id of
    an element of the scene and is reported changed, and ids reported
    before stay reported. *)
Theorem addElements_appends (st : PatchState) (skeletons : list obj)
    (t : nat) :
  exists st' t',
    applyOperation host st (AddElements skeletons) t = (Ok st', t')
    /\ List.length (elements (next st'))
       = (List.length (elements (next st)) + List.length skeletons)%nat
    /\ (Forall (settled host) (elements (next st)) ->
        firstn (List.length (elements (next st))) (elements (next st'))
        = elements (next st))
    /\ (forall skeleton s,
           In skeleton skeletons -> NoDup (keys skeleton) ->
           get skeleton "id" = Some (JStr s) -> s <> "" ->
           In (JStr s) (changed st')
           /\ hasId s (elements (next st')) = true)
    /\ (forall v, In v (changed st) -> In v (changed st')).
Proof.
  cbn [applyOperation]. unfold bind, ret, createElementsFromSkeleton,
    normalizeElements.
  pose proof (mapM_length (fromSkeleton host) skeletons t) as Hlen.
  pose proof (fun sk H => mapM_in (fromSkeleton host) skeletons sk H t)
    as Hmade.
  destruct (mapM (fromSkeleton host) skeletons t) as [created t1].
  cbn [fst] in Hlen, Hmade. cbn [ensureArray].
  pose proof (mapM_length (normalizeElement host)
                (map JObj (elements (next st) ++ created)) t1) as Hlen2.
  assert (Happ :
            fst (mapM (normalizeElement host)
                   (map JObj (elements (next st) ++ created)) t1)
            = fst (mapM (normalizeElement host)
                     (map JObj (elements (next st))) t1)
              ++ fst (mapM (normalizeElement host) (map JObj created)
                        (snd (mapM (normalizeElement host)
                                (map JObj (elements (next st))) t1)))).
  { rewrite map_app. apply mapM_app. }
  pose proof (fun c H =>
                mapM_in (normalizeElement host)
                  (map JObj (elements (next st) ++ created)) (JObj c) H t1)
    as Hnorm.
  destruct (mapM (normalizeElement host)
              (map JObj (elements (next st) ++ created)) t1)
    as [normalized t2].
  cbn [fst] in Hlen2, Happ, Hnorm.
  eexists; eexists. split; [reflexivity|].
  cbn [next changed with_elements elements].
  fold (report created (changed st)).
  split; [|split; [|split]].
  - rewrite Hlen2, length_map, length_app, Hlen. reflexivity.
  - intro Hs. rewrite Happ, (mapM_of_settled host _ Hs).
    rewrite firstn_app, firstn_all, Nat.sub_diag. simpl.
    apply app_nil_r.
  - intros sk s Hin Hnd Hid Hne.
    destruct (Hmade sk Hin) as [ta Hta].
    split.
    + apply (report_adds created _ s Hta); [|exact Hne].
      apply (skeleton_id_kept sk s ta 0%nat Hnd Hid).
    + assert (Hc : In (JObj (fst (fromSkeleton host sk ta)))
                      (map JObj (elements (next st) ++ created))).
      { apply in_map. apply in_or_app. right. exact Hta. }
      destruct (Hnorm _ Hc) as [tb Htb].
      unfold hasId. apply existsb_exists.
      eexists. split; [exact Htb|].
      apply same_value_zero_string.
      apply (skeleton_id_kept sk s ta tb Hnd Hid).
  - intros v Hv. apply report_keeps. exact Hv.
Qed.

End WithHost.

End AddFacts.

Module MergeFacts.

Import Validators JsonEngine ObjectFacts SpreadFacts NormalizeTwice Fixtures.

Definition keyed (item : obj) : string * obj := (keyFor item, item).

Lemma merged_as_spread (l : list obj) :
  forall m0,
    fold_left (fun m item => set (keyFor item) item m) l m0
    = spread m0 (map keyed l).
Proof.
  unfold spread.
  induction l as [|x rest IH]; intro m0; cbn [fold_left map];
    [reflexivity|].
  rewrite IH. reflexivity.
Qed.

Lemma mergeLibraryItems_spread (existing incoming : list obj) :
  mergeLibraryItems existing incoming
  = map snd (spread [] (map keyed (existing ++ incoming))).
Proof.
  unfold mergeLibraryItems. rewrite !merged_as_spread.
  unfold spread. rewrite map_app, fold_left_app. reflexivity.
Qed.

Lemma in_set {V : Type} (k k' : string) (v v' : V)
    (o : list (string * V)) :
  In (k, v) (set k' v' o) -> (k, v) = (k', v') \/ In (k, v) o.
Proof.
  induction o as [|[k0 v0] rest IH]; simpl.
  - intros [H|[]]. left. symmetry. exact H.
  - destruct (String.eqb k0 k').
    + intros [H|H]; [left; symmetry; exact H | right; right; exact H].
    + intros [H|H]; [right; left; exact H|].
      destruct (IH H) as [H1|H1]; [left; exact H1 | right; right; exact H1].
Qed.

Lemma in_spread {V : Type} (over : list (string * V)) :
  forall base kv, In kv (spread base over) -> In kv over \/ In kv base.
Proof.
  unfold spread.
  induction over as [|[k' v'] rest IH]; intros base [k v] H; cbn [fold_left]
    in *; [right; exact H|].
  destruct (IH _ _ H) as [H1|H1]; [left; right; exact H1|].
  cbn [fst snd] in H1. apply in_set in H1.
  destruct H1 as [H1|H1]; [left; left; symmetry; exact H1 | right; exact H1].
Qed.

Lemma get_in {V : Type} (o : list (string * V)) (k : string) (v : V) :
  get o k = Some v -> In (k, v) o.
Proof.
  induction o as [|[k' v'] rest IH]; simpl; [discriminate|].
  destruct (String.eqb k' k) eqn:E.
  - apply String.eqb_eq in E. intro H. inversion H; subst. left. reflexivity.
  - intro H. right. apply IH. exact H.
Qed.

(** X15.  A library merge keeps one item for each key, the last one of
    the existing items followed by the incoming ones: no two items of the
    result have the same key, every item of the result is one of the
    inputs, an item that no later item shares its key with is in the
    result, and when all keys differ the result is the existing items
    followed by the incoming ones. *)
Theorem mergeLibraryItems_last_wins (existing incoming : list obj) :
  NoDup (map keyFor (mergeLibraryItems existing incoming))
  /\ (forall item,
         In item (mergeLibraryItems existing incoming) ->
         In item (existing ++ incoming))
  /\ (forall pre item post,
         existing ++ incoming = pre ++ item :: post ->
         Forall (fun later => keyFor later <> keyFor item) post ->
         In item (mergeLibraryItems existing incoming))
  /\ (NoDup (map keyFor (existing ++ incoming)) ->
      mergeLibraryItems existing incoming = existing ++ incoming).
Proof.
  rewrite mergeLibraryItems_spread.
  set (l := existing ++ incoming).
  assert (Hentries : forall kv, In kv (spread [] (map keyed l)) ->
                                kv = keyed (snd kv) /\ In (snd kv) l).
  { intros kv H. apply in_spread in H. destruct H as [H|[]].
    apply in_map_iff in H. destruct H as (x & <- & Hx).
    split; [reflexivity | exact Hx]. }
  split; [|split; [|split]].
  - destruct (spread_keys (map keyed l) (@nil (string * obj))) as [Hnd _];
      [constructor|].
    replace (map keyFor (map snd (spread [] (map keyed l))))
      with (keys (spread [] (map keyed l))); [exact Hnd|].
    unfold keys. rewrite map_map. apply map_ext_in.
    intros kv H. destruct (Hentries kv H) as [Hk _].
    rewrite Hk at 1. reflexivity.
  - intros item H. apply in_map_iff in H.
    destruct H as (kv & <- & Hkv). apply (Hentries kv Hkv).
  - intros pre item post Heq Hpost.
    assert (Hget : get (spread [] (map keyed l)) (keyFor item) = Some item).
    { rewrite get_spread, Heq, map_app. cbn [map].
      rewrite rev_app_distr. cbn [rev]. rewrite <- !app_assoc.
      rewrite get_app.
      assert (Hnone : get (rev (map keyed post)) (keyFor item) = None).
      { apply get_none_keys. intro Hin. unfold keys in Hin.
        apply in_map_iff in Hin. destruct Hin as (kv & Hk & Hkv).
        apply in_rev in Hkv. apply in_map_iff in Hkv.
        destruct Hkv as (x & <- & Hx).
        rewrite Forall_forall in Hpost. apply (Hpost x Hx). exact Hk. }
      rewrite Hnone. cbn [app get keyed]. unfold keyed at 1.
      cbn [get]. rewrite String.eqb_refl. reflexivity. }
    apply get_in in Hget. apply in_map_iff.
    exists (keyFor item, item). split; [reflexivity | exact Hget].
  - intro Hnd. unfold spread.
    change (fold_left _ (map keyed l) [])
      with (fold_left setf (map keyed l) (@nil (string * obj))).
    rewrite append_new_keys.
    + cbn [app]. rewrite map_map. apply map_id.
    + cbn [keys map app]. unfold keys. rewrite map_map. exact Hnd.
Qed.

Section WithHost.
Variable host : Host.

Lemma applyPatch_of_operations (sc : SceneEnvelope)
    (operations : list ScenePatchOperation) (st : PatchState) (t t1 : nat) :
  applyOperations host {| next := sc; changed := [] |} operations t
  = (Ok st, t1) ->
  let els := mapM (normalizeElement host) (map JObj (elements (next st))) t1 in
  exists p,
    applyPatch host sc operations t = (Ok p, S (snd els))
    /\ scene p = stamped (next st) (fst els) (isoNow host (snd els))
    /\ changedElementIds p = sort_with default_compare (changed st).
Proof.
  intro H. cbv zeta. unfold applyPatch, bind. rewrite H.
  unfold normalize, ret.
  pose proof (normalizeScene_stamped host (next st) t1) as Hs.
  cbv zeta in Hs.
  assert (Ht : snd (normalizeScene host (next st) t1)
               = S (snd (mapM (normalizeElement host)
                           (map JObj (elements (next st))) t1))).
  { unfold normalizeScene, bind, ret, read. simpl ensureArray.
    destruct (mapM (normalizeElement host) (map JObj (elements (next st))) t1)
      as [els t2].
    reflexivity. }
  destruct (normalizeScene host (next st) t1) as [n t2].
  cbn [fst snd] in Hs, Ht. subst n t2.
  eexists. split; [reflexivity|]. split; reflexivity.
Qed.

(** X16.  Setting the app state in a batch of its own: with [merge] true
    a key has the value the operation gives it, or else the value it had;
    with [merge] false or left out the app state is the operation's and
    nothing of the old one stays.  Files and library items are as before
    and no id is reported changed. *)
Theorem setAppState_merge_or_replace (sc : SceneEnvelope) (appSt : obj)
    (merge : option bool) (t : nat)
    (Hrecord : NoDup (keys appSt)) :
  exists p t',
    applyPatch host sc [SetAppState appSt merge] t = (Ok p, t')
    /\ (merge = Some true ->
        forall k, get (appState (scene p)) k
                  = match get appSt k with
                    | Some v => Some v
                    | None => get (appState sc) k
                    end)
    /\ (merge <> Some true -> appState (scene p) = appSt)
    /\ files (scene p) = files sc
    /\ libraryItems (scene p) = libraryItems sc
    /\ changedElementIds p = [].
Proof.
  destruct (applyPatch_of_operations sc [SetAppState appSt merge]
              {| next := with_appState sc
                           (if flag merge then spread (appState sc) appSt
                            else appSt);
                 changed := [] |} t t eq_refl)
    as (p & Hrun & Hscene & Hchg).
  exists p. eexists. split; [exact Hrun|].
  rewrite Hscene, Hchg. cbn [stamped next appState files libraryItems
                             with_appState changed sort_with].
  destruct sc as [m e a f lib]. cbn [with_appState appState files
                                      libraryItems].
  split; [|split; [|split; [|split]]]; try reflexivity.
  - intros -> k. cbn [flag]. apply get_spread_record. exact Hrecord.
  - intro Hm. destruct merge as [[|]|]; [congruence | |]; reflexivity.
Qed.

(** X17.  Setting the files in a batch of its own: with [merge] true the
    operation's files are added to the old ones and win where the ids
    meet; otherwise they replace them.  The file count of the metadata is
    the number of files of the scene returned. *)
Theorem setFiles_merge_or_replace (sc : SceneEnvelope) (fls : obj)
    (merge : option bool) (t : nat)
    (Hrecord : NoDup (keys fls)) :
  exists p t',
    applyPatch host sc [SetFiles fls merge] t = (Ok p, t')
    /\ (merge = Some true ->
        forall k, get (files (scene p)) k
                  = match get fls k with
                    | Some v => Some v
                    | None => get (files sc) k
                    end)
    /\ (merge <> Some true -> files (scene p) = fls)
    /\ fileCount (metadata (scene p)) = List.length (keys (files (scene p)))
    /\ appState (scene p) = appState sc.
Proof.
  destruct (applyPatch_of_operations sc [SetFiles fls merge]
              {| next := with_files sc
                           (if flag merge then spread (files sc) fls
                            else fls);
                 changed := [] |} t t eq_refl)
    as (p & Hrun & Hscene & Hchg).
  exists p. eexists. split; [exact Hrun|].
  rewrite Hscene. cbn [stamped next appState files metadata fileCount
                       with_files].
  destruct sc as [m e a f lib]. cbn [with_files appState files].
  split; [|split; [|split]]; try reflexivity.
  - intros -> k. cbn [flag]. apply get_spread_record. exact Hrecord.
  - intro Hm. destruct merge as [[|]|]; [congruence | |]; reflexivity.
Qed.

End WithHost.

Lemma setAppState_witness :
  exists p t',
    applyPatch tickingHost
      (with_appState (emptyScene "s") [("theme", JStr "dark")])
      [SetAppState [("zoom", int 2)] None] 0%nat = (Ok p, t')
    /\ appState (scene p) = [("zoom", int 2)].
Proof.
  assert (H : NoDup (keys [("zoom", int 2)])).
  { constructor; [simpl; tauto | constructor]. }
  destruct (setAppState_merge_or_replace tickingHost
              (with_appState (emptyScene "s") [("theme", JStr "dark")])
              [("zoom", int 2)] None 0%nat H)
    as (p & t' & Hrun & _ & Hreplace & _).
  exists p, t'. split; [exact Hrun|].
  apply Hreplace. discriminate.
Defined.

Lemma setFiles_witness :
  exists p t',
    applyPatch tickingHost
      (with_files (emptyScene "s") [("a", JObj [("id", JStr "a")])])
      [SetFiles [("b", JObj [("id", JStr "b")])] (Some true)] 0%nat
    = (Ok p, t')
    /\ get (files (scene p)) "a" = Some (JObj [("id", JStr "a")])
    /\ get (files (scene p)) "b" = Some (JObj [("id", JStr "b")]).
Proof.
  assert (H : NoDup (keys [("b", JObj [("id", JStr "b")])])).
  { constructor; [simpl; tauto | constructor]. }
  destruct (setFiles_merge_or_replace tickingHost
              (with_files (emptyScene "s") [("a", JObj [("id", JStr "a")])])
              [("b", JObj [("id", JStr "b")])] (Some true) 0%nat H)
    as (p & t' & Hrun & Hmerge & _).
  exists p, t'. split; [exact Hrun|].
  split; rewrite (Hmerge eq_refl); reflexivity.
Defined.

End MergeFacts.

(* ================================================================== *)
(** * [JsonEngine.fitToContent] *)
(* ================================================================== *)

Module Viewport.

Import Validators JsonEngine.

(** [Math.min] and [Math.max] of two numbers: NaN if either is. *)
Definition jsmin (a b : jsnum) : jsnum :=
  match a, b with
  | Fin x, Fin y => Fin (Qmin x y)
  | _, _ => NaN
  end.

Definition jsmax (a b : jsnum) : jsnum :=
  match a, b with
  | Fin x, Fin y => Fin (Qmax x y)
  | _, _ => NaN
  end.

Definition jshalf (a : jsnum) : jsnum :=
  match a with Fin x => Fin (Qred (x / 2)) | NaN => NaN end.

Definition jsneg (a : jsnum) : jsnum :=
  match a with Fin x => Fin (Qred (- x)) | NaN => NaN end.

(** A bound of the loop: [None] while it is the infinity it starts from,
    which the first number met replaces. *)
Definition lower (acc : option jsnum) (x : jsnum) : option jsnum :=
  Some (match acc with None => x | Some a => jsmin a x end).

Definition upper (acc : option jsnum) (x : jsnum) : option jsnum :=
  Some (match acc with None => x | Some a => jsmax a x end).

Record Extent : Type := {
  minX : option jsnum;
  minY : option jsnum;
  maxX : option jsnum;
  maxY : option jsnum
}.

Definition coordinate (element : obj) (k : string) : jsnum :=
  to_number (Some (coalesce (get element k) (int 0))).

Definition xOf (element : obj) : jsnum := coordinate element "x".
Definition yOf (element : obj) : jsnum := coordinate element "y".
Definition widthOf (element : obj) : jsnum := coordinate element "width".
Definition heightOf (element : obj) : jsnum := coordinate element "height".

(** One turn of the loop over the elements that are not deleted. *)
Definition stretch (ext : Extent) (element : obj) : Extent :=
  {| minX := lower (minX ext) (xOf element);
     minY := lower (minY ext) (yOf element);
     maxX := upper (maxX ext) (jsadd (xOf element) (widthOf element));
     maxY := upper (maxY ext) (jsadd (yOf element) (heightOf element)) |}.

(** [(min + max) / 2]; the two infinities add up to NaN. *)
Definition centre (lo hi : option jsnum) : jsnum :=
  match lo, hi with
  | Some a, Some b => jshalf (jsadd a b)
  | _, _ => NaN
  end.

Definition nonDeleted (sc : SceneEnvelope) : list obj :=
  filter (fun element => negb (truthy (get element "isDeleted")))
         (elements sc).

Definition fitted (sc : SceneEnvelope) : obj :=
  let ext := fold_left stretch (nonDeleted sc)
               {| minX := None; minY := None; maxX := None; maxY := None |} in
  let cx := centre (minX ext) (maxX ext) in
  let cy := centre (minY ext) (maxY ext) in
  spread (appState sc)
         [ ("scrollX", JNum (jsneg cx));
           ("scrollY", JNum (jsneg cy));
           ("zoom", JObj [("value", int 1)]) ].

Definition fitToContent (host : Host) (sc : SceneEnvelope)
  : Eff SceneEnvelope :=
  if (List.length (nonDeleted sc) =? 0)%nat then ret sc
  else normalize host (with_appState sc (fitted sc)).

End Viewport.

Module ViewportFacts.

Import Validators JsonEngine Viewport ObjectFacts SpreadFacts NormalizeTwice
       Fixtures.











Lemma NoDup_viewport_keys (a b c : value) :
  NoDup (keys [("scrollX", a); ("scrollY", b); ("zoom", c)]).
Proof.
  repeat (constructor; [simpl; intuition discriminate|]). constructor.
Qed.

Section WithHost.
Variable host : Host.

Lemma fitToContent_live (sc : SceneEnvelope) (t : nat) :
  nonDeleted sc <> [] ->
  fitToContent host sc t
  = normalizeScene host (with_appState sc (fitted sc)) t.
Proof.
  intro H. unfold fitToContent, normalize.
  destruct (nonDeleted sc); [congruence | reflexivity].
Qed.

(** X18.  With no element, or only deleted ones, [fitToContent] gives the
    scene back as it is: not normalized, not stamped, and the host is not
    read. *)
Theorem fitToContent_nothing_to_fit (sc : SceneEnvelope) (t : nat)
    (Hnone : forall e, In e (elements sc) ->
                       truthy (get e "isDeleted") = true) :
  fitToContent host sc t = (sc, t).
Proof.
  unfold fitToContent.
  replace (nonDeleted sc) with (@nil obj); [reflexivity|].
  unfold nonDeleted. symmetry.
  induction (elements sc) as [|e rest IH]; [reflexivity|].
  cbn [filter]. rewrite (Hnone e) by (left; reflexivity). cbn [negb].
  apply IH. intros e' H. apply Hnone. right. exact H.
Qed.

(** X19.  With an element that is not deleted, [fitToContent] changes the
    viewport and nothing else of the content: [zoom] is [{ value: 1 }],
    every app-state key other than [scrollX], [scrollY] and [zoom] keeps
    its value, files and library items are the same, elements the
    normalizer made before are the same, and the identity of the scene is
    kept. *)
Theorem fitToContent_viewport_only (sc : SceneEnvelope) (t : nat)
    (Hlive : nonDeleted sc <> []) :
  let r := fst (fitToContent host sc t) in
  get (appState r) "zoom" = Some (JObj [("value", int 1)])
  /\ (forall k, k <> "scrollX" -> k <> "scrollY" -> k <> "zoom" ->
                get (appState r) k = get (appState sc) k)
  /\ files r = files sc
  /\ libraryItems r = libraryItems sc
  /\ (Forall (settled host) (elements sc) -> elements r = elements sc)
  /\ sceneId (metadata r) = sceneId (metadata sc)
  /\ name (metadata r) = name (metadata sc)
  /\ createdAt (metadata r) = createdAt (metadata sc).
Proof.
  cbv zeta. rewrite (fitToContent_live sc t Hlive), normalizeScene_stamped.
  cbv zeta. destruct sc as [m e a f lib].
  cbn [stamped with_appState appState files libraryItems elements metadata
       sceneId name createdAt].
  split; [|split; [|split; [|split; [|split; [|split; [|split]]]]]];
    try reflexivity.
  - unfold fitted. rewrite get_spread_record by apply NoDup_viewport_keys.
    reflexivity.
  - intros k H1 H2 H3. unfold fitted.
    rewrite get_spread_record by apply NoDup_viewport_keys.
    cbn [get].
    rewrite (proj2 (String.eqb_neq "scrollX" k)) by congruence.
    rewrite (proj2 (String.eqb_neq "scrollY" k)) by congruence.
    rewrite (proj2 (String.eqb_neq "zoom" k)) by congruence.
    reflexivity.
  - intro Hs. apply mapM_of_settled. exact Hs.
Qed.


End WithHost.

Lemma fitToContent_nothing_to_fit_witness :
  fitToContent tickingHost
    (with_elements (emptyScene "s") [set "isDeleted" (JBool true) n1]) 0%nat
  = (with_elements (emptyScene "s") [set "isDeleted" (JBool true) n1], 0%nat).
Proof.
  apply fitToContent_nothing_to_fit.
  intros e [<-|[]]. reflexivity.
Defined.

Lemma fitToContent_viewport_only_witness :
  get (appState
         (fst (fitToContent tickingHost
                 (with_appState (with_elements (emptyScene "s") [n1; n2])
                    [("theme", JStr "dark")]) 0%nat))) "theme"
  = Some (JStr "dark").
Proof.
  assert (Hlive : nonDeleted
                    (with_appState (with_elements (emptyScene "s") [n1; n2])
                       [("theme", JStr "dark")]) <> []) by discriminate.
  rewrite (proj1 (proj2 (fitToContent_viewport_only tickingHost _ 0%nat
                           Hlive)) "theme");
    [reflexivity | discriminate | discriminate | discriminate].
Defined.


End ViewportFacts.

Module QualityFacts.

Import DiagramQuality ObjectFacts BindingRepair Fixtures.

(** The candidates [inferBindingTargetId] does not skip. *)
Definition eligible (point : Point) (excludeId : string) (element : obj)
  : bool :=
  nonempty (idOf element)
  && negb (String.eqb (idOf element) excludeId)
  && negb (is_connector (typeOf element))
  && negb (truthy (get element "isDeleted"))
  && pointInsideBounds point (boundsFor element) 12.

Definition distanceTo (point : Point) (element : obj) : Q :=
  pointDistance point (boundsFor element).

Lemma inferStep_eligible (point : Point) (excludeId : string)
    (best : option (string * Q)) (element : obj) :
  inferStep point excludeId best element
  = if eligible point excludeId element
    then match best with
         | None => Some (idOf element, distanceTo point element)
         | Some (_, d) =>
             if negb (Qle_bool d (distanceTo point element))
             then Some (idOf element, distanceTo point element)
             else best
         end
    else best.
Proof.
  unfold inferStep, eligible, distanceTo.
  destruct (nonempty (idOf element)); [|reflexivity].
  destruct (String.eqb (idOf element) excludeId); [reflexivity|].
  destruct (is_connector (typeOf element)); [reflexivity|].
  destruct (truthy (get element "isDeleted")); [reflexivity|].
  destruct (pointInsideBounds point (boundsFor element) 12); reflexivity.
Qed.

(** The best candidate so far, after the loop has seen [done]. *)
Definition nearestOf (point : Point) (excludeId : string) (done : list obj)
    (best : option (string * Q)) : Prop :=
  match best with
  | None => forall e, In e done -> eligible point excludeId e = false
  | Some (id, d) =>
      exists e,
        In e done /\ eligible point excludeId e = true /\ idOf e = id
        /\ d = distanceTo point e
        /\ forall e', In e' done -> eligible point excludeId e' = true ->
                      d <= distanceTo point e'
  end.

Lemma inferStep_nearest (point : Point) (excludeId : string)
    (done : list obj) (best : option (string * Q)) (c : obj) :
  nearestOf point excludeId done best ->
  nearestOf point excludeId (done ++ [c]) (inferStep point excludeId best c).
Proof.
  intro H. rewrite inferStep_eligible.
  destruct (eligible point excludeId c) eqn:Ec.
  - destruct best as [[id d]|].
    + destruct H as (e & Hin & He & Hid & Hd & Hmin).
      destruct (Qle_bool d (distanceTo point c)) eqn:Hle; cbn [negb].
      * exists e. split; [apply in_or_app; left; exact Hin|].
        split; [exact He|]. split; [exact Hid|]. split; [exact Hd|].
        intros e' Hin' He'. apply in_app_or in Hin'.
        destruct Hin' as [Hin'|[<-|[]]]; [apply Hmin; assumption|].
        apply Qle_bool_iff. exact Hle.
      * assert (Hlt : distanceTo point c < d).
        { apply Qnot_le_lt. intro Hc. apply Qle_bool_iff in Hc. congruence. }
        exists c. split; [apply in_or_app; right; left; reflexivity|].
        split; [exact Ec|]. split; [reflexivity|]. split; [reflexivity|].
        intros e' Hin' He'. apply in_app_or in Hin'.
        destruct Hin' as [Hin'|[<-|[]]]; [|apply Qle_refl].
        eapply Qle_trans; [apply Qlt_le_weak; exact Hlt|].
        apply Hmin; assumption.
    + exists c. split; [apply in_or_app; right; left; reflexivity|].
      split; [exact Ec|]. split; [reflexivity|]. split; [reflexivity|].
      intros e' Hin' He'. apply in_app_or in Hin'.
      destruct Hin' as [Hin'|[<-|[]]]; [|apply Qle_refl].
      simpl in H. rewrite (H e' Hin') in He'. discriminate.
  - destruct best as [[id d]|].
    + destruct H as (e & Hin & He & Hid & Hd & Hmin).
      exists e. split; [apply in_or_app; left; exact Hin|].
      split; [exact He|]. split; [exact Hid|]. split; [exact Hd|].
      intros e' Hin' He'. apply in_app_or in Hin'.
      destruct Hin' as [Hin'|[<-|[]]]; [apply Hmin; assumption|].
      congruence.
    + intros e' Hin'. apply in_app_or in Hin'.
      destruct Hin' as [Hin'|[<-|[]]]; [apply H; exact Hin' | exact Ec].
Qed.

Lemma infer_loop_nearest (point : Point) (excludeId : string)
    (l : list obj) :
  forall done best,
    nearestOf point excludeId done best ->
    nearestOf point excludeId (done ++ l)
      (fold_left (inferStep point excludeId) l best).
Proof.
  induction l as [|c rest IH]; intros done best H; cbn [fold_left].
  - rewrite app_nil_r. exact H.
  - replace (done ++ c :: rest) with ((done ++ [c]) ++ rest)
      by (rewrite <- app_assoc; reflexivity).
    apply IH. apply inferStep_nearest. exact H.
Qed.

(** X21.  Geometric inference returns the id of a nearest candidate: of
    the elements that have an id other than the connector's, are no
    connector, are not deleted and hold the point within 12 pixels of
    their box, one whose centre is at the least distance from the point;
    it returns nothing only when there is no such element. *)
Theorem inferBindingTargetId_nearest (point : Point) (candidates : list obj)
    (excludeId : string) :
  match inferBindingTargetId point candidates excludeId with
  | None =>
      forall e, In e candidates -> eligible point excludeId e = false
  | Some id =>
      exists e,
        In e candidates /\ eligible point excludeId e = true /\ idOf e = id
        /\ forall e', In e' candidates ->
                      eligible point excludeId e' = true ->
                      distanceTo point e <= distanceTo point e'
  end.
Proof.
  unfold inferBindingTargetId.
  pose proof (infer_loop_nearest point excludeId candidates [] None) as H.
  cbn [app] in H.
  destruct (fold_left (inferStep point excludeId) candidates None)
    as [[id d]|]; cbn [option_map fst].
  - destruct H as (e & Hin & He & Hid & Hd & Hmin); [intros e []|].
    exists e. subst d. auto.
  - apply H. intros e [].
Qed.

(** An entry of [boundElements] that names the connector. *)
Definition refers (connectorId : string) (entry : value) : bool :=
  match as_object (Some entry) with
  | Some o =>
      String.eqb (to_string (coalesce (get o "id") (JStr ""))) connectorId
  | None => false
  end.

(** X22.  [ensureBoundElementsRef] records a connector once: afterwards
    [boundElements] is an array that starts with the entries it had and
    names the connector, every other key of the target is as before, and
    recording the same connector again changes nothing. *)
Theorem ensureBoundElementsRef_once (target : obj)
    (connectorId type type2 : string) :
  let r := ensureBoundElementsRef target connectorId type in
  ensureBoundElementsRef r connectorId type2 = r
  /\ (forall k, k <> "boundElements" -> get r k = get target k)
  /\ exists added,
       get r "boundElements"
       = Some (JArr (match get target "boundElements" with
                     | Some (JArr l) => l
                     | _ => []
                     end ++ added))
       /\ existsb (refers connectorId)
                  (match get target "boundElements" with
                   | Some (JArr l) => l
                   | _ => []
                   end ++ added) = true.
Proof.
  cbv zeta.
  split; [|split; [intros k Hk; apply get_ensureBoundElementsRef; exact Hk|]].
  - unfold ensureBoundElementsRef at 2.
    fold (refers connectorId).
    destruct (existsb (refers connectorId) _) eqn:E.
    + unfold ensureBoundElementsRef. fold (refers connectorId).
      rewrite E. reflexivity.
    + unfold ensureBoundElementsRef. fold (refers connectorId).
      rewrite get_set_same, existsb_app.
      cbn [existsb refers as_object get coalesce to_string String.eqb
           Ascii.eqb Bool.eqb].
      rewrite E, String.eqb_refl. reflexivity.
  - unfold ensureBoundElementsRef. fold (refers connectorId).
    destruct (existsb (refers connectorId) _) eqn:E.
    + exists []. rewrite app_nil_r. split; [|exact E].
      destruct (get target "boundElements") as [[| | | |l|]|];
        simpl in E; try discriminate. reflexivity.
    + eexists. rewrite get_set_same. split; [reflexivity|].
      rewrite existsb_app.
      cbn [existsb refers as_object get coalesce to_string String.eqb
           Ascii.eqb Bool.eqb].
      rewrite String.eqb_refl. apply orb_true_r.
Qed.

(** X23.  In fix mode the quality pass writes nothing but the bindings,
    [boundElements] and the text fields: the scene has as many elements,
    each reads as before on every key other than [boundElements],
    [startBinding], [endBinding], [text], [originalText], [width] and
    [height], and metadata (the revision hash with it), app state, files
    and library items are the same. *)
Theorem quality_pass_frame (sc : SceneEnvelope) :
  let r := scene (applyDiagramQuality sc true) in
  List.length (elements r) = List.length (elements sc)
  /\ (forall p key, ~ In key mutableKeys ->
        get (nth p (elements r) []) key = get (nth p (elements sc) []) key)
  /\ metadata r = metadata sc
  /\ appState r = appState sc
  /\ files r = files sc
  /\ libraryItems r = libraryItems sc.
Proof.
  cbv zeta. unfold applyDiagramQuality. cbn [scene]. rewrite map_id.
  pose proof (loop_inv (elements sc) (List.length (elements sc)) 0
                {| els := elements sc; found := []; fixes := 0 |}) as H.
  destruct H as (H1 & H2 & _).
  { split; [reflexivity|]. split; [intros p key _; reflexivity|].
    split; [intros p key _ _; reflexivity | intros p e'; left; reflexivity]. }
  destruct sc as [m e a f lib]. cbn [with_elements elements metadata appState
                                     files libraryItems] in *.
  split; [exact H1|]. split; [exact H2|].
  repeat split.
Qed.

End QualityFacts.

Module WrapFacts.

Import DiagramQuality TextWrap.

Lemma join_more (sep x : string) (l : list string) :
  l <> [] -> join sep (x :: l) = (x ++ sep ++ join sep l)%string.
Proof. destruct l; [congruence | reflexivity]. Qed.

(** The lines [pack] makes, put back on one line, are the words it was
    given. *)
Lemma pack_join (m : Q) (words : list string) :
  forall current,
    join " " (pack m current words) = join " " (current :: words).
Proof.
  induction words as [|w rest IH]; intro current; [reflexivity|].
  cbn [pack].
  destruct (Qle_bool _ m).
  - rewrite IH. destruct rest as [|r rs]; [reflexivity|].
    rewrite !join_more by discriminate.
    rewrite !append_assoc. reflexivity.
  - rewrite join_more by apply pack_nonempty.
    rewrite IH, (join_more " " current (w :: rest)) by discriminate.
    reflexivity.
Qed.

(** X24.  Wrapping a paragraph only moves its words onto lines: with each
    line break turned back into a space, the wrapped paragraph is the
    words of the paragraph in their order, one space between them,
    whatever the width. *)
Theorem wrapParagraph_keeps_words (m : Q) (paragraph : string) :
  join " " (split_on "010" (wrapParagraph m paragraph))
  = join " " (filter nonempty (split_spaces false paragraph)).
Proof.
  rewrite wrapParagraph_lines, split_on_join.
  - unfold paragraphLines.
    destruct (filter nonempty (split_spaces false paragraph)) as [|first rest];
      [reflexivity | apply pack_join].
  - unfold paragraphLines.
    destruct (filter nonempty (split_spaces false paragraph));
      [discriminate | apply pack_nonempty].
  - eapply Forall_impl; [|apply (paragraphLines_fit m paragraph)].
    intros l [_ H]. exact H.
Qed.

End WrapFacts.

Module ValidationFacts.

Import JsonEngine SceneStore SceneService UpdateFacts.





End ValidationFacts.

(* ================================================================== *)
(** * [SceneService]: creation, files, listing and sessions *)
(* ================================================================== *)

Module SceneOperations.

Import SceneStore.

(** The service: its store and the scene each session has open. *)
Record Service : Type := {
  store : Store;
  sessionActiveScene : list (string * string)
}.

Definition createSceneMetadata (id name now : string) : SceneMetadata :=
  {| sceneId := id; name := name; createdAt := now; updatedAt := now;
     elementCount := 0; fileCount := 0;
     engineHints := {| hasFrames := false; hasEmbeddables := false;
                       hasImages := false |};
     revisionHash := "" |}.

Record CreateInput : Type := {
  inputSceneId : option string;
  inputName : option string;
  inputElements : option (list obj);
  inputAppState : option obj
}.

Definition conflict (id : string) : AppError :=
  {| code := CONFLICT; message := ("Scene already exists: " ++ id)%string;
     status := 409 |}.


Section WithHost.
Variable host : Host.

Definition createScene (input : CreateInput) (st : Store)
  : Eff (outcome SceneEnvelope * Store) :=
  (id <- match inputSceneId input with
         | Some s => ret s
         | None => read (randomUUID host)
         end ;;
   match exists_ id st with
   | Throw e => ret (Throw e, st)
   | Ok true => ret (Throw (conflict id), st)
   | Ok false =>
       now <- read (isoNow host) ;;
       sc <- JsonEngine.normalize host
               {| metadata :=
                    createSceneMetadata id
                      (match inputName input with
                       | Some n => n
                       | None => ("Scene " ++ substring 0 8 id)%string
                       end) now;
                  elements := match inputElements input with
                              | Some l => l
                              | None => []
                              end;
                  appState := match inputAppState input with
                              | Some a => a
                              | None => []
                              end;
                  files := [];
                  libraryItems := [] |} ;;
       saved <- save host sc st ;;
       match saved with
       | (Throw e, st2) => ret (Throw e, st2)
       | (Ok _, st2) => ret (Ok sc, st2)
       end
   end)%eff.

Definition saveScene (id : string) (st : Store)
  : Eff (outcome SceneEnvelope * Store) :=
  match load id st with
  | (Throw e, st1) => ret (Throw e, st1)
  | (Ok sc, st1) =>
      (saved <- save host sc st1 ;;
       match saved with
       | (Throw e, st2) => ret (Throw e, st2)
       | (Ok _, st2) => ret (Ok sc, st2)
       end)%eff
  end.

Definition normalizeScene (id : string) (st : Store)
  : Eff (outcome SceneEnvelope * Store) :=
  match load id st with
  | (Throw e, st1) => ret (Throw e, st1)
  | (Ok sc, st1) =>
      (normalized <- JsonEngine.normalize host sc ;;
       saved <- save host normalized st1 ;;
       match saved with
       | (Throw e, st2) => ret (Throw e, st2)
       | (Ok _, st2) => ret (Ok normalized, st2)
       end)%eff
  end.

Definition fitToContent (id : string) (st : Store)
  : Eff (outcome SceneEnvelope * Store) :=
  match load id st with
  | (Throw e, st1) => ret (Throw e, st1)
  | (Ok sc, st1) =>
      (fitted <- Viewport.fitToContent host sc ;;
       saved <- save host fitted st1 ;;
       match saved with
       | (Throw e, st2) => ret (Throw e, st2)
       | (Ok _, st2) => ret (Ok fitted, st2)
       end)%eff
  end.


End WithHost.

Definition getScene (id : string) (st : Store)
  : outcome SceneEnvelope * Store :=
  load id st.



Definition openScene (id sessionId : string) (sv : Service)
  : outcome SceneEnvelope * Service :=
  match load id (store sv) with
  | (Throw e, st1) =>
      (Throw e, {| store := st1;
                   sessionActiveScene := sessionActiveScene sv |})
  | (Ok sc, st1) =>
      (Ok sc, {| store := st1;
                 sessionActiveScene :=
                   set sessionId id (sessionActiveScene sv) |})
  end.

(** The answer is always [{ closed: true }]; what matters is the map. *)
Definition closeScene (id sessionId : string) (sv : Service) : Service :=
  match get (sessionActiveScene sv) sessionId with
  | Some current =>
      if String.eqb current id
      then {| store := store sv;
              sessionActiveScene := remove sessionId (sessionActiveScene sv) |}
      else sv
  | None => sv
  end.

Definition getActiveScene (sessionId : string) (sv : Service)
  : outcome (option SceneEnvelope) * Service :=
  match get (sessionActiveScene sv) sessionId with
  | Some activeId =>
      if nonempty activeId then
        match getScene activeId (store sv) with
        | (Throw e, st1) =>
            (Throw e, {| store := st1;
                         sessionActiveScene := sessionActiveScene sv |})
        | (Ok sc, st1) =>
            (Ok (Some sc), {| store := st1;
                              sessionActiveScene := sessionActiveScene sv |})
        end
      else (Ok None, sv)
  | None => (Ok None, sv)
  end.

(** The answer is [clearedActiveScene]. *)
Definition resetSession (sessionId : string) (sv : Service)
  : bool * Service :=
  (has (sessionActiveScene sv) sessionId,
   {| store := store sv;
      sessionActiveScene := remove sessionId (sessionActiveScene sv) |}).

End SceneOperations.

Module ServiceFacts.

Import Validators JsonEngine SceneStore SceneService SceneOperations
       ObjectFacts NormalizeTwice StoreFacts Fixtures.

Lemma get_remove_same {V : Type} (k : string) (o : list (string * V)) :
  get (remove k o) k = None.
Proof.
  induction o as [|[k' v'] rest IH]; simpl; [reflexivity|].
  destruct (String.eqb k' k) eqn:E; [exact IH|].
  simpl. rewrite E. exact IH.
Qed.


Section WithHost.
Variable host : Host.

(** What [save] leaves behind for a scene with a valid id. *)
Lemma saved_loads (s : SceneEnvelope) (st : Store) (t : nat) :
  validId (sceneId (metadata s)) = true ->
  exists st1,
    save host s st t = (Ok tt, st1, S t)
    /\ load (sceneId (metadata s)) st1 = (Ok s, st1)
    /\ exists_ (sceneId (metadata s)) st1 = Ok true.
Proof.
  intro Hid. unfold save, exists_, load.
  rewrite (scenePath_valid _ Hid). unfold bind, read, ret.
  eexists. split; [reflexivity|].
  cbn [dir cache]. rewrite stat_write_same, get_set_same. cbn.
  rewrite Z.eqb_refl. split; reflexivity.
Qed.

Lemma normalize_sceneId (s : SceneEnvelope) (t : nat) :
  sceneId (metadata (fst (normalize host s t))) = sceneId (metadata s).
Proof.
  unfold normalize. rewrite normalizeScene_stamped. reflexivity.
Qed.

(** The scene [createScene] hands to the normalizer. *)
Definition draft (input : CreateInput) (id now : string) : SceneEnvelope :=
  {| metadata :=
       createSceneMetadata id
         (match inputName input with
          | Some n => n
          | None => ("Scene " ++ substring 0 8 id)%string
          end) now;
     elements := match inputElements input with
                 | Some l => l
                 | None => []
                 end;
     appState := match inputAppState input with
                 | Some a => a
                 | None => []
                 end;
     files := [];
     libraryItems := [] |}.

Lemma createScene_conflict (input : CreateInput) (id : string) (st : Store)
    (t : nat) (f : DirEntry) :
  inputSceneId input = Some id -> validId id = true ->
  stat (dir st) (id ++ suffix)%string = Some f ->
  createScene host input st t = (Throw (conflict id), st, t).
Proof.
  intros Hinput Hvalid Hs. unfold createScene, exists_, bind, ret.
  rewrite Hinput, (scenePath_valid _ Hvalid), Hs. reflexivity.
Qed.

Lemma createScene_fresh (input : CreateInput) (id : string) (st : Store)
    (t : nat) :
  inputSceneId input = Some id -> validId id = true ->
  stat (dir st) (id ++ suffix)%string = None ->
  createScene host input st t
  = (let r := normalize host (draft input id (isoNow host t)) (S t) in
     let s := save host (fst r) st (snd r) in
     (match fst (fst s) with
      | Ok _ => Ok (fst r)
      | Throw e => Throw e
      end, snd (fst s), snd s)).
Proof.
  intros Hinput Hvalid Hs. unfold createScene, exists_, bind, ret, read.
  rewrite Hinput, (scenePath_valid _ Hvalid), Hs. cbv zeta.
  fold (draft input id (isoNow host t)).
  destruct (normalize host (draft input id (isoNow host t)) (S t))
    as [sc t1].
  cbn [fst snd].
  destruct (save host sc st t1) as [[[u|e] st2] t2]; reflexivity.
Qed.

(** X26.  [createScene] under a valid id makes the scene once.  When the
    directory has the file of that id the call fails with CONFLICT and
    writes nothing.  Otherwise the scene is stored and read back by
    [load]; it carries the id, the time read from the clock as
    [createdAt], as many elements as were given, and no file and no
    library item; and creating it again fails with CONFLICT. *)
Theorem createScene_once (input : CreateInput) (id : string) (st : Store)
    (t : nat)
    (Hinput : inputSceneId input = Some id)
    (Hvalid : validId id = true) :
  match stat (dir st) (id ++ suffix)%string with
  | Some _ =>
      exists e, createScene host input st t = (Throw e, st, t)
                /\ code e = CONFLICT
  | None =>
      exists sc st' t',
        createScene host input st t = (Ok sc, st', t')
        /\ load id st' = (Ok sc, st')
        /\ sceneId (metadata sc) = id
        /\ createdAt (metadata sc) = isoNow host t
        /\ elementCount (metadata sc)
           = List.length (match inputElements input with
                          | Some l => l
                          | None => []
                          end)
        /\ files sc = []
        /\ libraryItems sc = []
        /\ exists e, createScene host input st' t' = (Throw e, st', t')
                     /\ code e = CONFLICT
  end.
Proof.
  destruct (stat (dir st) (id ++ suffix)) as [f|] eqn:Hs.
  - exists (conflict id).
    split; [apply (createScene_conflict input id st t f); assumption|].
    reflexivity.
  - rewrite (createScene_fresh input id st t Hinput Hvalid Hs). cbv zeta.
    pose proof (normalize_sceneId (draft input id (isoNow host t)) (S t))
      as Hid.
    pose proof (normalizeScene_stamped host (draft input id (isoNow host t))
                  (S t)) as Hst.
    cbv zeta in Hst.
    fold (normalize host (draft input id (isoNow host t)) (S t)) in Hst.
    pose proof (AddFacts.mapM_length (normalizeElement host)
                  (map JObj (elements (draft input id (isoNow host t))))
                  (S t)) as Hlen.
    destruct (normalize host (draft input id (isoNow host t)) (S t))
      as [sc t1].
    cbn [fst snd] in *. cbn [metadata sceneId createSceneMetadata draft]
      in Hid.
    assert (Hv : validId (sceneId (metadata sc)) = true)
      by (rewrite Hid; exact Hvalid).
    destruct (saved_loads sc st t1 Hv) as (st1 & Hsave & Hload & Hex).
    rewrite Hsave. cbn [fst snd].
    exists sc, st1, (S t1). split; [reflexivity|].
    rewrite Hid in Hload, Hex.
    split; [exact Hload|]. split; [exact Hid|].
    split; [rewrite Hst; reflexivity|].
    split; [rewrite Hst; cbn [stamped metadata elementCount];
            rewrite Hlen, length_map; reflexivity|].
    split; [rewrite Hst; reflexivity|].
    split; [rewrite Hst; reflexivity|].
    unfold exists_ in Hex. rewrite (scenePath_valid _ Hvalid) in Hex.
    destruct (stat (dir st1) (id ++ suffix)) as [f|] eqn:Hs1;
      [|discriminate].
    exists (conflict id).
    split; [apply (createScene_conflict input id st1 (S t1) f); assumption|].
    reflexivity.
Qed.


(** X30.  What [patchScene] returns for a scene stored under its own id
    is what the store holds afterwards: a later load of the id gives the
    scene of the answer, which still carries that id. *)
Theorem patchScene_persists (id : string)
    (operations : list ScenePatchOperation) (st st1 st' : Store)
    (sc : SceneEnvelope) (p : PatchResult) (t t' : nat)
    (Hload : load id st = (Ok sc, st1))
    (Hsame : sceneId (metadata sc) = id)
    (Hrun : patchScene host id operations st t = (Ok p, st', t')) :
  load id st' = (Ok (scene p), st')
  /\ sceneId (metadata (scene p)) = id.
Proof.
  destruct (load_settled id st st1 sc Hload) as (Hvalid & _ & _).
  unfold patchScene in Hrun. rewrite Hload in Hrun. unfold bind in Hrun.
  destruct (applyPatch host sc operations t) as [[p0|e] t1] eqn:Hp;
    [|discriminate].
  destruct (PatchPipeline.applyPatch_normalizes host sc operations t t1 p0 Hp)
    as (pst & t2 & Hops & Hscene & _).
  destruct (PatchFacts.applyOperations_identity host _ _ _ _ _ Hops)
    as [Hid _].
  cbn [next] in Hid.
  assert (Hpid : sceneId (metadata (scene p0)) = id).
  { rewrite Hscene, normalizeScene_stamped. cbv zeta.
    cbn [stamped metadata sceneId]. congruence. }
  assert (Hv : validId (sceneId (metadata (scene p0))) = true)
    by (rewrite Hpid; exact Hvalid).
  destruct (saved_loads (scene p0) st1 t1 Hv) as (st2 & Hsave & Hload2 & _).
  rewrite Hsave in Hrun. unfold ret in Hrun.
  inversion Hrun; subst p0 st2 t'.
  rewrite Hpid in Hload2. split; [exact Hload2 | exact Hpid].
Qed.

End WithHost.

End ServiceFacts.

Module ListingFacts.

Import Validators SceneStore SceneOperations.






End ListingFacts.

Module SessionFacts.

Import SceneStore SceneOperations ObjectFacts StoreFacts ServiceFacts.

(** X29.  A session's active scene.  After [openScene] succeeded for a
    session, [getActiveScene] of the session returns the scene that was
    opened, and no other session's active scene has changed; closing
    another scene than the active one changes nothing; closing the active
    scene, or [resetSession], leaves the session with no active scene, and
    [resetSession] answers that it cleared one. *)
Theorem open_then_active (id sessionId : string) (sv sv1 : Service)
    (sc : SceneEnvelope)
    (Hopen : openScene id sessionId sv = (Ok sc, sv1)) :
  getActiveScene sessionId sv1 = (Ok (Some sc), sv1)
  /\ (forall other, other <> sessionId ->
        get (sessionActiveScene sv1) other
        = get (sessionActiveScene sv) other)
  /\ (forall other, other <> id -> closeScene other sessionId sv1 = sv1)
  /\ getActiveScene sessionId (closeScene id sessionId sv1)
     = (Ok None, closeScene id sessionId sv1)
  /\ fst (resetSession sessionId sv1) = true
  /\ getActiveScene sessionId (snd (resetSession sessionId sv1))
     = (Ok None, snd (resetSession sessionId sv1)).
Proof.
  unfold openScene in Hopen.
  destruct (load id (store sv)) as [[s|e] st1] eqn:Hload; [|discriminate].
  inversion Hopen; subst s sv1. clear Hopen.
  destruct (load_settled id (store sv) st1 sc Hload) as (Hvalid & _ & Hagain).
  assert (Hne : nonempty id = true).
  { unfold validId in Hvalid. apply andb_true_iff in Hvalid. tauto. }
  split; [|split; [|split; [|split; [|split]]]].
  - unfold getActiveScene, getScene. cbn [sessionActiveScene store].
    rewrite get_set_same, Hne, Hagain. reflexivity.
  - intros other Hother. cbn [sessionActiveScene].
    apply get_set_other. congruence.
  - intros other Hother. unfold closeScene. cbn [sessionActiveScene].
    rewrite get_set_same.
    destruct (String.eqb id other) eqn:E; [|reflexivity].
    apply String.eqb_eq in E. congruence.
  - unfold closeScene. cbn [sessionActiveScene store].
    rewrite get_set_same, String.eqb_refl.
    unfold getActiveScene. cbn [sessionActiveScene].
    rewrite get_remove_same. reflexivity.
  - unfold resetSession. cbn [fst sessionActiveScene]. unfold has.
    rewrite get_set_same. reflexivity.
  - unfold resetSession, getActiveScene. cbn [snd sessionActiveScene].
    rewrite get_remove_same. reflexivity.
Qed.

Lemma open_then_active_witness :
  getActiveScene "session-1"
    (snd (openScene "a" "session-1"
            {| store := twoScenes; sessionActiveScene := [] |}))
  = (Ok (Some (Fixtures.emptyScene "a")),
     snd (openScene "a" "session-1"
            {| store := twoScenes; sessionActiveScene := [] |})).
Proof.
  exact (proj1 (open_then_active "a" "session-1"
                  {| store := twoScenes; sessionActiveScene := [] |}
                  (snd (openScene "a" "session-1"
                          {| store := twoScenes; sessionActiveScene := [] |}))
                  (Fixtures.emptyScene "a") eq_refl)).
Defined.

End SessionFacts.

Module ServiceExamples.

Import JsonEngine SceneStore SceneService SceneOperations StoreFacts
       ServiceFacts Fixtures.


Lemma createScene_once_witness :
  exists sc st' t',
    createScene tickingHost
      {| inputSceneId := Some "demo"; inputName := None;
         inputElements := Some [n1]; inputAppState := None |}
      twoScenes 0%nat = (Ok sc, st', t')
    /\ load "demo" st' = (Ok sc, st')
    /\ elementCount (metadata sc) = 1%nat.
Proof.
  pose proof (createScene_once tickingHost
                {| inputSceneId := Some "demo"; inputName := None;
                   inputElements := Some [n1]; inputAppState := None |}
                "demo" twoScenes 0%nat eq_refl eq_refl) as H.
  change (stat (dir twoScenes) ("demo" ++ suffix)) with (@None DirEntry) in H.
  destruct H as (sc & st' & t' & Hrun & Hload & _ & _ & Hcount & _).
  exists sc, st', t'. split; [exact Hrun|]. split; [exact Hload|].
  exact Hcount.
Defined.


Lemma patchScene_persists_witness :
  exists p st' t',
    patchScene tickingHost "a" [SetName "renamed"] twoScenes 0%nat
    = (Ok p, st', t')
    /\ load "a" st' = (Ok (scene p), st').
Proof.
  destruct (patchScene tickingHost "a" [SetName "renamed"] twoScenes 0%nat)
    as [[[p|e] st'] t'] eqn:E; [|vm_compute in E; discriminate].
  exists p, st', t'. split; [reflexivity|].
  exact (proj1 (patchScene_persists tickingHost "a" [SetName "renamed"]
                  twoScenes (snd (load "a" twoScenes)) st'
                  (emptyScene "a") p 0%nat t' eq_refl eq_refl E)).
Defined.

End ServiceExamples.
